(** * PyBacker: a shallow embedding of [py_backer.py] and its properties

    The development follows the layout of the Python file: helpers for the
    Python built-ins the program calls ([str.strip], [str.split], [int],
    [str], [os.path] on a POSIX host), then the functions of the program in
    source order, then the statements proved about them.

    Conventions.
    - A Python [str] is a [string] whose characters are the code points
      below 256.  On that range [\d] matches exactly ['0'..'9'].
    - A Python [int] is a [Z].  The conversions [int(s)] and [str(n)] are
      taken without the interpreter's optional cap on the number of digits
      (sys.set_int_max_str_digits(0)).
    - Time stamps ([time.time()], [os.path.getmtime]) are readings in [Z];
      the program only subtracts and compares them, and [0] is the reading
      that Python finds equal to the literal [0].
    - Every [print] of the program is one [event] appended to the standard
      output kept in the [world]. *)

From Stdlib Require Import ZArith Lia Ascii String DecimalString DecimalFacts DecimalZ.
From stdpp Require Import base option list gmap strings sorting.

Local Open Scope Z_scope.
Local Set Warnings "-register-all".

(** ** Exceptions and results *)

Inductive exn :=
| ValueError | AttributeError | TypeError | IndexError
| KeyError | OSError.

Inductive result (A : Type) :=
| Ok (a : A)
| Raise (e : exn).
Arguments Ok {A} a.
Arguments Raise {A} e.

Global Instance exn_eq_dec : EqDecision exn.
Proof. solve_decision. Defined.

(** Values read from [config.json] by [json.load]. *)
Inductive value :=
| VNone
| VBool (b : bool)
| VInt (z : Z)
| VFloat (num den : Z)
| VStr (s : string)
| VList (l : list value)
| VDict (d : list (string * value)).

(** ** Python strings *)

Module Py.

Definition code (c : ascii) : nat := nat_of_ascii c.

(** [str.isspace] on one character. *)
Definition isspace (c : ascii) : bool :=
  bool_decide (code c ∈ [9; 10; 11; 12; 13; 28; 29; 30; 31; 32; 133; 160]%nat).

(** The blanks that [int] skips around a literal. *)
Definition int_blank (c : ascii) : bool :=
  bool_decide (code c ∈ [9; 10; 11; 12; 13; 32; 133; 160]%nat).

Definition isdigit (c : ascii) : bool :=
  bool_decide (48 ≤ code c ≤ 57)%nat.

Definition is_empty (s : string) : bool :=
  match s with EmptyString => true | String _ _ => false end.

Fixpoint lstrip_with (blank : ascii → bool) (s : string) : string :=
  match s with
  | EmptyString => EmptyString
  | String c r => if blank c then lstrip_with blank r else s
  end.

Fixpoint rstrip_with (blank : ascii → bool) (s : string) : string :=
  match s with
  | EmptyString => EmptyString
  | String c r =>
      let r' := rstrip_with blank r in
      if blank c && is_empty r' then EmptyString else String c r'
  end.

(** [s.strip()] *)
Definition strip (s : string) : string :=
  rstrip_with isspace (lstrip_with isspace s).

(** [s.split(sep)] for a one-character separator. *)
Fixpoint split (sep : ascii) (s : string) : list string :=
  match s with
  | EmptyString => [EmptyString]
  | String c r =>
      if decide (c = sep) then EmptyString :: split sep r
      else match split sep r with
           | h :: t => String c h :: t
           | [] => [String c EmptyString]
           end
  end.

(** [sep.join(parts)] *)
Fixpoint join (sep : string) (parts : list string) : string :=
  match parts with
  | [] => EmptyString
  | [p] => p
  | p :: rest => p +:+ sep +:+ join sep rest
  end.

(** [s.startswith(p)] *)
Fixpoint startswith (s p : string) : bool :=
  match p, s with
  | EmptyString, _ => true
  | String a p', String b s' => bool_decide (a = b) && startswith s' p'
  | String _ _, EmptyString => false
  end.

(** [s.endswith(c)] for a one-character suffix. *)
Fixpoint endswith_char (s : string) (c : ascii) : bool :=
  match s with
  | EmptyString => false
  | String a EmptyString => bool_decide (a = c)
  | String _ r => endswith_char r c
  end.

(** The digits of a decimal literal: single underscores are allowed
    between digits only, and at least one digit is required. *)
Fixpoint literal_digits (after_digit : bool) (s : string) : option string :=
  match s with
  | EmptyString => if after_digit then Some EmptyString else None
  | String c r =>
      if isdigit c then String c <$> literal_digits true r
      else if decide (c = "_"%char) then
        if after_digit then literal_digits false r else None
      else None
  end.

(** [int(s)] for a [str] argument. *)
Definition int (s : string) : result Z :=
  let t := rstrip_with int_blank (lstrip_with int_blank s) in
  let '(negative, body) :=
    match t with
    | String "-" r => (true, r)
    | String "+" r => (false, r)
    | _ => (false, t)
    end in
  match literal_digits false body ≫= NilEmpty.uint_of_string with
  | Some u => Ok (if negative then - Z.of_uint u else Z.of_uint u)
  | None => Raise ValueError
  end.

(** [str(n)] for an [int] argument. *)
Definition str (n : Z) : string := NilZero.string_of_int (Z.to_int n).

(** One [\d+] of a regular expression: the longest run of digits at the
    head of [s], and what follows it. *)
Fixpoint span_digits (s : string) : string * string :=
  match s with
  | EmptyString => (EmptyString, EmptyString)
  | String c r =>
      if isdigit c then let '(ds, rest) := span_digits r in (String c ds, rest)
      else (EmptyString, s)
  end.

End Py.

(** ** The world: standard output and the file system *)

Inductive event :=
| ErrCreateDir (directory : string)
| WarnVersion (version_str : value)
| ErrUpdateConfig
| ErrCopy (item_path backup_dir : string)
| WarnExcludedIndex (index_str : string)
| WarnEmptyPath (i : nat)
| WarnSourceMissing (source_dir : string)
| WarnSourceNotDir (source_dir : string)
| WarnBackupDir (backup_dir : string)
| Monitoring (source_dir backup_dir : string) (excluded : list string)
| ErrNoValidPairs
| Starting (pairs : nat)
| ErrAccessSource (source_dir : string)
| ChangesDetected (new_version : string)
| BackupLocation (versioned_backup_dir : string)
| NoteExclusions (rules : nat)
| BackedUp (rel_path : string)
| FailedBackup (rel_path : string)
| UpdatedVersion (new_version : string)
| ConfigNotUpdated
| VersionNotUpdated
| BlankLine
| UnexpectedError (e : exn).

(** The state one scan works on: the table [item_mod_times[source_dir]]
    and the locals [changed_items] and [backup_needed]. *)
Record scan_state := ScanState {
  mod_times : gmap string Z;
  changed_items : list (string * string);
  backup_needed : bool;
}.

(** The locals of [monitor_directories] that live across poll cycles. *)
Record monitor_state := MonitorState {
  item_mod_times : gmap string (gmap string Z);
  last_backup_times : gmap string Z;
  current_version : string;
}.

(** What one scan sees of a directory entry: [os.path.exists], and
    [os.path.getmtime] ([None] when it raises [OSError]). *)
Record stat := Stat { st_exists : bool; st_mtime : option Z }.

(** The tree below a source directory as [os.walk] lists it.  The program
    calls [os.walk] without [onerror]: a directory that cannot be listed is
    skipped without an exception, and stands here with no entries.
    [walk_ok] is [false] for a directory at which an [OSError] escapes from
    the loop all the same, the case that the handler of line 277 is for. *)
Inductive entry :=
| File (name : string) (st : stat)
| Dir (name : string) (st : stat) (walk_ok : bool) (entries : list entry).

Definition entry_name (e : entry) : string :=
  match e with File n _ | Dir n _ _ _ => n end.

Definition entry_stat (e : entry) : stat :=
  match e with File _ s | Dir _ s _ _ => s end.

Definition is_dir_entry (e : entry) : bool :=
  match e with File _ _ => false | Dir _ _ _ _ => true end.

(** The operations of the host.  A file-system call answers [false] when
    it raises an [OSError] (or [shutil.Error]); the world it leaves behind
    is returned in both cases. *)
Class Host (W : Type) := {
  (** [str(Path(p).expanduser().resolve())] *)
  resolve : string → string;
  (** [os.getcwd()] *)
  getcwd : string;
  (** [Path(d).mkdir(parents=True, exist_ok=True)] *)
  mkdir_parents : string → W → bool * W;
  (** [os.path.isdir], [os.path.exists] *)
  isdir : string → W → bool;
  exists_path : string → W → bool;
  (** [shutil.rmtree], [shutil.copytree], [shutil.copy2] *)
  rmtree : string → W → bool * W;
  copytree : string → string → W → bool * W;
  copy2 : string → string → W → bool * W;
  (** read the JSON file, set ["project_version"], write it back *)
  rewrite_version : string → string → W → bool * W;
  (** what [os.walk(source_dir)] and the per-item checks see *)
  walk_view : string → W → entry;
}.

Record world (W : Type) := World { stdout : list event; fs : W }.
Arguments World {W} stdout fs.
Arguments stdout {W} w.
Arguments fs {W} w.

(** ** Computations with a state that may raise

    An exception leaves the state as it was when it was raised: what the
    program has printed, copied or recorded by then stays. *)
Definition ST (S A : Type) : Type := S → result A * S.

Global Instance ST_ret {S} : MRet (ST S) := λ A a s, (Ok a, s).

Global Instance ST_bind {S} : MBind (ST S) := λ A B k m s,
  match m s with
  | (Ok a, s') => k a s'
  | (Raise e, s') => (Raise e, s')
  end.

Global Instance result_ret : MRet result := λ A a, Ok a.

Global Instance result_bind : MBind result := λ A B k r,
  match r with Ok a => k a | Raise e => Raise e end.

Definition lift {S A} (r : result A) : ST S A := λ s, (r, s).

Definition raise {S A} (e : exn) : ST S A := lift (Raise e).

Definition get {S} : ST S S := λ s, (Ok s, s).

Definition put {S} (s : S) : ST S unit := λ _, (Ok tt, s).

(** [try: m except (handled): h] *)
Definition try_except {S A} (m : ST S A) (handled : list exn) (h : ST S A) : ST S A :=
  λ s, match m s with
       | (Ok a, s') => (Ok a, s')
       | (Raise e, s') => if bool_decide (e ∈ handled) then h s' else (Raise e, s')
       end.

(** [[f(x) for x in l]] *)
Fixpoint for_each {S A B} (f : A → ST S B) (l : list A) : ST S (list B) :=
  match l with
  | [] => mret []
  | x :: l' => y ← f x; ys ← for_each f l'; mret (y :: ys)
  end.

(** [for x in l: acc = f(acc, x)] *)
Fixpoint for_fold {S A B} (f : B → A → ST S B) (l : list A) (acc : B) : ST S B :=
  match l with
  | [] => mret acc
  | x :: l' => acc' ← f acc x; for_fold f l' acc'
  end.

(** [try: m except Exception as e: h(e)] *)
Definition try_except_any {S A} (m : ST S A) (h : exn → ST S A) : ST S A :=
  λ s, match m s with
       | (Ok a, s') => (Ok a, s')
       | (Raise e, s') => h e s'
       end.

(** [d[k]] on a dictionary. *)
Definition item {S K A} `{Countable K} (d : gmap K A) (k : K) : ST S A :=
  match d !! k with Some x => mret x | None => raise KeyError end.

(** Computations of the program proper: the state is the [world]. *)
Abbreviation M W := (ST (world W)).

Definition print {W} (e : event) : M W unit :=
  λ w, (Ok tt, World (stdout w ++ [e]) (fs w)).

(** A file-system call of the host, and a query of the file system. *)
Definition sys {W} (op : W → bool * W) : M W bool :=
  λ w, let '(ok, f) := op (fs w) in (Ok ok, World (stdout w) f).

Definition ask {W A} (q : W → A) : M W A := λ w, (Ok (q (fs w)), w).

(** ** [os.path] on a POSIX host *)

Module PosixPath.

Definition sep : ascii := "/"%char.

Definition isabs (s : string) : bool := Py.startswith s "/".

(** [os.path.join(a, b)] *)
Definition join (a b : string) : string :=
  if Py.startswith b "/" then b
  else if Py.is_empty a || Py.endswith_char a sep then a +:+ b
  else a +:+ "/" +:+ b.

(** [os.path.join(a, *p)] *)
Definition join_all (a : string) (p : list string) : string := foldl join a p.

(** The text up to and including the last separator, and the rest. *)
Fixpoint split_last_sep (s : string) : string * string :=
  match s with
  | EmptyString => (EmptyString, EmptyString)
  | String c r =>
      let '(h, t) := split_last_sep r in
      if negb (Py.is_empty h) then (String c h, t)
      else if decide (c = sep) then (String c EmptyString, t)
      else (EmptyString, String c t)
  end.

Fixpoint all_sep (s : string) : bool :=
  match s with
  | EmptyString => true
  | String c r => bool_decide (c = sep) && all_sep r
  end.

Definition is_sep (c : ascii) : bool := bool_decide (c = sep).

(** [os.path.dirname(p)] *)
Definition dirname (p : string) : string :=
  let head := (split_last_sep p).1 in
  if negb (Py.is_empty head) && negb (all_sep head)
  then Py.rstrip_with is_sep head else head.

(** [os.path.basename(p)] *)
Definition basename (p : string) : string := (split_last_sep p).2.

(** One round of the loop of [normpath] over the components. *)
Definition normpath_step (initial_slashes : nat) (new_comps : list string)
    (comp : string) : list string :=
  if bool_decide (comp = "" ∨ comp = ".") then new_comps
  else if bool_decide (comp ≠ "..")
          || (bool_decide (initial_slashes = 0%nat) && bool_decide (new_comps = []))
          || bool_decide (last new_comps = Some "..")
  then new_comps ++ [comp]
  else removelast new_comps.

(** [os.path.normpath(path)] *)
Definition normpath (path : string) : string :=
  if Py.is_empty path then "." else
  let initial_slashes : nat :=
    if Py.startswith path "/" then
      if Py.startswith path "//" && negb (Py.startswith path "///")
      then 2%nat else 1%nat
    else 0%nat in
  let comps := foldl (normpath_step initial_slashes) [] (Py.split sep path) in
  let path' := Py.join "/" comps in
  let path' := match initial_slashes with
               | O => path' | 1%nat => "/" +:+ path' | _ => "//" +:+ path' end in
  if Py.is_empty path' then "." else path'.

(** [os.path.abspath(path)] *)
Definition abspath (cwd path : string) : string :=
  normpath (if isabs path then path else join cwd path).

(** The length of the longest common prefix of two component lists. *)
Fixpoint common_len (l1 l2 : list string) : nat :=
  match l1, l2 with
  | x :: l1', y :: l2' => if decide (x = y) then S (common_len l1' l2') else 0
  | _, _ => 0
  end.

Definition components (cwd p : string) : list string :=
  filter (λ x, x ≠ "") (Py.split sep (abspath cwd p)).

(** [os.path.relpath(path, start)]; [ValueError] on an empty [path]. *)
Definition relpath (cwd path start : string) : result string :=
  if Py.is_empty path then Raise ValueError else
  let start_list := components cwd start in
  let path_list := components cwd path in
  let i := common_len start_list path_list in
  let rel_list := replicate (length start_list - i) ".." ++ drop i path_list in
  match rel_list with
  | [] => Ok "."
  | c :: cs => Ok (join_all c cs)
  end.

End PosixPath.


(** ** Operations on the values of the configuration *)

(** The [str] behind [v.strip()] and [v.split(..)]: only a [str] has these
    methods. *)
Definition str_method (v : value) : result string :=
  match v with VStr s => Ok s | _ => Raise AttributeError end.

(** [for x in v] *)
Definition iterate (v : value) : result (list value) :=
  match v with
  | VList l => Ok l
  | VDict d => Ok (VStr <$> d.*1)
  | VStr s => Ok ((λ c, VStr (String c EmptyString)) <$> list_ascii_of_string s)
  | _ => Raise TypeError
  end.

(** [int(v)] *)
Definition int_of_value (v : value) : result Z :=
  match v with
  | VInt z => Ok z
  | VBool b => Ok (if b then 1 else 0)
  | VFloat num den => Ok (num ÷ den)
  | VStr s => Py.int s
  | _ => Raise TypeError
  end.

(** [l[i]], counting from the end for a negative [i]. *)
Definition index {A} (l : list A) (i : Z) : result A :=
  let n := Z.of_nat (length l) in
  let j := if decide (i < 0) then i + n else i in
  if decide (0 ≤ j < n) then
    match l !! Z.to_nat j with Some x => Ok x | None => Raise IndexError end
  else Raise IndexError.

(** [re.match(r'^(\d+)\.(\d+)\.(\d+)\.(\d+)$', s)]: the four groups.  A
    run of digits is followed by a dot or by the end, so the match is the
    greedy one; [$] also accepts one final line feed. *)
Definition re_match_version (s : string) : option (list string) :=
  let '(g1, r) := Py.span_digits s in
  match r with
  | String "." r =>
      let '(g2, r) := Py.span_digits r in
      match r with
      | String "." r =>
          let '(g3, r) := Py.span_digits r in
          match r with
          | String "." r =>
              let '(g4, r) := Py.span_digits r in
              if forallb (λ g, negb (Py.is_empty g)) [g1; g2; g3; g4]
                 && bool_decide (r = "" ∨ r = String "010" "")
              then Some [g1; g2; g3; g4] else None
          | _ => None
          end
      | _ => None
      end
  | _ => None
  end.

(** [parts[:4]] after [while len(parts) < 4: parts.append('0')]. *)
Definition pad4 (parts : list string) : list string :=
  take 4 (parts ++ replicate (4 - length parts) "0").

(** * The program *)

Section Program.
Context {W : Type} `{!Host W}.

(** Lines 12-19. *)
Definition ensure_directory_exists (directory : string) : M W bool :=
  ok ← sys (mkdir_parents directory);
  if ok : bool then mret true
  else print (ErrCreateDir directory);; mret false.

(** Lines 21-28. *)
Definition normalize_path (path_str : string) : string :=
  if Py.is_empty path_str then "" else resolve path_str.

(** Lines 30-45. *)
Definition parse_version (version_str : value) : M W (list Z) :=
  try_except
    (s ← lift (str_method version_str);
     match re_match_version (Py.strip s) with
     | Some groups => for_each (λ x, lift (Py.int x)) groups
     | None =>
         s ← lift (str_method version_str);
         for_each (λ x, lift (Py.int x)) (pad4 (Py.split "." s))
     end)
    [ValueError; AttributeError]
    (print (WarnVersion version_str);; mret [1; 0; 0; 0]).

(** [format]: ['.'.join(map(str, version_components))]. *)
Definition format_version (version_components : list Z) : string :=
  Py.join "." (Py.str <$> version_components).

(** Lines 47-50.  The list is updated in place: the result carries the
    list as the caller sees it afterwards, and the string returned. *)
Definition increment_build_number (version_components : list Z) :
    result (list Z * string) :=
  build ← index version_components 3;
  let version_components := <[3%nat := build + 1]> version_components in
  Ok (version_components, format_version version_components).

(** Lines 52-55. *)
Definition create_versioned_backup_path
    (base_backup_dir project_name project_version : string) : string :=
  PosixPath.join base_backup_dir (project_name +:+ "_v" +:+ project_version).

(** Lines 57-74. *)
Definition update_config_version (config_file_path new_version : string) : M W bool :=
  ok ← sys (rewrite_version config_file_path new_version);
  if ok : bool then mret true
  else print ErrUpdateConfig;; mret false.

(** Lines 76-96. *)
Definition copy_item (item_path backup_dir : string) : M W bool :=
  ok ← ensure_directory_exists backup_dir;
  if negb ok then mret false else
  let item_name := PosixPath.basename item_path in
  let destination := PosixPath.join backup_dir item_name in
  is_directory ← ask (isdir item_path);
  copied ← (if is_directory : bool then
              present ← ask (exists_path destination);
              removed ← (if present : bool then sys (rmtree destination) else mret true);
              if removed : bool then sys (copytree item_path destination)
              else mret false
            else sys (copy2 item_path destination));
  if copied : bool then mret true
  else print (ErrCopy item_path backup_dir);; mret false.

(** Lines 115-127: one round of the loop over [excluded_list]. *)
Definition normalize_excluded_path (source_dir : string)
    (normalized_excluded : list string) (excluded_path : value) :
    M W (list string) :=
  s ← lift (str_method excluded_path);
  let excluded_path := Py.strip s in
  if Py.is_empty excluded_path then mret normalized_excluded
  else if PosixPath.isabs excluded_path then
    mret (normalized_excluded ++ [normalize_path excluded_path])
  else
    let full_excluded_path := PosixPath.join source_dir excluded_path in
    mret (normalized_excluded ++ [normalize_path full_excluded_path]).

(** Lines 103-131: one round of the loop over the items of
    [excluded_dirs_dict]. *)
Definition normalize_excluded_item (source_dirs : list string)
    (excluded_by_index : gmap Z (list string)) (item : string * value) :
    M W (gmap Z (list string)) :=
  let '(index_str, excluded_paths) := item in
  try_except
    (i ← lift (Py.int index_str);
     if decide (i < Z.of_nat (length source_dirs)) then
       raw_source ← lift (index source_dirs i);
       let source_dir := normalize_path raw_source in
       excluded_list ← match excluded_paths with
                       | VStr _ => mret [excluded_paths]
                       | _ => lift (iterate excluded_paths)
                       end;
       normalized_excluded ←
         for_fold (normalize_excluded_path source_dir) excluded_list [];
       mret (<[i := normalized_excluded]> excluded_by_index)
     else mret excluded_by_index)
    [ValueError; IndexError]
    (print (WarnExcludedIndex index_str);; mret excluded_by_index).

(** Lines 98-133. *)
Definition normalize_excluded_paths (excluded_dirs_dict : list (string * value))
    (source_dirs : list string) : M W (gmap Z (list string)) :=
  for_fold (normalize_excluded_item source_dirs) excluded_dirs_dict ∅.

(** Lines 142-154: the loop over [excluded_paths].  [relpath] raises
    nothing but the [ValueError] that the handler turns into [continue]. *)
Fixpoint excluded_by_any (normalized_path : string) (excluded_paths : list string) : bool :=
  match excluded_paths with
  | [] => false
  | excluded_path :: rest =>
      if decide (normalized_path = excluded_path) then true
      else match PosixPath.relpath getcwd normalized_path excluded_path with
           | Ok rel_path =>
               if negb (Py.startswith rel_path "..") then true
               else excluded_by_any normalized_path rest
           | Raise _ => excluded_by_any normalized_path rest
           end
  end.

(** Lines 135-156. *)
Definition is_path_excluded (path : string) (excluded_paths : list string) : bool :=
  match excluded_paths with
  | [] => false
  | _ => excluded_by_any (normalize_path path) excluded_paths
  end.

(** Lines 158-196. *)
Definition validate_pair (excluded_by_index : gmap Z (list string))
    (valid_pairs : list (string * string * nat)) (numbered : nat * (string * string)) :
    M W (list (string * string * nat)) :=
  let '(i, (source_dir, backup_dir)) := numbered in
  let source_dir := normalize_path source_dir in
  let backup_dir := normalize_path backup_dir in
  if Py.is_empty source_dir || Py.is_empty backup_dir then
    print (WarnEmptyPath i);; mret valid_pairs
  else
    present ← ask (exists_path source_dir);
    if negb present then print (WarnSourceMissing source_dir);; mret valid_pairs else
    is_directory ← ask (isdir source_dir);
    if negb is_directory then print (WarnSourceNotDir source_dir);; mret valid_pairs else
    created ← ensure_directory_exists backup_dir;
    if negb created then print (WarnBackupDir backup_dir);; mret valid_pairs else
    let excluded_paths := default [] (excluded_by_index !! Z.of_nat i) in
    print (Monitoring source_dir backup_dir excluded_paths);;
    mret (valid_pairs ++ [(source_dir, backup_dir, i)]).

Definition validate_directories (source_dirs backup_dirs : list string)
    (excluded_by_index : gmap Z (list string)) : M W (list (string * string * nat)) :=
  for_fold (validate_pair excluded_by_index)
    (imap (λ i sb, (i, sb)) (zip source_dirs backup_dirs)) [].

Section Scan.
Variables (source_dir : string) (excluded_paths : list string).

(** Lines 255-275: the body of the loop over [dirs + files]. *)
Definition check_item (root : string) (e : entry) : ST scan_state unit :=
  let item_path := PosixPath.join root (entry_name e) in
  if is_path_excluded item_path excluded_paths then mret tt else
  if negb (st_exists (entry_stat e)) then mret tt else
  rel_path ← lift (PosixPath.relpath getcwd item_path source_dir);
  match st_mtime (entry_stat e) with
  | None => mret tt
  | Some current_mod_time =>
      σ ← get;
      if decide (current_mod_time ≠ default 0 (mod_times σ !! item_path)) then
        put (ScanState (<[item_path := current_mod_time]> (mod_times σ))
                       (changed_items σ ++ [(item_path, rel_path)])
                       true)
      else mret tt
  end.

(** [dirs.remove(name)] *)
Fixpoint remove_name (name : string) (dirs : list entry) : list entry :=
  match dirs with
  | [] => []
  | d :: rest =>
      if decide (entry_name d = name) then rest else d :: remove_name name rest
  end.

Definition excluded_child (root : string) (d : entry) : bool :=
  is_path_excluded (PosixPath.join root (entry_name d)) excluded_paths.

(** Lines 244-251: [dirs] after the excluded names are removed. *)
Definition prune (root : string) (dirs : list entry) : list entry :=
  let dirs_to_remove := entry_name <$> filter (λ d, excluded_child root d) dirs in
  foldl (λ dirs dir_name, remove_name dir_name dirs) dirs dirs_to_remove.

(** Lines 236-275: [os.walk] from the directory [e] found at [root],
    with the body of the loop run at every directory it yields.  An
    excluded [root] clears [dirs] and goes on to the next directory.  The
    walk then goes down into the directories left in [dirs], in order:
    they are the directories among [entries] that are no excluded child
    (lemma [prune_filter]), which is how the descent is written. *)
Fixpoint walk (root : string) (e : entry) : ST scan_state unit :=
  match e with
  | File _ _ => mret tt
  | Dir _ _ walk_ok entries =>
      if negb walk_ok then raise OSError else
      if is_path_excluded root excluded_paths then mret tt else
      let dirs := prune root (filter (λ x, is_dir_entry x) entries) in
      let files := filter (λ x, negb (is_dir_entry x)) entries in
      for_each (check_item root) (dirs ++ files);;
      for_each (λ d, if is_dir_entry d && negb (excluded_child root d)
                     then walk (PosixPath.join root (entry_name d)) d
                     else mret tt) entries;;
      mret tt
  end.

End Scan.

Section Monitor.
Variables (project_name config_file_path : string).

(** Lines 298-306: one round of the loop over [changed_items]. *)
Definition backup_item (versioned_backup_dir : string) (backup_success : bool)
    (changed : string * string) : M W bool :=
  let '(item_path, rel_path) := changed in
  let backup_item_path := PosixPath.join versioned_backup_dir rel_path in
  let backup_parent_dir := PosixPath.dirname backup_item_path in
  copied ← copy_item item_path backup_parent_dir;
  if copied : bool then print (BackedUp rel_path);; mret backup_success
  else print (FailedBackup rel_path);; mret false.

(** Lines 282-319: the backup of the changed items. *)
Definition commit (backup_dir : string) (excluded_paths : list string)
    (changed_items : list (string * string)) (σ : monitor_state) : M W monitor_state :=
  version_components ← parse_version (VStr (current_version σ));
  '(_, new_version) ← lift (increment_build_number version_components);
  let versioned_backup_dir :=
    create_versioned_backup_path backup_dir project_name new_version in
  print (ChangesDetected new_version);;
  print (BackupLocation versioned_backup_dir);;
  (match excluded_paths with
   | [] => mret tt
   | _ => print (NoteExclusions (length excluded_paths))
   end);;
  backup_success ← for_fold (backup_item versioned_backup_dir) changed_items true;
  σ' ← (if backup_success : bool then
          updated ← update_config_version config_file_path new_version;
          if updated : bool then
            print (UpdatedVersion new_version);;
            mret (MonitorState (item_mod_times σ) (last_backup_times σ) new_version)
          else print ConfigNotUpdated;; mret σ
        else print VersionNotUpdated;; mret σ);
  print BlankLine;;
  mret σ'.

(** Lines 232-321: the turn of one pair whose delay has elapsed.  The
    table [item_mod_times[source_dir]] is the dictionary made at line 217;
    the scan updates it in place, and what the scan has written stays in
    it when the walk ends in an error. *)
Definition turn (source_dir backup_dir : string) (excluded_paths : list string)
    (current_time : Z) (σ : monitor_state) : M W monitor_state :=
  table ← item (item_mod_times σ) source_dir;
  tree ← ask (walk_view source_dir);
  let '(walked, scan) :=
    walk source_dir excluded_paths source_dir tree (ScanState table [] false) in
  (match walked with
   | Ok _ => mret tt
   | Raise OSError => print (ErrAccessSource source_dir)
   | Raise e => raise e
   end);;
  let σ := MonitorState (<[source_dir := mod_times scan]> (item_mod_times σ))
                        (last_backup_times σ) (current_version σ) in
  σ ← (if backup_needed scan && negb (bool_decide (changed_items scan = [])) then
         commit backup_dir excluded_paths (changed_items scan) σ
       else mret σ);
  mret (MonitorState (item_mod_times σ)
                     (<[source_dir := current_time]> (last_backup_times σ))
                     (current_version σ)).

Variables (backup_times : gmap string value)
          (excluded_by_index : gmap Z (list string)).

(** Lines 227-321: one pair in one poll cycle. *)
Definition poll_pair (current_time : Z) (σ : monitor_state)
    (pair : string * string * nat) : M W monitor_state :=
  let '(source_dir, backup_dir, i) := pair in
  delay ← lift (int_of_value (default (VInt 5) (backup_times !! Py.str (Z.of_nat i))));
  let excluded_paths := default [] (excluded_by_index !! Z.of_nat i) in
  last ← item (last_backup_times σ) source_dir;
  if decide (current_time - last >= delay)%Z then
    turn source_dir backup_dir excluded_paths current_time σ
  else mret σ.

(** Lines 224-321: one poll cycle. *)
Definition tick (valid_pairs : list (string * string * nat)) (current_time : Z)
    (σ : monitor_state) : M W monitor_state :=
  for_fold (poll_pair current_time) valid_pairs σ.

(** Lines 223-323: the poll cycles at the given clock readings; while
    the program sleeps, other programs change the file system. *)
Fixpoint poll (valid_pairs : list (string * string * nat))
    (schedule : list (Z * (W → W))) (σ : monitor_state) : M W monitor_state :=
  match schedule with
  | [] => mret σ
  | (current_time, outside) :: rest =>
      σ ← tick valid_pairs current_time σ;
      sys (λ f, (true, outside f));;
      poll valid_pairs rest σ
  end.

(** Lines 198-328, interrupted after the poll cycles of [schedule]. *)
Definition monitor_directories (source_dirs backup_dirs : list string)
    (project_version : value) (schedule : list (Z * (W → W))) : M W unit :=
  valid_pairs ← validate_directories source_dirs backup_dirs excluded_by_index;
  match valid_pairs with
  | [] => print ErrNoValidPairs
  | _ =>
      print (Starting (length valid_pairs));;
      version_components ← parse_version project_version;
      let σ := MonitorState (list_to_map ((λ p, (p.1.1, ∅)) <$> valid_pairs))
                            (list_to_map ((λ p, (p.1.1, 0)) <$> valid_pairs))
                            (format_version version_components) in
      try_except_any (poll valid_pairs schedule σ;; mret tt)
                     (λ e, print (UnexpectedError e))
  end.

End Monitor.

End Program.

(** ** The start of the program

    Lines 367-381: the two lists of directories are read off the
    dictionaries [source_dirs] and [backup_dirs] of the configuration.
    The dictionaries are used through their keys under [max] and through
    [get] only, which do not depend on the order of their items. *)

(** [bool(v)] *)
Definition truthy (v : value) : bool :=
  match v with
  | VNone => false
  | VBool b => b
  | VInt z => negb (z =? 0)
  | VFloat num _ => negb (num =? 0)
  | VStr s => negb (Py.is_empty s)
  | VList l => match l with [] => false | _ => true end
  | VDict d => match d with [] => false | _ => true end
  end.

(** [(int(k) for k in keys)], consumed to its end. *)
Fixpoint ints (keys : list string) : result (list Z) :=
  match keys with
  | [] => Ok []
  | k :: rest => i ← Py.int k; l ← ints rest; Ok (i :: l)
  end.

(** [max(l, default=d)] *)
Definition max_default (l : list Z) (d : Z) : Z :=
  match l with
  | [] => d
  | x :: rest => foldl Z.max x rest
  end.

(** Lines 367-370. *)
Definition max_index (source_dirs_dict backup_dirs_dict : gmap string value) : result Z :=
  source_keys ← ints (map_to_list source_dirs_dict).*1;
  backup_keys ← ints (map_to_list backup_dirs_dict).*1;
  Ok (Z.max (max_default source_keys (-1)) (max_default backup_keys (-1))).

(** Lines 375-381: one round of the loop over [range(max_index + 1)]. *)
Definition add_pair (source_dirs_dict backup_dirs_dict : gmap string value)
    (lists : list value * list value) (i : Z) : list value * list value :=
  let source_dir := default (VStr "") (source_dirs_dict !! Py.str i) in
  let backup_dir := default (VStr "") (backup_dirs_dict !! Py.str i) in
  if truthy source_dir && truthy backup_dir
  then (lists.1 ++ [source_dir], lists.2 ++ [backup_dir])
  else lists.

(** Lines 367-381: the lists [source_dirs] and [backup_dirs]. *)
Definition directory_lists (source_dirs_dict backup_dirs_dict : gmap string value) :
    result (list value * list value) :=
  max_index ← max_index source_dirs_dict backup_dirs_dict;
  Ok (foldl (add_pair source_dirs_dict backup_dirs_dict) ([], [])
            (seqZ 0 (max_index + 1))).

(** * Notions used in the statements *)

Fixpoint all_digits (s : string) : bool :=
match s with
| EmptyString => true
| String c r => Py.isdigit c && all_digits r
end.

(** A numeric component: one digit or more. *)
Definition numeral (g : string) : bool := negb (Py.is_empty g) && all_digits g.

(** A numeral without superfluous leading zeros. *)
Definition canonical (g : string) : bool :=
numeral g && (bool_decide (g = "0") || negb (Py.startswith g "0")).

(** The number a numeral denotes. *)
Definition numeral_value (g : string) : Z :=
match NilEmpty.uint_of_string g with Some u => Z.of_uint u | None => 0 end.

Definition dotted (g1 g2 g3 g4 : string) : string :=
g1 +:+ "." +:+ g2 +:+ "." +:+ g3 +:+ "." +:+ g4.

(** The text of [int(x)] when it converts. *)
Definition int_opt (x : string) : option Z :=
match Py.int x with Ok z => Some z | Raise _ => None end.

(** The components of a version string that [parse_version] converts. *)
Definition version_parts (version_str : value) : option (list string) :=
match version_str with
| VStr s =>
    Some (match re_match_version (Py.strip s) with
          | Some groups => groups
          | None => pad4 (Py.split "." s)
          end)
| _ => None
end.

(** The numeric interpretation of a version string, when it has one. *)
Definition numeric_interpretation (version_str : value) : option (list Z) :=
version_parts version_str ≫= mapM int_opt.

(** A host without surprises, for running the program on examples. *)
Record toy_fs := ToyFS {
  toy_tree : entry;
  toy_unreadable : list string;
  toy_config_locked : bool;
  toy_copies : list (string * string);
}.

Definition toy_copy (src dst : string) (f : toy_fs) : bool * toy_fs :=
if bool_decide (src ∈ toy_unreadable f) then (false, f)
else (true, ToyFS (toy_tree f) (toy_unreadable f) (toy_config_locked f)
                  (toy_copies f ++ [(src, dst)])).

Global Instance toy_host : Host toy_fs := {|
  resolve p := p;
  getcwd := "/";
  mkdir_parents _ f := (true, f);
  isdir _ _ := false;
  exists_path _ _ := true;
  rmtree _ f := (true, f);
  copytree := toy_copy;
  copy2 := toy_copy;
  rewrite_version _ _ f := (negb (toy_config_locked f), f);
  walk_view _ f := toy_tree f;
|}.

Definition toy_world (tree : entry) (unreadable : list string) : world toy_fs :=
World [] (ToyFS tree unreadable false []).

Definition empty_dir : entry := Dir "" (Stat true (Some 1)) true [].

Section ScanFactsNotions.
Context {W : Type} `{!Host W}.
Variables (source_dir : string) (excluded_paths : list string).
Abbreviation check_item := (check_item source_dir excluded_paths).
Abbreviation walk := (walk source_dir excluded_paths).
Abbreviation excluded_child := (excluded_child excluded_paths).
Abbreviation prune := (prune excluded_paths).

(** The directories that survive the pruning, and the items of one
    directory in the order of the loop over [dirs + files]. *)
Definition kept_dirs (root : string) (entries : list entry) : list entry :=
filter (λ d, negb (excluded_child root d)) (filter (λ x, is_dir_entry x) entries).

Definition items_here (root : string) (entries : list entry) : list entry :=
kept_dirs root entries ++ filter (λ x, negb (is_dir_entry x)) entries.

(** The item checks of one scan, in order, each with the directory it is
    found in; and whether the walk ends in an [OSError]. *)
Definition then_visits (sub rest : list (string * entry) * bool) :
    list (string * entry) * bool :=
if sub.2 then (sub.1, true) else (sub.1 ++ rest.1, rest.2).

Fixpoint visits (root : string) (e : entry) : list (string * entry) * bool :=
match e with
| File _ _ => ([], false)
| Dir _ _ walk_ok entries =>
    if negb walk_ok then ([], true) else
    if is_path_excluded root excluded_paths then ([], false) else
    then_visits
      ((λ x, (root, x)) <$> items_here root entries, false)
      (foldr (λ d rest,
                if is_dir_entry d && negb (excluded_child root d)
                then then_visits (visits (PosixPath.join root (entry_name d)) d) rest
                else rest)
             ([], false) entries)
end.

(** The item checks of [vs] run in order. *)
Fixpoint run_checks (vs : list (string * entry)) : ST scan_state unit :=
match vs with
| [] => mret tt
| (root, e) :: vs' => check_item root e;; run_checks vs'
end.

(** The checks of [vs], then the [OSError] of a failed walk. *)
Definition checked (vs : list (string * entry)) (failed : bool) : ST scan_state unit :=
run_checks vs;; if failed then raise OSError else mret tt.

End ScanFactsNotions.

Fixpoint no_sep (s : string) : bool :=
match s with
| EmptyString => true
| String c r => negb (PosixPath.is_sep c) && no_sep r
end.

(** A name as [os.walk] lists it: not empty, and without a separator. *)
Definition plain (name : string) : bool := negb (Py.is_empty name) && no_sep name.

(** [a] as [os.path.join] continues it: with a separator at its end,
    unless it is empty. *)
Definition with_sep (a : string) : string :=
if Py.is_empty a || Py.endswith_char a PosixPath.sep then a else a +:+ "/".

(** Every name listed below [e] is plain. *)
Fixpoint plain_names (e : entry) : bool :=
match e with
| File _ _ => true
| Dir _ _ _ entries => forallb (λ d, plain (entry_name d) && plain_names d) entries
end.

(** No directory below [e] lists a name twice. *)
Fixpoint distinct_names (e : entry) : bool :=
match e with
| File _ _ => true
| Dir _ _ _ entries =>
    bool_decide (NoDup (entry_name <$> entries)) && forallb distinct_names entries
end.

Section TrackingNotions.
Context {W : Type} `{!Host W}.
Variables (source_dir : string) (excluded_paths : list string).
Abbreviation excluded p := (is_path_excluded p excluded_paths).
Abbreviation below ms := (PosixPath.join_all source_dir ms).

(** One scan of the tree [tree] from the table [table]: the state in which
    it ends, whether it ends normally or in an exception. *)
Definition scan (tree : entry) (table : gmap string Z) : scan_state :=
(walk source_dir excluded_paths source_dir tree (ScanState table [] false)).2.

(** The scans of successive poll cycles, each on the tree it finds: the
    table after the last one, and the changed items of each. *)
Fixpoint scan_cycles (trees : list entry) (table : gmap string Z) :
    gmap string Z * list (list (string * string)) :=
match trees with
| [] => (table, [])
| tree :: trees' =>
    let σ := scan tree table in
    let '(table', changes) := scan_cycles trees' (mod_times σ) in
    (table', changed_items σ :: changes)
end.

(** No directory on the way from the source directory down the names [ms]
    is excluded, the ends included. *)
Definition clear (ms : list string) : Prop :=
∀ k, (k ≤ length ms)%nat → excluded (below (take k ms)) = false.

(** The paths that a scan may record. *)
Definition trackable (p : string) : Prop :=
∃ ms, Forall (λ n, plain n = true) ms ∧ clear ms ∧ p = below ms.

Definition reached (v : string * entry) : Prop :=
plain (entry_name v.2) = true ∧
∃ ms, Forall (λ n, plain n = true) ms ∧ clear ms ∧ v.1 = below ms.

Definition only_trackable (σ : scan_state) : Prop :=
(∀ p, is_Some (mod_times σ !! p) → trackable p) ∧
(∀ p, p ∈ (changed_items σ).*1 → trackable p).

End TrackingNotions.

Section DetectionNotions.
Context {W : Type} `{!Host W}.
Variables (source_dir : string) (excluded_paths : list string).
Abbreviation excluded p := (is_path_excluded p excluded_paths).
Abbreviation below ms := (PosixPath.join_all source_dir ms).

Definition visit_path (v : string * entry) : string :=
PosixPath.join v.1 (entry_name v.2).

(** What the check of one item finds when it gets as far as the
    comparison: the path, the relative path and the modification time. *)
Definition candidate (v : string * entry) : option (string * string * Z) :=
if excluded (visit_path v) then None
else if negb (st_exists (entry_stat v.2)) then None
else match PosixPath.relpath getcwd (visit_path v) source_dir, st_mtime (entry_stat v.2) with
     | Ok rel_path, Some current_mod_time => Some (visit_path v, rel_path, current_mod_time)
     | _, _ => None
     end.

(** The comparison of lines 272-275 on one candidate. *)
Definition record (σ : scan_state) (c : string * string * Z) : scan_state :=
if decide (c.2 ≠ default 0 (mod_times σ !! c.1.1))
then ScanState (<[c.1.1 := c.2]> (mod_times σ)) (changed_items σ ++ [c.1]) true
else σ.

(** The candidates of a scan of [tree], in the order of the walk. *)
Definition candidates (tree : entry) : list (string * string * Z) :=
omap candidate (visits excluded_paths source_dir tree).1.

Definition differs (table : gmap string Z) (c : string * string * Z) : bool :=
bool_decide (c.2 ≠ default 0 (table !! c.1.1)).

Definition under (ms : list string) (p : string) : Prop :=
∃ ns, ns ≠ [] ∧ Forall (λ n, plain n = true) ns ∧ p = below (ms ++ ns).

End DetectionNotions.

Definition is_report (e : event) : bool :=
match e with BackedUp _ | FailedBackup _ => true | _ => false end.

(** The line printed for one changed item. *)
Definition report (changed : string * string) (copied : bool) : event :=
if copied then BackedUp changed.2 else FailedBackup changed.2.

Definition say {W} (e : event) (w : world W) : world W :=
World (stdout w ++ [e]) (fs w).

Section CommitNotions.
Context {W : Type} `{!Host W}.
Variables (project_name config_file_path : string).

(** The version that a commit from the version [v] attempts. *)
Definition next_version (v : string) : string :=
match increment_build_number (default [1; 0; 0; 0] (numeric_interpretation (VStr v))) with
| Ok (_, new_version) => new_version
| Raise _ => v
end.

(** What [copy_item] returns, and the world it leaves. *)
Definition copy_outcome (item_path backup_dir : string) (w : world W) : bool * world W :=
match copy_item item_path backup_dir w with
| (Ok copied, w') => (copied, w')
| (Raise _, w') => (false, w')
end.

(** The copies of the changed items, each one run after the one before
    and followed by its report. *)
Fixpoint backup_results (versioned_backup_dir : string)
    (changed_items : list (string * string)) (w : world W) : list bool * world W :=
match changed_items with
| [] => ([], w)
| changed :: rest =>
    let backup_parent_dir :=
      PosixPath.dirname (PosixPath.join versioned_backup_dir changed.2) in
    let '(copied, w) := copy_outcome changed.1 backup_parent_dir w in
    let '(results, w) := backup_results versioned_backup_dir rest (say (report changed copied) w) in
    (copied :: results, w)
end.

Definition quiet (events : list event) : Prop :=
Forall (λ e, match e with ErrCreateDir _ | ErrCopy _ _ => True | _ => False end) events.

End CommitNotions.

Section CommitFactsNotions.
Context {W : Type} `{!Host W}.
Variables (project_name config_file_path : string).
Abbreviation commit := (commit project_name config_file_path).
Abbreviation turn := (turn project_name config_file_path).

(** The lines printed before the copies of a commit. *)
Definition commit_header (backup_dir : string) (excluded_paths : list string)
    (new_version : string) : list event :=
[ChangesDetected new_version;
 BackupLocation (create_versioned_backup_path backup_dir project_name new_version)]
++ match excluded_paths with [] => [] | _ => [NoteExclusions (length excluded_paths)] end.

(** The end of a commit, from the results of the copies: the state, the
    lines printed and the file system. *)
Definition commit_close (new_version : string) (results : list bool)
    (σ : monitor_state) (f : W) : monitor_state * list event * W :=
if forallb id results then
  let '(updated, f') := rewrite_version config_file_path new_version f in
  if updated : bool then
    (MonitorState (item_mod_times σ) (last_backup_times σ) new_version,
     [UpdatedVersion new_version; BlankLine], f')
  else (σ, [ErrUpdateConfig; ConfigNotUpdated; BlankLine], f')
else (σ, [VersionNotUpdated; BlankLine], f).

End CommitFactsNotions.

(** The monitor state once the scan of [source_dir] has left [table], and
    once its turn has ended at [current_time]. *)
Definition scanned (source_dir : string) (table : gmap string Z) (σ : monitor_state) :
    monitor_state :=
MonitorState (<[source_dir := table]> (item_mod_times σ)) (last_backup_times σ)
             (current_version σ).

Definition timed (source_dir : string) (current_time : Z) (σ : monitor_state) :
    monitor_state :=
MonitorState (item_mod_times σ) (<[source_dir := current_time]> (last_backup_times σ))
             (current_version σ).

Section TurnFactsNotions.
Context {W : Type} `{!Host W}.
Variables (project_name config_file_path : string).
Variables (source_dir backup_dir : string) (excluded_paths : list string).
Abbreviation commit := (commit project_name config_file_path backup_dir excluded_paths).
Abbreviation turn := (turn project_name config_file_path source_dir backup_dir excluded_paths).
Abbreviation walk := (walk source_dir excluded_paths source_dir).

Definition flag_ok (sc : scan_state) : Prop :=
backup_needed sc = negb (bool_decide (changed_items sc = [])).

End TurnFactsNotions.

(** The raw entries of one exclusion value: a list of strings, or a single
    string that stands for a list of one. *)
Definition raw_entries (excluded_paths : value) : option (list string) :=
match excluded_paths with
| VStr s => Some [s]
| VList l => mapM (λ x, match x with VStr s => Some s | _ => None end) l
| _ => None
end.

Section ExclusionsNotions.
Context {W : Type} `{!Host W}.

(** One raw entry as the specification words it: trimmed; dropped when
    empty; normalized directly when absolute, after resolution against the
    source directory when relative. *)
Definition excluded_entry (source_dir raw : string) : option string :=
let trimmed := Py.strip raw in
if Py.is_empty trimmed then None
else if PosixPath.isabs trimmed then Some (normalize_path trimmed)
else Some (normalize_path (PosixPath.join source_dir trimmed)).

Definition excluded_entries (source_dir : string) (raws : list string) : list string :=
omap (excluded_entry source_dir) raws.

(** Whether the key [index_str] gets the warning of line 131. *)
Definition index_warned (source_dirs : list string) (index_str : string) : bool :=
match Py.int index_str with
| Raise _ => true
| Ok i => bool_decide (i < Z.of_nat (length source_dirs))
          && match index source_dirs i with Raise _ => true | Ok _ => false end
end.

(** The entry that one item of the dictionary stores, if it stores one. *)
Definition index_entry (source_dirs : list string) (item : string * value) :
    option (Z * list string) :=
match Py.int item.1 with
| Ok i =>
    if decide (i < Z.of_nat (length source_dirs)) then
      match index source_dirs i, raw_entries item.2 with
      | Ok src, Some raws => Some (i, excluded_entries (normalize_path src) raws)
      | _, _ => None
      end
    else None
| Raise _ => None
end.

Definition store_entry (source_dirs : list string) (m : gmap Z (list string))
    (item : string * value) : gmap Z (list string) :=
match index_entry source_dirs item with
| Some (i, l) => <[i := l]> m
| None => m
end.

End ExclusionsNotions.

(** [path] lies below [root] at a path boundary: the components of [root]
    are the first components of [path], which has more. *)
Definition nested_under (cwd path root : string) : bool :=
let r := PosixPath.components cwd root in
let p := PosixPath.components cwd path in
bool_decide (length r < length p)%nat && bool_decide (take (length r) p = r).

(** Exclusion as the specification words it: the normalized path equals an
    excluded path or lies below one. *)
Definition excluded_in_words {W} `{!Host W} (path : string)
    (excluded_paths : list string) : bool :=
existsb (λ e, bool_decide (normalize_path path = e)
              || nested_under getcwd (normalize_path path) e) excluded_paths.

(** Examples: a project in [/src] backed up to [/backup]. *)
Definition file (name : string) (mtime : Z) : entry := File name (Stat true (Some mtime)).

Definition two_files : entry :=
Dir "" (Stat true (Some 1)) true [file "a.txt" 5; file "b.txt" 6].

Definition broken_subdir : entry :=
Dir "" (Stat true (Some 1)) true [file "a.txt" 5; Dir "sub" (Stat true (Some 7)) false []].

Definition epoch_file : entry :=
Dir "" (Stat true (Some 1)) true [file "epoch.txt" 0].

Definition with_build (mtime : Z) : entry :=
Dir "" (Stat true (Some 1)) true
  [Dir "build" (Stat true (Some 2)) true [file "out.o" mtime]; file "main.c" 4].

Definition start : monitor_state :=
MonitorState {["/src" := ∅]} {["/src" := 0]} "1.0.0.0".

Definition toy_turn := turn (W:=toy_fs) "proj" "config.json" "/src" "/backup" [].

Section ValidatePropertiesNotions.
Context {W : Type} `{!Host W}.




End ValidatePropertiesNotions.

(** The delay configured for the pair of number [i]. *)
Definition delay_of (backup_times : gmap string value) (i : nat) : result Z :=
int_of_value (default (VInt 5) (backup_times !! Py.str (Z.of_nat i))).

(** The text of an integer: a numeral, after a minus sign below zero. *)
Definition signed (g : string) : bool :=
match g with
| String "-" r => numeral r
| _ => numeral g
end.

Fixpoint no_dot (s : string) : bool :=
match s with
| EmptyString => true
| String c r => negb (bool_decide (c = "."%char)) && no_dot r
end.

(** A name of a normalized path: plain, and neither [.] nor [..]. *)
Definition proper (name : string) : bool :=
plain name && negb (bool_decide (name = ".")) && negb (bool_decide (name = "..")).

(** The absolute path with the components [comps]. *)
Definition rooted (comps : list string) : string := "/" +:+ Py.join "/" comps.

(** What is left of [path] after the components [root], when [path]
    begins with them. *)
Fixpoint rest_after (root path : list string) : option (list string) :=
match root, path with
| [], _ => Some path
| r :: root', p :: path' => if decide (r = p) then rest_after root' path' else None
| _ :: _, [] => None
end.

(** The answer of [is_path_excluded] on normalized paths, read on their
    components: the path is the excluded one, or it lies below it and the
    first name below it does not begin with two dots. *)
Definition excluded_by_rule (excluded path : list string) : bool :=
match rest_after excluded path with
| Some [] => true
| Some (name :: _) => negb (Py.startswith name "..")
| None => false
end.

(** A host on which every path is an existing directory that lists the
    two files, and every operation succeeds. *)
Inductive dir_fs := DirFS.

Global Instance dir_host : Host dir_fs := {|
  resolve p := p;
  getcwd := "/";
  mkdir_parents _ f := (true, f);
  isdir _ _ := true;
  exists_path _ _ := true;
  rmtree _ f := (true, f);
  copytree _ _ f := (true, f);
  copy2 _ _ f := (true, f);
  rewrite_version _ _ f := (true, f);
  walk_view _ _ := two_files;
|}.

(** The state and the world that a computation leaves when it returns. *)
Definition state_after {W} (r : result monitor_state * world W) : monitor_state :=
match r.1 with Ok σ => σ | Raise _ => MonitorState ∅ ∅ "" end.

(** The version text is the format of four integers. *)
Definition formatted (version : string) : Prop :=
∃ a b c d, version = format_version [a; b; c; d].

Definition is_version_warning (e : event) : bool :=
match e with WarnVersion _ => true | _ => false end.

(** Lines that stand for no warning of the version. *)
Definition version_quiet (events : list event) : Prop :=
Forall (λ e, is_version_warning e = false) events.

Section VersionInvariantNotions.
Context {W : Type} `{!Host W}.
Variables (project_name config_file_path : string).
Variables (backup_times : gmap string value) (excluded_by_index : gmap Z (list string)).

(** A computation from the state keeps the invariant: what it prints holds
    no warning of the version, and the version it leaves is formatted. *)
Definition keeps_version (w : world W) (r : result monitor_state * world W) : Prop :=
∃ events,
  stdout r.2 = stdout w ++ events ∧ version_quiet events ∧
  ∀ σ', r.1 = Ok σ' → formatted (current_version σ').

End VersionInvariantNotions.

(** What the loop reads for the key of the number [i]. *)
Definition read_dir (dict : gmap string value) (i : Z) : value :=
default (VStr "") (dict !! Py.str i).

(** The number [i] has a source and a backup directory. *)
Definition complete (source_dirs_dict backup_dirs_dict : gmap string value) (i : Z) : bool :=
truthy (read_dir source_dirs_dict i) && truthy (read_dir backup_dirs_dict i).

(** Every name listed below [e] is a proper name: [os.walk] lists neither
    [.] nor [..]. *)
Fixpoint proper_names (e : entry) : bool :=
match e with
| File _ _ => true
| Dir _ _ _ entries => forallb (λ d, proper (entry_name d) && proper_names d) entries
end.


Definition is_str (v : value) : bool :=
match v with VStr _ => true | _ => false end.

(** The exception that the value of an exclusion raises when it is
    neither a string nor a collection of strings: [TypeError] from the
    loop over a value that is no collection, [AttributeError] from
    [strip] on an entry that is no string. *)
Definition exclusion_error (excluded_paths : value) : option exn :=
match excluded_paths with
| VStr _ | VDict _ => None
| VList l => if forallb is_str l then None else Some AttributeError
| _ => Some TypeError
end.

(** * Proofs *)

Lemma isdigit_cases c :
  Py.isdigit c = true →
  (c = "0" ∨ c = "1" ∨ c = "2" ∨ c = "3" ∨ c = "4" ∨
   c = "5" ∨ c = "6" ∨ c = "7" ∨ c = "8" ∨ c = "9")%char.
Proof.
  destruct c as [[] [] [] [] [] [] [] []]; vm_compute; intros; try discriminate;
    tauto.
Qed.

Ltac digit_cases H :=
  apply isdigit_cases in H;
  destruct H as [->|[->|[->|[->|[->|[->|[->|[->|[->| ->]]]]]]]]].

Lemma app_cons c x y : String c x +:+ y = String c (x +:+ y).
Proof. reflexivity. Qed.

Lemma app_empty y : "" +:+ y = y.
Proof. reflexivity. Qed.

Lemma digit_not_space c : Py.isdigit c = true → Py.isspace c = false.
Proof. intros Hc. by digit_cases Hc. Qed.

Lemma digit_not_blank c : Py.isdigit c = true → Py.int_blank c = false.
Proof. intros Hc. by digit_cases Hc. Qed.

Lemma uint_of_numeral g :
  all_digits g = true → is_Some (NilEmpty.uint_of_string g).
Proof.
  induction g as [|c g IH]; simpl; [by eauto|].
  intros [Hc Hg]%andb_prop. destruct (IH Hg) as [u ->].
  by digit_cases Hc; eexists.
Qed.

Lemma span_digits_app g rest :
  all_digits g = true →
  match rest with String c _ => Py.isdigit c = false | EmptyString => True end →
  Py.span_digits (g +:+ rest) = (g, rest).
Proof.
  intros Hg Hrest. induction g as [|c g IH].
  - rewrite app_empty. destruct rest; simpl; [done|]. by rewrite Hrest.
  - apply andb_prop in Hg as [Hc Hg]. rewrite app_cons. simpl.
    by rewrite Hc, (IH Hg).
Qed.

Lemma span_digits_all g : all_digits g = true → Py.span_digits g = (g, "").
Proof.
  intros Hg. induction g as [|c g IH]; simpl; [done|].
  apply andb_prop in Hg as [-> Hg]. by rewrite (IH Hg).
Qed.

Lemma rstrip_with_all blank g :
  (∀ c, Py.isdigit c = true → blank c = false) →
  all_digits g = true → Py.rstrip_with blank g = g.
Proof.
  intros Hb. induction g as [|c g IH]; simpl; [done|].
  intros [Hc Hg]%andb_prop. by rewrite (IH Hg), (Hb c Hc).
Qed.

Lemma rstrip_with_app blank x y :
  Py.rstrip_with blank y = y → y ≠ "" →
  Py.rstrip_with blank (x +:+ y) = x +:+ y.
Proof.
  intros Hy Hne. induction x as [|c x IH]; [done|].
  rewrite app_cons. simpl. rewrite IH.
  destruct (x +:+ y) eqn:E; [|by rewrite andb_false_r].
  destruct x; [|done]. by rewrite app_empty in E.
Qed.

Lemma lstrip_with_digit blank g :
  (∀ c, Py.isdigit c = true → blank c = false) →
  numeral g = true → ∀ r, Py.lstrip_with blank (g +:+ r) = g +:+ r.
Proof.
  intros Hb Hg r. destruct g as [|c g]; [done|].
  apply andb_prop in Hg as [_ [Hc _]%andb_prop].
  rewrite app_cons. simpl. by rewrite (Hb c Hc).
Qed.

Lemma literal_digits_all g b :
  all_digits g = true → (b = true ∨ g ≠ "") → Py.literal_digits b g = Some g.
Proof.
  revert b. induction g as [|c g IH]; intros b Hg Hb; simpl.
  - by destruct Hb as [->|?].
  - apply andb_prop in Hg as [-> Hg]. rewrite IH; auto.
Qed.

Lemma int_numeral g : numeral g = true → Py.int g = Ok (numeral_value g).
Proof.
  intros Hg. pose proof Hg as [Hne Hd]%andb_prop. unfold Py.int, numeral_value.
  destruct g as [|c g]; [done|]. pose proof Hd as [Hc Hd']%andb_prop.
  assert (Py.lstrip_with Py.int_blank (String c g) = String c g) as ->.
  { simpl. by rewrite (digit_not_blank c Hc). }
  rewrite (rstrip_with_all _ _ digit_not_blank Hd).
  destruct (uint_of_numeral _ Hd) as [u Hu].
  assert (Py.literal_digits false (String c g) ≫= NilEmpty.uint_of_string = Some u) as Hl.
  { rewrite literal_digits_all; auto. }
  digit_cases Hc; cbv zeta iota beta; by rewrite Hl, Hu.
Qed.

Lemma app_assoc_str (x y z : string) : (x +:+ y) +:+ z = x +:+ (y +:+ z).
Proof. induction x as [|c x IH]; [done|]. by rewrite !app_cons, IH. Qed.

Lemma strip_dotted g1 g2 g3 g4 :
  numeral g1 = true → numeral g4 = true →
  Py.strip (dotted g1 g2 g3 g4) = dotted g1 g2 g3 g4.
Proof.
  intros H1 H4. unfold Py.strip, dotted.
  rewrite (lstrip_with_digit _ _ digit_not_space H1).
  rewrite <-!app_assoc_str. apply rstrip_with_app.
  - apply andb_prop in H4 as [_ H4]. by apply rstrip_with_all; [apply digit_not_space|].
  - by destruct g4.
Qed.

Lemma re_match_version_dotted g1 g2 g3 g4 :
  numeral g1 = true → numeral g2 = true → numeral g3 = true → numeral g4 = true →
  re_match_version (dotted g1 g2 g3 g4) = Some [g1; g2; g3; g4].
Proof.
  intros [N1 D1]%andb_prop [N2 D2]%andb_prop [N3 D3]%andb_prop [N4 D4]%andb_prop.
  unfold re_match_version, dotted.
  change (String.append ".") with (String ".").
  rewrite (span_digits_app g1) by done. cbv beta iota zeta.
  rewrite (span_digits_app g2) by done. cbv beta iota zeta.
  rewrite (span_digits_app g3) by done. cbv beta iota zeta.
  rewrite (span_digits_all g4) by done. cbv beta iota zeta.
  simpl. by rewrite N1, N2, N3, N4.
Qed.

Section VersionMatch.
Context {W : Type} `{!Host W}.

Lemma parse_version_dotted g1 g2 g3 g4 (w : world W) :
  numeral g1 = true → numeral g2 = true → numeral g3 = true → numeral g4 = true →
  parse_version (VStr (dotted g1 g2 g3 g4)) w =
    (Ok [numeral_value g1; numeral_value g2; numeral_value g3; numeral_value g4], w).
Proof.
  intros H1 H2 H3 H4. unfold parse_version, try_except, mbind, ST_bind, lift. simpl.
  rewrite strip_dotted, re_match_version_dotted by done. simpl.
  unfold mbind, ST_bind, lift, mret, ST_ret.
  by rewrite !int_numeral by done.
Qed.

End VersionMatch.

Lemma str_numeral_value g : canonical g = true → Py.str (numeral_value g) = g.
Proof.
  intros [Hg Hc]%andb_prop. pose proof Hg as [Hne Hd]%andb_prop.
  unfold Py.str, numeral_value. destruct (uint_of_numeral _ Hd) as [u Hu].
  rewrite Hu. change (Z.of_uint u) with (Z.of_int (Decimal.Pos u)).
  rewrite DecimalZ.to_of. simpl.
  apply NilEmpty.sus in Hu. subst g.
  destruct u; try done; simpl in *.
  assert (Py.startswith (NilEmpty.string_of_uint u) "" = true) as Hp
    by (by destruct (NilEmpty.string_of_uint u)).
  rewrite Hp, orb_false_r in Hc.
  apply bool_decide_eq_true in Hc. by destruct u.
Qed.

Lemma all_digits_string_of_uint u : all_digits (NilEmpty.string_of_uint u) = true.
Proof. induction u; simpl; auto. Qed.

Lemma unorm_canonical u :
  canonical (NilEmpty.string_of_uint (Decimal.unorm u)) = true.
Proof.
  unfold canonical, numeral. rewrite all_digits_string_of_uint, andb_true_r.
  pose proof (DecimalFacts.unorm_nonnil u) as Hn.
  pose proof (DecimalFacts.nzhead_nonzero u) as Hz.
  unfold Decimal.unorm in *.
  destruct (Decimal.nzhead u) eqn:E; try done.
  by destruct (Hz u0).
Qed.

Lemma str_canonical z :
  0 ≤ z → canonical (Py.str z) = true ∧ numeral_value (Py.str z) = z.
Proof.
  intros Hz. unfold Py.str.
  assert (∃ u, Z.to_int z = Decimal.Pos (Decimal.unorm u)) as [u Hu].
  { pose proof (DecimalZ.to_of (Z.to_int z)) as Hn. rewrite DecimalZ.of_to in Hn.
    destruct (Z.to_int z) as [d|d] eqn:E; [by exists d|].
    destruct z; simpl in E; try done; lia. }
  rewrite Hu. simpl.
  assert (NilZero.string_of_uint (Decimal.unorm u)
          = NilEmpty.string_of_uint (Decimal.unorm u)) as ->.
  { pose proof (DecimalFacts.unorm_nonnil u). by destruct (Decimal.unorm u). }
  split; [apply unorm_canonical|].
  unfold numeral_value. rewrite NilEmpty.usu.
  change (Z.of_uint (Decimal.unorm u)) with (Z.of_int (Decimal.Pos (Decimal.unorm u))).
  by rewrite <-Hu, DecimalZ.of_to.
Qed.

Lemma int_raises x e : Py.int x = Raise e → e = ValueError.
Proof.
  unfold Py.int. destruct (Py.rstrip_with _ _) as [|c r]; simpl.
  - congruence.
  - repeat case_match; congruence.
Qed.

Lemma for_each_int {S} (l : list string) (s : S) :
  for_each (λ x, lift (Py.int x)) l s =
    match mapM int_opt l with
    | Some zs => (Ok zs, s)
    | None => (Raise ValueError, s)
    end.
Proof.
  induction l as [|x l IH]; [done|]. simpl.
  unfold mbind at 1, ST_bind, lift at 1. unfold int_opt in *.
  destruct (Py.int x) as [z|e] eqn:E; simpl.
  - unfold mbind at 1, ST_bind. rewrite IH. by destruct (mapM _ l).
  - by rewrite (int_raises _ _ E).
Qed.

Lemma re_match_version_length s groups :
  re_match_version s = Some groups → length groups = 4%nat.
Proof.
  unfold re_match_version. repeat case_match; try done. by intros [= <-].
Qed.

Lemma pad4_length parts : length (pad4 parts) = 4%nat.
Proof.
  unfold pad4. rewrite length_take, length_app, length_replicate. lia.
Qed.

Section VersionParsing.
Context {W : Type} `{!Host W}.

Lemma parse_version_eval (version_str : value) (w : world W) :
  ∃ l w', parse_version version_str w = (Ok l, w') ∧ length l = 4%nat ∧
    match numeric_interpretation version_str with
    | Some numbers => l = numbers ∧ w' = w
    | None => l = [1; 0; 0; 0] ∧
              w' = World (stdout w ++ [WarnVersion version_str]) (fs w)
    end.
Proof.
  unfold parse_version, numeric_interpretation, try_except.
  destruct version_str as [| | | |s| |]; simpl; try by eauto 10.
  unfold mbind at 1, ST_bind, lift at 1.
  assert (∀ parts, length parts = 4%nat →
    ∃ l w', (match for_each (λ x, lift (Py.int x)) parts w with
             | (Ok a, s') => (Ok a, s')
             | (Raise e, s') =>
                 if bool_decide (e ∈ [ValueError; AttributeError])
                 then (print (WarnVersion (VStr s));; mret [1; 0; 0; 0]) s'
                 else (Raise e, s')
             end) = (Ok l, w') ∧ length l = 4%nat ∧
            match mapM int_opt parts with
            | Some numbers => l = numbers ∧ w' = w
            | None => l = [1; 0; 0; 0] ∧
                      w' = World (stdout w ++ [WarnVersion (VStr s)]) (fs w)
            end) as Hparts.
  { intros parts Hlen. rewrite for_each_int.
    destruct (mapM int_opt parts) as [zs|] eqn:E.
    - exists zs, w. split_and!; try done.
      apply length_mapM in E. congruence.
    - by eexists _, _. }
  destruct (re_match_version (Py.strip s)) as [groups|] eqn:E.
  - apply Hparts. by eapply re_match_version_length.
  - unfold mbind at 1, ST_bind, lift at 1. simpl. apply Hparts, pad4_length.
Qed.

(** C10.  [parse_version] is total: for every value, a string or not, it
    returns without an exception a list of exactly four integers, and it
    changes nothing but the standard output.  The list is the numeric
    interpretation of the value when there is one, and nothing is printed;
    otherwise the list is [[1; 0; 0; 0]] and the warning is printed. *)
Theorem parse_version_total (version_str : value) (w : world W) :
  ∃ l w',
    parse_version version_str w = (Ok l, w') ∧
    length l = 4%nat ∧
    fs w' = fs w ∧
    match numeric_interpretation version_str with
    | Some numbers => l = numbers ∧ stdout w' = stdout w
    | None => l = [1; 0; 0; 0] ∧ stdout w' = stdout w ++ [WarnVersion version_str]
    end.
Proof.
  destruct (parse_version_eval version_str w) as (l & w' & Hp & Hlen & Hl).
  exists l, w'. split_and!; [done..| |].
  - by destruct (numeric_interpretation version_str); destruct Hl as [_ ->].
  - by destruct (numeric_interpretation version_str); destruct Hl as [-> ->].
Qed.

End VersionParsing.

Lemma format_version_dotted a b c d :
  Py.join "." (Py.str <$> [a; b; c; d]) = dotted (Py.str a) (Py.str b) (Py.str c) (Py.str d).
Proof. reflexivity. Qed.

Section VersionRoundTrip.
Context {W : Type} `{!Host W}.

Lemma parse_format_version a b c d (w : world W) :
  0 ≤ a → 0 ≤ b → 0 ≤ c → 0 ≤ d →
  parse_version (VStr (format_version [a; b; c; d])) w = (Ok [a; b; c; d], w).
Proof.
  intros Ha Hb Hc Hd. unfold format_version. rewrite format_version_dotted.
  destruct (str_canonical a Ha) as [[Na _]%andb_prop Va].
  destruct (str_canonical b Hb) as [[Nb _]%andb_prop Vb].
  destruct (str_canonical c Hc) as [[Nc _]%andb_prop Vc].
  destruct (str_canonical d Hd) as [[Nd _]%andb_prop Vd].
  rewrite parse_version_dotted by done. by rewrite Va, Vb, Vc, Vd.
Qed.

(** C7, restricted to canonical numerals.  For a version string of four
    dot-separated numerals, none of them with a superfluous leading zero,
    [parse_version] followed by [format_version] gives the string back. *)
Theorem parse_then_format_canonical g1 g2 g3 g4 (w : world W) :
  canonical g1 = true → canonical g2 = true →
  canonical g3 = true → canonical g4 = true →
  ∃ l, parse_version (VStr (dotted g1 g2 g3 g4)) w = (Ok l, w) ∧
       format_version l = dotted g1 g2 g3 g4.
Proof.
  intros C1 C2 C3 C4. eexists. split.
  - apply parse_version_dotted; by eapply proj1, andb_prop.
  - unfold format_version. rewrite format_version_dotted.
    by rewrite !str_numeral_value.
Qed.

(** C8.  For a version of four non-negative components,
    [increment_build_number] raises nothing, whatever the build number; it
    leaves the list with the build one greater and the major, minor and
    patch components as they were, and the string it returns parses back
    to exactly that list (so 1.2.3.9 gives 1.2.3.10). *)
Theorem increment_build_number_spec major minor patch build (w : world W) :
  0 ≤ major → 0 ≤ minor → 0 ≤ patch → 0 ≤ build →
  ∃ new_version,
    increment_build_number [major; minor; patch; build]
      = Ok ([major; minor; patch; build + 1], new_version) ∧
    parse_version (VStr new_version) w = (Ok [major; minor; patch; build + 1], w).
Proof.
  intros. eexists. split; [reflexivity|].
  apply parse_format_version; lia.
Qed.

End VersionRoundTrip.

(** The round trip at the version 1.2.3.10. *)
Lemma parse_then_format_canonical_witness :
  ∃ l, parse_version (VStr (dotted "1" "2" "3" "10")) (toy_world empty_dir [])
         = (Ok l, toy_world empty_dir []) ∧
       format_version l = dotted "1" "2" "3" "10".
Proof.
  apply (parse_then_format_canonical "1" "2" "3" "10" (toy_world empty_dir []));
    reflexivity.
Defined.

(** C7 as it is worded: 01.2.3.4 has four numeric components, and parsing
    then formatting gives 1.2.3.4. *)
Lemma parse_then_format_leading_zero :
  numeral "01" = true ∧ numeral "2" = true ∧ numeral "3" = true ∧ numeral "4" = true ∧
  ∃ l, parse_version (VStr (dotted "01" "2" "3" "4")) (toy_world empty_dir [])
         = (Ok l, toy_world empty_dir []) ∧
       format_version l ≠ dotted "01" "2" "3" "4".
Proof. repeat split. by exists [1; 2; 3; 4]. Qed.

(** The increment at the version 1.2.3.9. *)
Lemma increment_build_number_witness :
  ∃ new_version,
    increment_build_number [1; 2; 3; 9] = Ok ([1; 2; 3; 10], new_version) ∧
    parse_version (VStr new_version) (toy_world empty_dir [])
      = (Ok [1; 2; 3; 10], toy_world empty_dir []).
Proof.
  apply (increment_build_number_spec 1 2 3 9 (toy_world empty_dir [])); lia.
Defined.

Example increment_build_number_1_2_3_9 :
  increment_build_number [1; 2; 3; 9] = Ok ([1; 2; 3; 10], "1.2.3.10").
Proof. reflexivity. Qed.

(** An induction principle that reaches the entries of a directory. *)
Lemma entry_ind_nested (P : entry → Prop) :
  (∀ name st, P (File name st)) →
  (∀ name st walk_ok entries, Forall P entries → P (Dir name st walk_ok entries)) →
  ∀ e, P e.
Proof.
  intros HF HD. fix IH 1. intros [name st|name st walk_ok entries].
  - apply HF.
  - apply HD. induction entries as [|e entries IHe]; constructor; [apply IH|apply IHe].
Qed.

Section ScanFacts.
Context {W : Type} `{!Host W}.
Variables (source_dir : string) (excluded_paths : list string).
Abbreviation check_item := (check_item source_dir excluded_paths).
Abbreviation walk := (walk source_dir excluded_paths).
Abbreviation excluded_child := (excluded_child excluded_paths).
Abbreviation prune := (prune excluded_paths).
Abbreviation kept_dirs := (kept_dirs excluded_paths).
Abbreviation items_here := (items_here excluded_paths).
Abbreviation visits := (visits excluded_paths).
Abbreviation run_checks := (run_checks source_dir excluded_paths).
Abbreviation checked := (checked source_dir excluded_paths).

Lemma remove_name_other name d dirs :
  entry_name d ≠ name → remove_name name (d :: dirs) = d :: remove_name name dirs.
Proof. intros. simpl. by rewrite decide_False. Qed.

Lemma prune_filter root dirs :
  prune root dirs = filter (λ d, negb (excluded_child root d)) dirs.
Proof.
  unfold prune.
  induction dirs as [|d dirs IH]; [done|].
  rewrite !filter_cons. destruct (excluded_child root d) eqn:Ed; simpl.
  - rewrite decide_True by done. apply IH.
  - rewrite <-IH. clear IH.
    assert (Forall (λ n, entry_name d ≠ n)
      (entry_name <$> filter (λ d0, excluded_child root d0) dirs)) as Hn.
    { apply Forall_fmap, Forall_forall. intros x [Hx _]%list_elem_of_filter Heq.
      unfold excluded_child in *. simpl in *.
      rewrite <-Heq in Hx. rewrite Ed in Hx. done. }
    revert Hn. generalize (entry_name <$> filter (λ d0, excluded_child root d0) dirs).
    intros names. revert dirs. induction names as [|n names IHn]; intros dirs Hn; [done|].
    apply Forall_cons in Hn as [Hd Hn]. simpl. rewrite decide_False by done.
    by apply IHn.
Qed.

Lemma bind_eval {S A B} (m : ST S A) (k : A → ST S B) σ :
  (m ≫= k) σ = match m σ with
               | (Ok a, σ') => k a σ'
               | (Raise e, σ') => (Raise e, σ')
               end.
Proof. reflexivity. Qed.

Lemma bind_ext {S A B} (m1 m2 : ST S A) (k1 k2 : A → ST S B) σ :
  m1 σ = m2 σ → (∀ a σ', k1 a σ' = k2 a σ') → (m1 ≫= k1) σ = (m2 ≫= k2) σ.
Proof.
  intros Hm Hk. rewrite !bind_eval, Hm. destruct (m2 σ) as [[a|e] σ']; auto.
Qed.

Lemma bind_assoc {S A B C} (m : ST S A) (k : A → ST S B) (h : B → ST S C) σ :
  ((m ≫= k) ≫= h) σ = (m ≫= λ a, k a ≫= h) σ.
Proof. rewrite !bind_eval. by destruct (m σ) as [[a|e] σ']. Qed.

Lemma bind_unit {S} (m : ST S unit) σ : (m;; mret tt) σ = m σ.
Proof. rewrite bind_eval. by destruct (m σ) as [[[]|e] σ']. Qed.

Lemma for_each_then {S A B C} (f : A → ST S B) x l (k : ST S C) σ :
  (for_each f (x :: l);; k) σ = (f x;; for_each f l;; k) σ.
Proof.
  simpl. rewrite !bind_eval. destruct (f x σ) as [[y|e] σ']; [|done].
  rewrite !bind_eval. by destruct (for_each f l σ') as [[ys|e] σ''].
Qed.

Lemma run_checks_app vs1 vs2 σ :
  run_checks (vs1 ++ vs2) σ = (run_checks vs1;; run_checks vs2) σ.
Proof.
  revert σ. induction vs1 as [|[root e] vs1 IH]; intros σ; [done|].
  simpl. rewrite bind_assoc. apply bind_ext; auto.
Qed.

Lemma for_each_run_checks root l σ :
  (for_each (check_item root) l;; mret tt) σ = run_checks ((λ x, (root, x)) <$> l) σ.
Proof.
  revert σ. induction l as [|e l IH]; intros σ; [done|].
  rewrite for_each_then. simpl. apply bind_ext; auto.
Qed.

Lemma checked_then sub rest σ :
  (checked sub.1 sub.2;; checked rest.1 rest.2) σ
  = checked (then_visits sub rest).1 (then_visits sub rest).2 σ.
Proof.
  destruct sub as [v failed]. unfold then_visits, checked. simpl.
  destruct failed; simpl.
  - rewrite bind_assoc. apply bind_ext; [done|]. by intros [] σ'.
  - rewrite bind_assoc.
    transitivity ((run_checks v;; run_checks rest.1;;
                   if rest.2 then raise OSError else mret ()) σ).
    { apply bind_ext; [done|]. by intros [] σ'. }
    rewrite <-bind_assoc. apply bind_ext; [|done].
    by rewrite run_checks_app.
Qed.

Lemma walk_visits e : ∀ root σ,
  walk root e σ = checked (visits root e).1 (visits root e).2 σ.
Proof.
  induction e as [name st|name st walk_ok entries IH] using entry_ind_nested;
    intros root σ; [done|].
  simpl. destruct walk_ok; simpl; [|done].
  destruct (is_path_excluded root excluded_paths); [done|].
  rewrite prune_filter. fold (kept_dirs root entries). fold (items_here root entries).
  rewrite <-checked_then.
  transitivity ((
    (for_each (check_item root) (items_here root entries);; mret tt);;
    (for_each (λ d, if is_dir_entry d && negb (excluded_child root d)
                    then walk (PosixPath.join root (entry_name d)) d
                    else mret tt) entries;; mret tt)) σ).
  { rewrite bind_assoc. apply bind_ext; [done|]. by intros ? σ'. }
  apply bind_ext.
  { rewrite for_each_run_checks. simpl. unfold checked. simpl. by rewrite bind_unit. }
  intros _. clear σ.
  induction IH as [|d l Hd _ IHl]; intros σ; [done|].
  rewrite for_each_then. simpl.
  destruct (is_dir_entry d && negb (excluded_child root d)) eqn:Ec.
  - rewrite <-checked_then. apply bind_ext; auto.
  - rewrite bind_eval. simpl. apply IHl.
Qed.

End ScanFacts.

Lemma length_app_str (x y : string) :
  String.length (x +:+ y) = (String.length x + String.length y)%nat.
Proof. induction x as [|c x IH]; [done|]. rewrite app_cons. simpl. by rewrite IH. Qed.

Lemma app_inv_tail_str (x y z : string) : x +:+ z = y +:+ z → x = y.
Proof.
  revert y. induction x as [|c x IH]; intros [|d y] Heq; try done.
  - rewrite app_empty, app_cons in Heq. apply (f_equal String.length) in Heq.
    simpl in Heq. rewrite length_app_str in Heq. lia.
  - rewrite app_empty, app_cons in Heq. apply (f_equal String.length) in Heq.
    simpl in Heq. rewrite length_app_str in Heq. lia.
  - rewrite !app_cons in Heq. injection Heq as -> Heq. f_equal. by apply IH.
Qed.

Lemma plain_not_abs n : plain n = true → Py.startswith n "/" = false.
Proof.
  destruct n as [|c n]; [done|]. unfold plain. simpl.
  intros [Hc _]%andb_prop. unfold PosixPath.is_sep, PosixPath.sep in Hc.
  apply negb_true_iff, bool_decide_eq_false in Hc.
  simpl. by rewrite bool_decide_false by congruence.
Qed.

Lemma join_with_sep a n : plain n = true → PosixPath.join a n = with_sep a +:+ n.
Proof.
  intros Hn. unfold PosixPath.join, with_sep. rewrite (plain_not_abs n Hn).
  destruct (Py.is_empty a || Py.endswith_char a PosixPath.sep); [done|].
  by rewrite app_assoc_str.
Qed.

Lemma endswith_char_app x n c :
  n ≠ "" → Py.endswith_char (x +:+ n) c = Py.endswith_char n c.
Proof.
  intros Hn. induction x as [|d x IH]; [done|].
  rewrite app_cons. simpl. rewrite IH.
  destruct (x +:+ n) eqn:E; [|done]. destruct x, n; done.
Qed.

Lemma no_sep_endswith n : no_sep n = true → Py.endswith_char n PosixPath.sep = false.
Proof.
  induction n as [|c n IH]; [done|]. simpl. intros [Hc Hn]%andb_prop.
  destruct n; [|by apply IH].
  apply negb_true_iff in Hc. apply Hc.
Qed.

Lemma with_sep_shape a : with_sep a = "" ∨ Py.endswith_char (with_sep a) PosixPath.sep = true.
Proof.
  unfold with_sep. destruct a as [|c a]; [by left|]. right. simpl Py.is_empty.
  rewrite orb_false_l.
  destruct (Py.endswith_char (String c a) PosixPath.sep) eqn:E; [done|].
  by rewrite endswith_char_app.
Qed.

Lemma split_last_sep_no_sep n : no_sep n = true → PosixPath.split_last_sep n = ("", n).
Proof.
  induction n as [|c n IH]; [done|]. simpl. intros [Hc Hn]%andb_prop.
  rewrite (IH Hn). simpl. apply negb_true_iff, bool_decide_eq_false in Hc.
  by rewrite decide_False.
Qed.

Lemma split_last_sep_app h n :
  no_sep n = true → h = "" ∨ Py.endswith_char h PosixPath.sep = true →
  PosixPath.split_last_sep (h +:+ n) = (h, n).
Proof.
  intros Hn. induction h as [|c h IH]; intros Hh.
  - by apply split_last_sep_no_sep.
  - destruct Hh as [|Hh]; [done|]. rewrite app_cons. simpl.
    destruct h as [|d h].
    + rewrite app_empty, split_last_sep_no_sep by done. simpl.
      apply bool_decide_eq_true in Hh. by rewrite decide_True.
    + rewrite IH by (by right). done.
Qed.

Lemma join_inj a b n m :
  plain n = true → plain m = true →
  PosixPath.join a n = PosixPath.join b m → with_sep a = with_sep b ∧ n = m.
Proof.
  intros Hn Hm. rewrite !join_with_sep by done. intros Heq.
  apply andb_prop in Hn as [_ Hn]. apply andb_prop in Hm as [_ Hm].
  apply (f_equal PosixPath.split_last_sep) in Heq.
  rewrite !split_last_sep_app in Heq by auto using with_sep_shape.
  by injection Heq.
Qed.

Lemma with_sep_length a :
  (String.length a ≤ String.length (with_sep a) ≤ String.length a + 1)%nat.
Proof. unfold with_sep. destruct (_ || _); rewrite ?length_app_str; simpl; lia. Qed.

Lemma join_open a n :
  plain n = true →
  with_sep (PosixPath.join a n) = PosixPath.join a n +:+ "/" ∧
  (String.length a < String.length (PosixPath.join a n))%nat.
Proof.
  intros Hn. rewrite join_with_sep by done. pose proof Hn as [Hne Hs]%andb_prop.
  assert (n ≠ "") by (by destruct n). split.
  - unfold with_sep at 1.
    rewrite (endswith_char_app _ n), (no_sep_endswith n) by done.
    destruct (with_sep a +:+ n) eqn:E; [|done].
    apply (f_equal String.length) in E. rewrite length_app_str in E.
    destruct n; [done|]. simpl in E. lia.
  - rewrite length_app_str. pose proof (with_sep_length a).
    destruct n; [done|]. simpl. lia.
Qed.

Lemma join_all_snoc s ms m :
  PosixPath.join_all s (ms ++ [m]) = PosixPath.join (PosixPath.join_all s ms) m.
Proof. unfold PosixPath.join_all. by rewrite foldl_app. Qed.

Lemma join_all_length s ms :
  Forall (λ n, plain n = true) ms →
  (String.length s ≤ String.length (PosixPath.join_all s ms))%nat ∧
  (ms ≠ [] → (String.length s < String.length (PosixPath.join_all s ms))%nat ∧
     with_sep (PosixPath.join_all s ms) = PosixPath.join_all s ms +:+ "/").
Proof.
  induction ms as [|m ms IH] using rev_ind; intros Hms; [by split|].
  apply Forall_app in Hms as [Hms Hm]. rewrite Forall_singleton in Hm.
  rewrite join_all_snoc. destruct (join_open (PosixPath.join_all s ms) m Hm) as [Ho Hl].
  destruct (IH Hms) as [IH1 _]. split; [lia|]. intros _. split; [lia|done].
Qed.

Lemma join_all_inj s ms ns :
  Forall (λ n, plain n = true) ms → Forall (λ n, plain n = true) ns →
  PosixPath.join_all s ms = PosixPath.join_all s ns → ms = ns.
Proof.
  revert ns. induction ms as [|m ms IH] using rev_ind; intros ns Hms Hns Heq.
  - destruct ns as [|n ns]; [done|].
    destruct (join_all_length s (n :: ns) Hns) as [_ [Hl _]]; [done|].
    rewrite <-Heq in Hl. simpl in Hl. lia.
  - destruct ns as [|n ns _] using rev_ind.
    { destruct (join_all_length s (ms ++ [m]) Hms) as [_ [Hl _]]; [by destruct ms|].
      rewrite Heq in Hl. simpl in Hl. lia. }
    apply Forall_app in Hms as [Hms Hm]. rewrite Forall_singleton in Hm.
    apply Forall_app in Hns as [Hns Hn]. rewrite Forall_singleton in Hn.
    rewrite !join_all_snoc in Heq.
    apply join_inj in Heq as [Hw ->]; [|done..]. f_equal. apply IH; [done..|].
    destruct (join_all_length s ms Hms) as [Lm Om].
    destruct (join_all_length s ns Hns) as [Ln On].
    destruct (decide (ms = [])) as [->|Hms0], (decide (ns = [])) as [->|Hns0]; [done|..].
    + destruct (On Hns0) as [Hl Ho]. rewrite Ho in Hw.
      apply (f_equal String.length) in Hw. rewrite length_app_str in Hw.
      pose proof (with_sep_length s). simpl in *. lia.
    + destruct (Om Hms0) as [Hl Ho]. rewrite Ho in Hw.
      apply (f_equal String.length) in Hw. rewrite length_app_str in Hw.
      pose proof (with_sep_length s). simpl in *. lia.
    + destruct (Om Hms0) as [_ Ho1], (On Hns0) as [_ Ho2]. rewrite Ho1, Ho2 in Hw.
      by apply app_inv_tail_str in Hw.
Qed.

Section Tracking.
Context {W : Type} `{!Host W}.
Variables (source_dir : string) (excluded_paths : list string).
Abbreviation excluded p := (is_path_excluded p excluded_paths).
Abbreviation below ms := (PosixPath.join_all source_dir ms).
Abbreviation scan := (scan source_dir excluded_paths).
Abbreviation scan_cycles := (scan_cycles source_dir excluded_paths).
Abbreviation clear := (clear source_dir excluded_paths).
Abbreviation trackable := (trackable source_dir excluded_paths).
Abbreviation reached := (reached source_dir excluded_paths).
Abbreviation only_trackable := (only_trackable source_dir excluded_paths).

Lemma then_visits_elem (x : string * entry) sub rest :
  x ∈ (then_visits sub rest).1 → x ∈ sub.1 ∨ x ∈ rest.1.
Proof.
  unfold then_visits. destruct sub as [v []]; simpl; [auto|].
  by intros ?%elem_of_app.
Qed.

Lemma visits_reached e : ∀ ms,
  plain_names e = true → Forall (λ n, plain n = true) ms →
  (∀ k, (k < length ms)%nat → excluded (below (take k ms)) = false) →
  Forall reached (visits excluded_paths (below ms) e).1.
Proof.
  induction e as [name st|name st walk_ok entries IH] using entry_ind_nested;
    intros ms Hnames Hms Hclear; [by constructor|].
  simpl. destruct walk_ok; simpl; [|by constructor].
  destruct (excluded (below ms)) eqn:Ex; [by constructor|].
  assert (clear ms) as Hc.
  { intros k Hk. destruct (decide (k = length ms)) as [->|]; [|apply Hclear; lia].
    by rewrite firstn_all. }
  simpl in Hnames. rewrite forallb_forall in Hnames.
  apply Forall_forall. intros x [Hx|Hx]%then_visits_elem.
  - simpl in Hx. apply list_elem_of_fmap in Hx as (y & -> & Hy). split; [|by exists ms].
    simpl. assert (y ∈ entries) as Hin.
    { unfold items_here, kept_dirs in Hy.
      apply elem_of_app in Hy as [Hy|Hy]; repeat apply list_elem_of_filter in Hy as [_ Hy];
        done. }
    apply list_elem_of_In, Hnames in Hin. by apply andb_prop in Hin as [? _].
  - revert x Hx. apply Forall_forall.
    induction IH as [|d l Hd _ IHl]; [by constructor|]. simpl.
    assert (plain (entry_name d) = true ∧ plain_names d = true) as [Pd Nd].
    { apply andb_prop, Hnames. by left. }
    assert (Forall reached (foldr (λ d rest,
        if is_dir_entry d && negb (excluded_child excluded_paths (below ms) d)
        then then_visits (visits excluded_paths (PosixPath.join (below ms) (entry_name d)) d) rest
        else rest) ([], false) l).1) as Hrest.
    { apply IHl. intros y Hy. apply Hnames. by right. }
    destruct (is_dir_entry d && negb (excluded_child excluded_paths (below ms) d)); [|done].
    apply Forall_forall. intros x [Hx|Hx]%then_visits_elem.
    + rewrite <-join_all_snoc in Hx. revert x Hx. apply Forall_forall, Hd; [done|..].
      * apply Forall_app. split; [done|by constructor].
      * intros k Hk. rewrite length_app in Hk. simpl in Hk.
        rewrite take_app_le by lia. apply Hc. lia.
    + revert x Hx. by apply Forall_forall.
Qed.

Lemma check_item_eval root e σ :
  check_item source_dir excluded_paths root e σ =
    let p := PosixPath.join root (entry_name e) in
    if excluded p then (Ok tt, σ) else
    if negb (st_exists (entry_stat e)) then (Ok tt, σ) else
    match PosixPath.relpath getcwd p source_dir with
    | Raise x => (Raise x, σ)
    | Ok rel =>
        match st_mtime (entry_stat e) with
        | None => (Ok tt, σ)
        | Some m =>
            if decide (m ≠ default 0 (mod_times σ !! p))
            then (Ok tt, ScanState (<[p := m]> (mod_times σ))
                                   (changed_items σ ++ [(p, rel)]) true)
            else (Ok tt, σ)
        end
    end.
Proof.
  unfold check_item. simpl.
  destruct (excluded _); [done|]. destruct (negb _); [done|].
  rewrite bind_eval. unfold lift at 1.
  destruct (PosixPath.relpath _ _ _) as [rel|x]; [|done].
  destruct (st_mtime _) as [m|]; [|done].
  rewrite bind_eval. unfold get at 1. by destruct (decide _).
Qed.

Lemma clear_snoc ms n :
  clear ms → excluded (below (ms ++ [n])) = false → clear (ms ++ [n]).
Proof.
  intros Hc Hn k Hk. rewrite length_app in Hk. simpl in Hk.
  destruct (decide (k ≤ length ms)%nat).
  - rewrite take_app_le by lia. by apply Hc.
  - rewrite take_ge by (rewrite length_app; simpl; lia). done.
Qed.

Lemma check_item_trackable v σ :
  reached v → only_trackable σ →
  only_trackable (check_item source_dir excluded_paths v.1 v.2 σ).2.
Proof.
  destruct v as [root e]. intros [Hn (ms & Hms & Hc & ->)] [Ht Hch]. simpl in *.
  rewrite check_item_eval. simpl.
  destruct (excluded _) eqn:Ex; [done|].
  destruct (negb _); [done|].
  destruct (PosixPath.relpath _ _ _) as [rel|x]; [|done].
  destruct (st_mtime _) as [m|]; [|done].
  destruct (decide _); [|done]. simpl.
  assert (trackable (PosixPath.join (below ms) (entry_name e))) as Hp.
  { exists (ms ++ [entry_name e]). rewrite join_all_snoc. split_and!; [|by apply clear_snoc; rewrite ?join_all_snoc|done].
    apply Forall_app. split; [done|by constructor]. }
  split; simpl.
  - intros p. rewrite lookup_insert. case_decide; [by subst|auto].
  - intros p. rewrite fmap_app, elem_of_app. simpl. rewrite list_elem_of_singleton.
    intros [?| ->]; auto.
Qed.

Lemma run_checks_trackable vs σ :
  Forall reached vs → only_trackable σ →
  only_trackable (run_checks source_dir excluded_paths vs σ).2.
Proof.
  intros Hvs. revert σ. induction Hvs as [|[root e] vs Hv _ IH]; intros σ Hσ; [done|].
  simpl. rewrite bind_eval.
  pose proof (check_item_trackable (root, e) σ Hv Hσ) as Hstep. simpl in Hstep.
  destruct (check_item _ _ root e σ) as [[[]|x] σ']; [by apply IH|done].
Qed.

Lemma checked_state vs failed σ :
  (checked source_dir excluded_paths vs failed σ).2
  = (run_checks source_dir excluded_paths vs σ).2.
Proof.
  unfold checked. rewrite bind_eval.
  destruct (run_checks _ _ vs σ) as [[[]|x] σ']; [by destruct failed|done].
Qed.

Lemma scan_trackable tree table :
  plain_names tree = true →
  (∀ p, is_Some (table !! p) → trackable p) →
  only_trackable (scan tree table).
Proof.
  intros Hnames Htable. unfold scan. rewrite walk_visits, checked_state.
  apply run_checks_trackable.
  - apply (visits_reached tree []); [done|by constructor|]. simpl. lia.
  - split; [done|]. simpl. by intros p ?%elem_of_nil.
Qed.

Lemma scan_cycles_trackable trees table :
  Forall (λ tree, plain_names tree = true) trees →
  (∀ p, is_Some (table !! p) → trackable p) →
  (∀ p, is_Some ((scan_cycles trees table).1 !! p) → trackable p) ∧
  Forall (λ changed : list (string * string), ∀ p, p ∈ changed.*1 → trackable p)
         (scan_cycles trees table).2.
Proof.
  intros Htrees. revert table.
  induction Htrees as [|tree trees Htree _ IH]; intros table Htable; [by split|].
  simpl. destruct (scan_trackable tree table Htree Htable) as [Ht Hc].
  destruct (IH _ Ht) as [IH1 IH2].
  destruct (scan_cycles trees _) as [table' changes]. simpl in *.
  split; [done|]. by constructor.
Qed.

Lemma trackable_not_below_excluded ds ps :
  Forall (λ n, plain n = true) ds → Forall (λ n, plain n = true) ps →
  excluded (below ds) = true → ¬ trackable (below (ds ++ ps)).
Proof.
  intros Hds Hps Hex (ms & Hms & Hc & Heq).
  apply join_all_inj in Heq; [|by apply Forall_app|done]. subst ms.
  specialize (Hc (length ds)). rewrite length_app, take_app_length in Hc.
  rewrite Hc in Hex by lia. done.
Qed.

(** C6.  From the empty table and over any number of poll cycles, on trees
    of plain names: a path at or below an excluded directory of the source
    tree never gets an entry in the modification-time table and is in no
    cycle's list of changed items, whatever the modification times read in
    any of the cycles. *)
Theorem excluded_never_tracked (trees : list entry) (dir_names sub_names : list string) :
  Forall (λ tree, plain_names tree = true) trees →
  Forall (λ n, plain n = true) dir_names →
  Forall (λ n, plain n = true) sub_names →
  excluded (below dir_names) = true →
  (scan_cycles trees ∅).1 !! PosixPath.join_all (below dir_names) sub_names = None ∧
  Forall (λ changed : list (string * string),
            PosixPath.join_all (below dir_names) sub_names ∉ changed.*1)
         (scan_cycles trees ∅).2.
Proof.
  intros Htrees Hd Hs Hex.
  assert (PosixPath.join_all (below dir_names) sub_names = below (dir_names ++ sub_names)) as ->.
  { unfold PosixPath.join_all. by rewrite foldl_app. }
  pose proof (trackable_not_below_excluded _ _ Hd Hs Hex) as Hno.
  destruct (scan_cycles_trackable trees ∅ Htrees) as [Ht Hc].
  { intros p. rewrite lookup_empty. by intros []. }
  split.
  - apply eq_None_not_Some. intros ?. by apply Hno, Ht.
  - eapply Forall_impl; [exact Hc|]. simpl. intros changed Hch ?. by apply Hno, Hch.
Qed.

End Tracking.

Lemma filter_bool_ext {A} (f g : A → bool) (l : list A) :
  (∀ x, x ∈ l → f x = g x) → filter (λ x, f x) l = filter (λ x, g x) l.
Proof.
  induction l as [|a l IH]; intros Hfg; [done|].
  rewrite !filter_cons, (Hfg a) by left.
  rewrite IH by (intros x Hx; apply Hfg; by right). done.
Qed.

Section Detection.
Context {W : Type} `{!Host W}.
Variables (source_dir : string) (excluded_paths : list string).
Abbreviation excluded p := (is_path_excluded p excluded_paths).
Abbreviation below ms := (PosixPath.join_all source_dir ms).
Abbreviation candidate := (candidate source_dir excluded_paths).
Abbreviation candidates := (candidates source_dir excluded_paths).
Abbreviation under := (under source_dir).

Lemma join_plain_nonempty a n : plain n = true → Py.is_empty (PosixPath.join a n) = false.
Proof.
  intros Hn. destruct (join_open a n Hn) as [_ Hl].
  destruct (PosixPath.join a n); [|done]. simpl in Hl. lia.
Qed.

Lemma check_item_record v σ :
  plain (entry_name v.2) = true →
  check_item source_dir excluded_paths v.1 v.2 σ
  = (Ok tt, from_option (record σ) σ (candidate v)).
Proof.
  intros Hn. rewrite check_item_eval. unfold candidate, visit_path, record. simpl.
  destruct (excluded _); [done|]. destruct (negb _); [done|].
  unfold PosixPath.relpath. rewrite join_plain_nonempty by done.
  match goal with |- context [match ?l with [] => Ok "." | c :: cs => _ end] =>
    destruct l end; destruct (st_mtime _); simpl; try done; by case_decide.
Qed.

Lemma run_checks_record vs σ :
  Forall (reached source_dir excluded_paths) vs →
  run_checks source_dir excluded_paths vs σ
  = (Ok tt, foldl record σ (omap candidate vs)).
Proof.
  intros Hvs. revert σ. induction Hvs as [|[root e] vs [Hn _] _ IH]; intros σ; [done|].
  simpl. rewrite bind_eval, (check_item_record (root, e)) by done. simpl.
  rewrite IH. by destruct (candidate (root, e)).
Qed.

Lemma scan_record tree table :
  plain_names tree = true →
  scan source_dir excluded_paths tree table
  = foldl record (ScanState table [] false) (candidates tree).
Proof.
  intros Hnames. unfold scan, candidates. rewrite walk_visits, checked_state.
  rewrite run_checks_record; [done|].
  apply (visits_reached _ _ tree []); [done|by constructor|]. simpl. lia.
Qed.

Lemma record_other σ c p :
  p ≠ c.1.1 → mod_times (record σ c) !! p = mod_times σ !! p.
Proof.
  intros Hp. unfold record. case_decide; [|done]. simpl. by rewrite lookup_insert_ne.
Qed.

Lemma foldl_record_other cs : ∀ σ p,
  p ∉ cs.*1.*1 → mod_times (foldl record σ cs) !! p = mod_times σ !! p.
Proof.
  induction cs as [|c cs IH]; intros σ p Hp; [done|]. simpl.
  rewrite !fmap_cons, not_elem_of_cons in Hp. destruct Hp as [Hc Hp].
  rewrite IH by done. by apply record_other.
Qed.

Lemma foldl_record_changed cs : ∀ σ,
  NoDup cs.*1.*1 →
  changed_items (foldl record σ cs)
  = changed_items σ ++ (filter (λ c, differs (mod_times σ) c) cs).*1.
Proof.
  induction cs as [|c cs IH]; intros σ Hnd; simpl.
  { by rewrite app_nil_r. }
  rewrite !fmap_cons in Hnd. apply NoDup_cons in Hnd as [Hc Hnd].
  rewrite IH by done. rewrite filter_cons.
  assert (filter (λ c0, differs (mod_times (record σ c)) c0) cs
          = filter (λ c0, differs (mod_times σ) c0) cs) as ->.
  { apply filter_bool_ext. intros c' Hc'. unfold differs.
    rewrite record_other; [done|]. intros Heq. apply Hc. rewrite <-Heq.
    apply list_elem_of_fmap. exists c'.1. split; [done|].
    apply list_elem_of_fmap. by exists c'. }
  unfold record, differs at 2.
  destruct (decide (c.2 ≠ default 0 (mod_times σ !! c.1.1))) as [Hd|Hd].
  - rewrite decide_True by (by apply bool_decide_pack). simpl. by rewrite <-app_assoc.
  - rewrite decide_False; [done|]. by intros ?%bool_decide_unpack.
Qed.

Lemma foldl_record_recorded cs : ∀ σ c,
  NoDup cs.*1.*1 → c ∈ cs →
  default 0 (mod_times (foldl record σ cs) !! c.1.1) = c.2.
Proof.
  induction cs as [|c' cs IH]; intros σ c Hnd Hc; [by apply elem_of_nil in Hc|].
  rewrite !fmap_cons in Hnd. apply NoDup_cons in Hnd as [Hc' Hnd]. simpl.
  apply elem_of_cons in Hc as [->|Hc]; [|by apply IH].
  rewrite foldl_record_other by done. unfold record.
  case_decide as Hd; simpl.
  - by rewrite lookup_insert_eq.
  - done.
Qed.

Lemma NoDup_fmap_eq {A B} (f : A → B) (l : list A) x y :
  NoDup (f <$> l) → x ∈ l → y ∈ l → f x = f y → x = y.
Proof.
  induction l as [|a l IH]; intros Hnd Hx Hy Hf; [by apply elem_of_nil in Hx|].
  rewrite fmap_cons in Hnd. apply NoDup_cons in Hnd as [Ha Hnd].
  apply elem_of_cons in Hx as [->|Hx], Hy as [->|Hy]; [done|..|by apply IH].
  - destruct Ha. rewrite Hf. by apply list_elem_of_fmap_2.
  - destruct Ha. rewrite <-Hf. by apply list_elem_of_fmap_2.
Qed.

Lemma items_here_names root entries :
  NoDup (entry_name <$> entries) →
  NoDup (entry_name <$> items_here excluded_paths root entries).
Proof.
  intros Hnd. unfold items_here, kept_dirs. rewrite fmap_app. apply NoDup_app.
  split_and!.
  - eapply sublist_NoDup; [done|]. apply fmap_sublist.
    etrans; apply sublist_filter.
  - intros n (x & -> & Hx)%list_elem_of_fmap (y & Hxy & Hy)%list_elem_of_fmap.
    apply list_elem_of_filter in Hx as [_ [Hdx Hx]%list_elem_of_filter].
    apply list_elem_of_filter in Hy as [Hdy Hy].
    assert (x = y) as -> by (by eapply NoDup_fmap_eq).
    by destruct (is_dir_entry y).
  - eapply sublist_NoDup; [done|]. apply fmap_sublist, sublist_filter.
Qed.

Lemma items_here_elem root entries x :
  x ∈ items_here excluded_paths root entries → x ∈ entries.
Proof.
  unfold items_here, kept_dirs. intros [Hx|Hx]%elem_of_app;
    repeat apply list_elem_of_filter in Hx as [_ Hx]; done.
Qed.

Lemma visits_paths e : ∀ ms,
  plain_names e = true → distinct_names e = true →
  Forall (λ n, plain n = true) ms →
  NoDup (visit_path <$> (visits excluded_paths (below ms) e).1) ∧
  Forall (under ms) (visit_path <$> (visits excluded_paths (below ms) e).1).
Proof.
  induction e as [name st|name st walk_ok entries IH] using entry_ind_nested;
    intros ms Hplain Hdist Hms; [by split; constructor|].
  simpl. destruct walk_ok; simpl; [|by split; constructor].
  destruct (excluded (below ms)); [by split; constructor|].
  simpl in Hplain, Hdist. apply andb_prop in Hdist as [Hnd%bool_decide_eq_true Hdist].
  rewrite forallb_forall in Hplain, Hdist.
  assert (∀ d, d ∈ entries →
    plain (entry_name d) = true ∧ plain_names d = true ∧ distinct_names d = true) as Hd.
  { intros d Hin%list_elem_of_In. split_and!; [..|by apply Hdist];
      apply Hplain in Hin; by apply andb_prop in Hin as []. }
  clear Hplain Hdist.
  set (step := λ d rest, if is_dir_entry d && negb (excluded_child excluded_paths (below ms) d)
       then then_visits (visits excluded_paths (PosixPath.join (below ms) (entry_name d)) d) rest
       else rest).
  assert (∀ l, Forall (λ e, ∀ ms,
              plain_names e = true → distinct_names e = true →
              Forall (λ n, plain n = true) ms →
              NoDup (visit_path <$> (visits excluded_paths (below ms) e).1) ∧
              Forall (under ms) (visit_path <$> (visits excluded_paths (below ms) e).1)) l →
            (∀ d, d ∈ l → d ∈ entries) → NoDup (entry_name <$> l) →
            NoDup (visit_path <$> (foldr step ([], false) l).1) ∧
            Forall (λ p, ∃ d, d ∈ l ∧ under (ms ++ [entry_name d]) p)
                   (visit_path <$> (foldr step ([], false) l).1)) as Hbelow.
  { clear IH. intros l IH. induction IH as [|d l Hd1 _ IHl]; intros Hin Hndl;
      [by split; constructor|].
    rewrite fmap_cons in Hndl. apply NoDup_cons in Hndl as [Hdl Hndl].
    destruct IHl as [IH1 IH2]; [by intros; apply Hin; right|done|].
    assert (Forall (λ p, ∃ d0, d0 ∈ d :: l ∧ under (ms ++ [entry_name d0]) p)
              (visit_path <$> (foldr step ([], false) l).1)) as IH2'.
    { eapply Forall_impl; [exact IH2|]. intros p (d0 & ? & ?). exists d0. split; [by right|done]. }
    simpl. unfold step at 1 3.
    destruct (is_dir_entry d && negb _); [|done].
    destruct (Hd d) as (Pd & Nd & Dd); [by apply Hin; left|].
    rewrite <-join_all_snoc.
    destruct (Hd1 (ms ++ [entry_name d]) Nd Dd) as [S1 S2].
    { apply Forall_app. split; [done|by constructor]. }
    assert (Forall (λ p, ∃ d0, d0 ∈ d :: l ∧ under (ms ++ [entry_name d0]) p)
              (visit_path <$> (visits excluded_paths (below (ms ++ [entry_name d])) d).1)) as S2'.
    { eapply Forall_impl; [exact S2|]. intros p ?. exists d. split; [by left|done]. }
    unfold then_visits. destruct (visits excluded_paths (below (ms ++ [entry_name d])) d) as [v failed].
    simpl in *. destruct failed; simpl; [done|].
    rewrite fmap_app. split; [|by apply Forall_app].
    apply NoDup_app. split_and!; [done| |done].
    intros p Hp1 Hp2. rewrite Forall_forall in S2, IH2.
    destruct (S2 p Hp1) as (ns1 & _ & Hns1 & ->).
    destruct (IH2 _ Hp2) as (d' & Hd' & ns2 & _ & Hns2 & Heq).
    destruct (Hd d') as (Pd' & _); [by apply Hin; right|].
    apply join_all_inj in Heq.
    - rewrite <-!app_assoc in Heq. apply app_inv_head in Heq. simpl in Heq.
      injection Heq as Heq _. apply Hdl. rewrite Heq. by apply list_elem_of_fmap_2.
    - repeat (apply Forall_app; split); try done; by constructor.
    - repeat (apply Forall_app; split); try done; by constructor. }
  destruct (Hbelow entries IH) as [B1 B2]; [done..|].
  unfold then_visits. simpl. fold step. rewrite fmap_app, <-list_fmap_compose.
  assert (Forall (under ms) (visit_path ∘ (λ x, (below ms, x)) <$> items_here excluded_paths (below ms) entries)) as H1.
  { apply Forall_fmap, Forall_forall. intros x Hx%items_here_elem. simpl.
    exists [entry_name x]. unfold visit_path. simpl. rewrite join_all_snoc.
    split_and!; [done| |done]. constructor; [|done]. by apply Hd. }
  split.
  - apply NoDup_app. split_and!; [| |done].
    + apply NoDup_fmap_2_strong.
      * intros x y Hx%items_here_elem Hy%items_here_elem Heq.
        unfold visit_path in Heq. simpl in Heq.
        apply join_inj in Heq as [_ Heq]; [|by apply Hd..].
        by eapply NoDup_fmap_eq.
      * eapply NoDup_fmap_1, items_here_names. done.
    + intros p Hp1 Hp2. rewrite Forall_forall in H1, B2.
      destruct (H1 p Hp1) as (ns1 & Hne1 & Hns1 & ->).
      apply list_elem_of_fmap in Hp1 as (x & Hx & Hin%items_here_elem).
      unfold visit_path in Hx. simpl in Hx. rewrite <-join_all_snoc in Hx.
      destruct (B2 _ Hp2) as (d' & Hd' & ns2 & Hne2 & Hns2 & Heq).
      rewrite Hx in Heq. apply join_all_inj in Heq.
      * rewrite <-!app_assoc in Heq. apply app_inv_head in Heq. simpl in Heq.
        injection Heq as _ Heq. by destruct ns2.
      * apply Forall_app. split; [done|]. constructor; [|done]. by apply Hd.
      * repeat (apply Forall_app; split); try done. constructor; [|done]. by apply Hd.
  - apply Forall_app. split; [done|].
    eapply Forall_impl; [exact B2|]. simpl.
    intros p (d & Hin & ns & Hne & Hns & ->). exists (entry_name d :: ns).
    rewrite <-app_assoc. split_and!; [done| |done]. constructor; [|done]. by apply Hd.
Qed.

End Detection.

Section Commit.
Context {W : Type} `{!Host W}.
Variables (project_name config_file_path : string).

Lemma copy_item_returns item_path backup_dir (w : world W) :
  ∃ events,
    copy_item item_path backup_dir w
      = (Ok (copy_outcome item_path backup_dir w).1, (copy_outcome item_path backup_dir w).2) ∧
    stdout (copy_outcome item_path backup_dir w).2 = stdout w ++ events ∧ quiet events.
Proof.
  unfold copy_outcome, copy_item, ensure_directory_exists, sys, ask, print.
  repeat (rewrite bind_eval; simpl).
  destruct (mkdir_parents backup_dir (fs w)) as [[] f1]; simpl.
  2:{ exists [ErrCreateDir backup_dir]. split_and!; [done..|by repeat constructor]. }
  repeat (rewrite bind_eval; simpl).
  repeat match goal with
  | |- context [isdir ?p ?f] => destruct (isdir p f); simpl
  | |- context [exists_path ?p ?f] => destruct (exists_path p f); simpl
  | |- context [rmtree ?p ?f] => destruct (rmtree p f) as [[] ?]; simpl
  | |- context [copytree ?p ?q ?f] => destruct (copytree p q f) as [[] ?]; simpl
  | |- context [copy2 ?p ?q ?f] => destruct (copy2 p q f) as [[] ?]; simpl
  | _ => rewrite bind_eval; simpl
  end;
  first [ exists []; rewrite app_nil_r; split_and!; [reflexivity..|constructor]
        | exists [ErrCopy item_path backup_dir];
          split_and!; [reflexivity..|by repeat constructor] ].
Qed.

Lemma quiet_no_report events : quiet events → filter (λ e, is_report e) events = [].
Proof.
  induction 1 as [|e events He _ IH]; [done|].
  rewrite filter_cons, IH. by destruct e.
Qed.

Lemma backup_item_eval vdir acc changed (w : world W) :
  backup_item vdir acc changed w =
    let backup_parent_dir := PosixPath.dirname (PosixPath.join vdir changed.2) in
    let r := copy_outcome changed.1 backup_parent_dir w in
    (Ok (acc && r.1), say (report changed r.1) r.2).
Proof.
  destruct changed as [item_path rel_path]. unfold backup_item. simpl.
  destruct (copy_item_returns item_path
    (PosixPath.dirname (PosixPath.join vdir rel_path)) w) as (events & Hcopy & _).
  rewrite bind_eval, Hcopy. simpl.
  destruct (copy_outcome _ _ w) as [[] w']; simpl; rewrite bind_eval; simpl;
    by rewrite ?andb_true_r, ?andb_false_r.
Qed.

Lemma backup_results_spec vdir changed_items : ∀ acc (w : world W),
  ∃ events,
    for_fold (backup_item vdir) changed_items acc w
      = (Ok (acc && forallb id (backup_results vdir changed_items w).1),
         (backup_results vdir changed_items w).2) ∧
    length (backup_results vdir changed_items w).1 = length changed_items ∧
    stdout (backup_results vdir changed_items w).2 = stdout w ++ events ∧
    filter (λ e, is_report e) events
      = zip_with report changed_items (backup_results vdir changed_items w).1 ∧
    Forall (λ e, is_report e = true ∨
                 match e with ErrCreateDir _ | ErrCopy _ _ => True | _ => False end) events.
Proof.
  induction changed_items as [|changed rest IH]; intros acc w.
  { exists []. simpl. by rewrite andb_true_r, app_nil_r. }
  simpl. rewrite bind_eval, backup_item_eval. simpl.
  destruct (copy_item_returns changed.1
    (PosixPath.dirname (PosixPath.join vdir changed.2)) w) as (ev1 & _ & Hev1 & Hq).
  destruct (copy_outcome _ _ w) as [copied w1]. simpl in *.
  destruct (IH (acc && copied) (say (report changed copied) w1)) as (ev2 & -> & Hlen & Hev2 & Hrep & Hall).
  destruct (backup_results vdir rest _) as [results w2]. simpl in *.
  exists (ev1 ++ report changed copied :: ev2). split_and!.
  - by rewrite andb_assoc.
  - by rewrite Hlen.
  - rewrite Hev2, Hev1. by rewrite <-!app_assoc.
  - rewrite filter_app, (quiet_no_report _ Hq), filter_cons, Hrep. simpl.
    by destruct copied.
  - apply Forall_app. split.
    + eapply Forall_impl; [exact Hq|]. by right.
    + constructor; [left; by destruct copied|done].
Qed.

End Commit.

Ltac st_run :=
  repeat first
    [ rewrite bind_eval
    | progress unfold mret, ST_ret, lift
    | progress cbv beta iota zeta
    | progress simpl stdout
    | progress simpl fs ].

Ltac in_lines :=
  rewrite ?elem_of_cons, ?elem_of_nil;
  split; intros; repeat match goal with
  | H : _ ∨ _ |- _ => destruct H
  | H : _ ∧ _ |- _ => destruct H
  | H : False |- _ => destruct H
  end; try discriminate; try done; auto 6.

Section CommitFacts.
Context {W : Type} `{!Host W}.
Variables (project_name config_file_path : string).
Abbreviation commit := (commit project_name config_file_path).
Abbreviation turn := (turn project_name config_file_path).
Abbreviation commit_header := (commit_header project_name).
Abbreviation commit_close := (commit_close config_file_path).

Lemma increment_build_number_length l :
  length l = 4%nat → ∃ l' new_version, increment_build_number l = Ok (l', new_version).
Proof.
  destruct l as [|a [|b [|c [|d [|]]]]]; try done. intros _. by eexists _, _.
Qed.

Lemma commit_eval backup_dir excluded_paths changed σ (w : world W) :
  ∃ warning,
    let new_version := next_version (current_version σ) in
    let versioned_backup_dir :=
      create_versioned_backup_path backup_dir project_name new_version in
    let w1 := World (stdout w ++ warning
                     ++ commit_header backup_dir excluded_paths new_version) (fs w) in
    let r := backup_results versioned_backup_dir changed w1 in
    let c := commit_close new_version r.1 σ (fs r.2) in
    (warning = [] ∨ warning = [WarnVersion (VStr (current_version σ))]) ∧
    commit backup_dir excluded_paths changed σ w
      = (Ok c.1.1, World (stdout r.2 ++ c.1.2) c.2).
Proof.
  unfold commit, next_version.
  destruct (parse_version_eval (VStr (current_version σ)) w) as (l & w0 & Hp & Hlen & Hl).
  assert (l = default [1; 0; 0; 0] (numeric_interpretation (VStr (current_version σ))) ∧
          ∃ warning, (warning = [] ∨ warning = [WarnVersion (VStr (current_version σ))]) ∧
                     w0 = World (stdout w ++ warning) (fs w)) as [Hdef (warning & Hw & ->)].
  { destruct (numeric_interpretation _); destruct Hl as [-> ->]; split; try done.
    - exists []. split; [by left|]. rewrite app_nil_r. by destruct w.
    - exists [WarnVersion (VStr (current_version σ))]. split; [by right|done]. }
  rewrite <-Hdef. destruct (increment_build_number_length l Hlen) as (l' & nv & Hinc).
  rewrite Hinc. exists warning. simpl. split; [done|].
  rewrite bind_eval, Hp. rewrite bind_eval. unfold lift at 1. rewrite Hinc.
  cbv beta iota zeta. unfold print, commit_header, commit_close.
  destruct excluded_paths as [|x xs]; st_run.
  all: rewrite <-?app_assoc; simpl app.
  all: match goal with |- context [for_fold (backup_item ?v) ?c true ?w1] =>
         destruct (backup_results_spec v c true w1) as (events & -> & _) end.
  all: simpl andb; destruct (forallb id _).
  all: unfold update_config_version, sys, print; st_run.
  all: try destruct (rewrite_version _ _ _) as [[] f']; st_run;
       simpl; by rewrite <-?app_assoc.
Qed.

Lemma forallb_id_Forall (results : list bool) :
  forallb id results = true ↔ Forall (λ r, r = true) results.
Proof. rewrite forallb_forall, Forall_forall. by setoid_rewrite list_elem_of_In. Qed.

Lemma not_all_true (results : list bool) :
  forallb id results = false ↔ false ∈ results.
Proof.
  induction results as [|[] results IH]; simpl.
  - split; [done|]. by intros ?%elem_of_nil.
  - rewrite IH, elem_of_cons. split; [by right|]. by intros [|].
  - split; [|done]. intros _. by left.
Qed.

Lemma commit_spec backup_dir excluded_paths changed σ (w : world W) :
  ∃ results events σ' w',
    commit backup_dir excluded_paths changed σ w = (Ok σ', w') ∧
    stdout w' = stdout w ++ events ∧
    length results = length changed ∧
    filter (λ e, is_report e) events = zip_with report changed results ∧
    (VersionNotUpdated ∈ events ↔ false ∈ results) ∧
    (UpdatedVersion (next_version (current_version σ)) ∈ events ∨ ConfigNotUpdated ∈ events
       ↔ Forall (λ r, r = true) results) ∧
    (current_version σ' = next_version (current_version σ) ∧
       UpdatedVersion (next_version (current_version σ)) ∈ events ∨
     current_version σ' = current_version σ ∧
       UpdatedVersion (next_version (current_version σ)) ∉ events) ∧
    item_mod_times σ' = item_mod_times σ ∧
    last_backup_times σ' = last_backup_times σ ∧
    (∀ v, ChangesDetected v ∈ events ↔ v = next_version (current_version σ)) ∧
    (∃ w0, fs w0 = fs w ∧
       results = (backup_results
                    (create_versioned_backup_path backup_dir project_name
                       (next_version (current_version σ))) changed w0).1).
Proof.
  destruct (commit_eval backup_dir excluded_paths changed σ w) as (warning & Hw & Hc).
  cbv zeta in Hc. revert Hc.
  set (nv := next_version (current_version σ)).
  set (vdir := create_versioned_backup_path backup_dir project_name nv).
  set (w1 := World _ (fs w)).
  destruct (backup_results_spec vdir changed true w1)
    as (copy_events & _ & Hlen & Hout & Hrep & Hall).
  set (r := backup_results vdir changed w1) in *.
  set (c := commit_close nv r.1 σ (fs r.2)). intros Hc.
  exists r.1, (warning ++ commit_header backup_dir excluded_paths nv ++ copy_events ++ c.1.2),
    c.1.1, (World (stdout r.2 ++ c.1.2) c.2).
  assert (filter (λ e, is_report e) (warning ++ commit_header backup_dir excluded_paths nv) = [])
    as Hhead.
  { rewrite filter_app. unfold commit_header.
    destruct Hw as [-> | ->], excluded_paths; done. }
  assert (∀ e, e ∈ warning ++ commit_header backup_dir excluded_paths nv ++ copy_events →
               is_report e = false →
               match e with
               | WarnVersion _ | ChangesDetected _ | BackupLocation _
               | NoteExclusions _ | ErrCreateDir _ | ErrCopy _ _ => True
               | _ => False
               end) as Hquiet.
  { intros e. rewrite !elem_of_app. intros [He|[He|He]] Hr.
    - destruct Hw as [-> | ->]; [by apply elem_of_nil in He|].
      by apply list_elem_of_singleton in He as ->.
    - unfold commit_header in He. apply elem_of_app in He as [He|He].
      + apply elem_of_cons in He as [->|He]; [done|].
        by apply list_elem_of_singleton in He as ->.
      + destruct excluded_paths; [by apply elem_of_nil in He|].
        by apply list_elem_of_singleton in He as ->.
    - rewrite Forall_forall in Hall. destruct (Hall e He) as [Hr'|]; [congruence|].
      by destruct e. }
  assert (∀ e, match e with
               | VersionNotUpdated | UpdatedVersion _ | ConfigNotUpdated => True
               | _ => False
               end →
               e ∈ warning ++ commit_header backup_dir excluded_paths nv
                     ++ copy_events ++ c.1.2 ↔ e ∈ c.1.2) as Hfoot.
  { intros e He. rewrite !app_assoc, elem_of_app, <-!app_assoc. split; [|by right].
    intros [Hin|Hin]; [|done]. apply Hquiet in Hin; by destruct e. }
  split_and!.
  - done.
  - simpl. rewrite Hout. subst w1. simpl. by rewrite <-!app_assoc.
  - done.
  - rewrite !app_assoc, filter_app, <-!app_assoc, (app_assoc warning), filter_app, Hhead.
    simpl. rewrite Hrep. subst c. unfold commit_close.
    destruct (forallb id r.1); [|by rewrite app_nil_r].
    destruct (rewrite_version _ _ _) as [[] ?]; by rewrite app_nil_r.
  - rewrite <-not_all_true, Hfoot by done. subst c. unfold commit_close.
    destruct (forallb id r.1); [destruct (rewrite_version _ _ _) as [[] ?]|]; simpl;
      in_lines.
  - rewrite <-forallb_id_Forall, !Hfoot by done. subst c. unfold commit_close.
    destruct (forallb id r.1); [destruct (rewrite_version _ _ _) as [[] ?]|]; simpl;
      in_lines.
  - rewrite !Hfoot by done. subst c. unfold commit_close.
    destruct (forallb id r.1); [destruct (rewrite_version _ _ _) as [[] ?]|]; simpl.
    + left. split; [done|by left].
    + right. split; [done|]. rewrite !elem_of_cons, elem_of_nil. by intros [|[|[|]]].
    + right. split; [done|]. rewrite !elem_of_cons, elem_of_nil. by intros [|[|]].
  - subst c. unfold commit_close.
    by destruct (forallb id r.1); [destruct (rewrite_version _ _ _) as [[] ?]|].
  - subst c. unfold commit_close.
    by destruct (forallb id r.1); [destruct (rewrite_version _ _ _) as [[] ?]|].
  - intros v. rewrite !elem_of_app. split.
    + intros [He|[He|[He|He]]].
      * destruct Hw as [-> | ->]; [by apply elem_of_nil in He|].
        by apply list_elem_of_singleton in He.
      * unfold commit_header in He. apply elem_of_app in He as [He|He].
        -- apply elem_of_cons in He as [[= ->]|He]; [done|].
           by apply list_elem_of_singleton in He.
        -- destruct excluded_paths; [by apply elem_of_nil in He|].
           by apply list_elem_of_singleton in He.
      * rewrite Forall_forall in Hall. by destruct (Hall _ He).
      * subst c. unfold commit_close in He. revert He.
        destruct (forallb id r.1); [destruct (rewrite_version _ _ _) as [[] ?]|];
          simpl; rewrite !elem_of_cons, elem_of_nil; by intuition.
    + intros ->. right. left. unfold commit_header. apply elem_of_app. left. by left.
  - by exists w1.
Qed.

(** C4.  A commit returns normally.  Its results are the outcomes of the
    copies of all the changed items, one copy per item and in their order,
    each run after the ones before it whatever they answered, and each
    followed by its report line.  The line of a failed commit is printed
    exactly when some copy failed; the configuration is rewritten exactly
    when every copy succeeded; and the current version advances only in
    that case, when the rewrite succeeded too. *)
Theorem commit_attempts_every_item backup_dir excluded_paths changed σ (w : world W) :
  ∃ results events σ' w',
    commit backup_dir excluded_paths changed σ w = (Ok σ', w') ∧
    stdout w' = stdout w ++ events ∧
    (∃ w0, fs w0 = fs w ∧
       results = (backup_results
                    (create_versioned_backup_path backup_dir project_name
                       (next_version (current_version σ))) changed w0).1) ∧
    length results = length changed ∧
    filter (λ e, is_report e) events = zip_with report changed results ∧
    (VersionNotUpdated ∈ events ↔ false ∈ results) ∧
    (UpdatedVersion (next_version (current_version σ)) ∈ events ∨ ConfigNotUpdated ∈ events
       ↔ Forall (λ r, r = true) results) ∧
    (current_version σ' = next_version (current_version σ) ∧
       UpdatedVersion (next_version (current_version σ)) ∈ events ∨
     current_version σ' = current_version σ ∧
       UpdatedVersion (next_version (current_version σ)) ∉ events).
Proof.
  destruct (commit_spec backup_dir excluded_paths changed σ w)
    as (results & events & σ' & w' & ? & ? & ? & ? & ? & ? & ? & _ & _ & _ & ?).
  by exists results, events, σ', w'.
Qed.

End CommitFacts.

Section TurnFacts.
Context {W : Type} `{!Host W}.
Variables (project_name config_file_path : string).
Variables (source_dir backup_dir : string) (excluded_paths : list string).
Abbreviation commit := (commit project_name config_file_path backup_dir excluded_paths).
Abbreviation turn := (turn project_name config_file_path source_dir backup_dir excluded_paths).
Abbreviation walk := (walk source_dir excluded_paths source_dir).

Lemma check_item_flag root e sc :
  flag_ok sc → flag_ok (check_item source_dir excluded_paths root e sc).2.
Proof.
  intros Hf. rewrite check_item_eval. simpl.
  repeat case_match; try done. unfold flag_ok. simpl.
  rewrite bool_decide_false; [done|]. by destruct (changed_items sc).
Qed.

Lemma run_checks_flag vs : ∀ sc,
  flag_ok sc → flag_ok (run_checks source_dir excluded_paths vs sc).2.
Proof.
  induction vs as [|[root e] vs IH]; intros sc Hf; [done|].
  simpl. rewrite bind_eval. pose proof (check_item_flag root e sc Hf) as Hstep.
  destruct (check_item _ _ root e sc) as [[[]|x] sc']; [by apply IH|done].
Qed.

Lemma walk_flag tree table :
  flag_ok (walk tree (ScanState table [] false)).2.
Proof. rewrite walk_visits, checked_state. by apply run_checks_flag. Qed.

Lemma turn_eval current_time σ (w : world W) table :
  item_mod_times σ !! source_dir = Some table →
  turn current_time σ w =
    let s := walk (walk_view source_dir (fs w)) (ScanState table [] false) in
    match s.1 with
    | Raise e =>
        if decide (e = OSError) then
          let w1 := say (ErrAccessSource source_dir) w in
          let σ1 := scanned source_dir (mod_times s.2) σ in
          match changed_items s.2 with
          | [] => (Ok (timed source_dir current_time σ1), w1)
          | _ => match commit (changed_items s.2) σ1 w1 with
                 | (Ok σ2, w2) => (Ok (timed source_dir current_time σ2), w2)
                 | (Raise e, w2) => (Raise e, w2)
                 end
          end
        else (Raise e, w)
    | Ok _ =>
        let σ1 := scanned source_dir (mod_times s.2) σ in
        match changed_items s.2 with
        | [] => (Ok (timed source_dir current_time σ1), w)
        | _ => match commit (changed_items s.2) σ1 w with
               | (Ok σ2, w2) => (Ok (timed source_dir current_time σ2), w2)
               | (Raise e, w2) => (Raise e, w2)
               end
        end
    end.
Proof.
  intros Ht. unfold turn, item, ask. rewrite Ht. st_run.
  pose proof (walk_flag (walk_view source_dir (fs w)) table) as Hf.
  destruct (walk _ _) as [r sc]. unfold flag_ok in Hf. simpl in *.
  rewrite Hf. fold (scanned source_dir (mod_times sc) σ).
  destruct r as [[]|e]; [|destruct e]; st_run; try done; unfold print; st_run.
  all: destruct (changed_items sc) eqn:E; simpl; st_run; try done.
  all: by destruct (commit _ _ _) as [[σ2|e] w2].
Qed.

(** C5, with the changes found before the error.  When an [OSError] escapes
    from the walk, the turn still returns: the error is reported first,
    the time of the last backup is set, and the table keeps what the scan
    recorded before the error.  With no changed item by then, nothing else
    is printed, no file is touched and the version stays; with some, their
    commit runs all the same, one report for each.  An error at the source
    directory itself leaves no changed item and the table as it was. *)
Theorem turn_after_walk_error current_time σ (w : world W) table sc :
  item_mod_times σ !! source_dir = Some table →
  walk (walk_view source_dir (fs w)) (ScanState table [] false) = (Raise OSError, sc) →
  ∃ σ' w' events,
    turn current_time σ w = (Ok σ', w') ∧
    stdout w' = stdout w ++ ErrAccessSource source_dir :: events ∧
    last_backup_times σ' !! source_dir = Some current_time ∧
    item_mod_times σ' !! source_dir = Some (mod_times sc) ∧
    (changed_items sc = [] →
       events = [] ∧ fs w' = fs w ∧ current_version σ' = current_version σ) ∧
    (changed_items sc ≠ [] →
       ChangesDetected (next_version (current_version σ)) ∈ events ∧
       ∃ results, length results = length (changed_items sc) ∧
         filter (λ e, is_report e) events = zip_with report (changed_items sc) results) ∧
    (∀ name st entries, walk_view source_dir (fs w) = Dir name st false entries →
       changed_items sc = [] ∧ mod_times sc = table).
Proof.
  intros Ht Hwalk. rewrite (turn_eval _ _ _ _ Ht), Hwalk. simpl.
  assert (∀ name st entries, walk_view source_dir (fs w) = Dir name st false entries →
            changed_items sc = [] ∧ mod_times sc = table) as Htop.
  { intros name st entries Hv. rewrite Hv in Hwalk. simpl in Hwalk. by injection Hwalk as <-. }
  destruct (changed_items sc) as [|c cs] eqn:E.
  - eexists _, _, []. split_and!; try done; simpl.
    + by rewrite lookup_insert_eq.
    + by rewrite lookup_insert_eq.
  - rewrite <-E.
    destruct (commit_spec project_name config_file_path backup_dir excluded_paths
                (changed_items sc) (scanned source_dir (mod_times sc) σ)
                (say (ErrAccessSource source_dir) w))
      as (results & events & σ2 & w2 & -> & Hout & Hlen & Hrep & _ & _ & _ & Hm & Hl & Hv & _).
    exists (timed source_dir current_time σ2), w2, events. split_and!; try done.
    + rewrite Hout. simpl. by rewrite <-app_assoc.
    + simpl. by rewrite lookup_insert_eq.
    + simpl. rewrite Hm. simpl. by rewrite lookup_insert_eq.
    + by rewrite E.
    + intros _. split; [by apply Hv|by exists results].
    + by rewrite E.
Qed.

Lemma candidates_NoDup tree :
  plain_names tree = true → distinct_names tree = true →
  NoDup (candidates source_dir excluded_paths tree).*1.*1.
Proof.
  intros Hp Hd. unfold candidates.
  destruct (visits_paths source_dir excluded_paths tree [] Hp Hd) as [Hnd _]; [done|].
  simpl in Hnd. revert Hnd.
  generalize ((visits excluded_paths source_dir tree).1). intros vs.
  induction vs as [|v vs IH]; [by constructor|]. rewrite fmap_cons. intros [Hv Hnd]%NoDup_cons.
  simpl. destruct (candidate source_dir excluded_paths v) as [c|] eqn:Ec; [|by apply IH].
  rewrite !fmap_cons. constructor; [|by apply IH].
  assert (c.1.1 = visit_path v) as ->.
  { unfold candidate in Ec. repeat case_match; try done. by injection Ec as <-. }
  intros (x & Hx & (c' & -> & (v' & Hv' & Hc')%list_elem_of_omap)%list_elem_of_fmap)%list_elem_of_fmap.
  apply Hv. apply list_elem_of_fmap. exists v'. split; [|done]. rewrite Hx.
  unfold candidate in Hc'. repeat case_match; try done. by injection Hc' as <-.
Qed.

Lemma walk_plain tree table :
  plain_names tree = true →
  walk tree (ScanState table [] false)
  = (if (visits excluded_paths source_dir tree).2 then Raise OSError else Ok tt,
     foldl (record) (ScanState table [] false) (candidates source_dir excluded_paths tree)).
Proof.
  intros Hp. rewrite walk_visits. unfold checked. rewrite bind_eval.
  rewrite run_checks_record.
  - unfold candidates. by destruct (visits excluded_paths source_dir tree).2.
  - apply (visits_reached _ _ tree []); [done|by constructor|]. simpl. lia.
Qed.

Lemma rescan_unchanged tree table :
  plain_names tree = true → distinct_names tree = true →
  let table' := mod_times (foldl record (ScanState table [] false)
                             (candidates source_dir excluded_paths tree)) in
  foldl record (ScanState table' [] false) (candidates source_dir excluded_paths tree)
  = ScanState table' [] false.
Proof.
  intros Hp Hd table'. pose proof (candidates_NoDup tree Hp Hd) as Hnd.
  assert (∀ c, c ∈ candidates source_dir excluded_paths tree →
            default 0 (table' !! c.1.1) = c.2) as Hrec.
  { intros c Hc. by apply foldl_record_recorded. }
  clear Hnd. revert Hrec. generalize (candidates source_dir excluded_paths tree).
  intros cs Hrec. induction cs as [|c cs IH]; [done|]. simpl.
  assert (record (ScanState table' [] false) c = ScanState table' [] false) as ->.
  { unfold record. simpl. rewrite decide_False; [done|].
    intros Hne. apply Hne. symmetry. apply Hrec. by left. }
  apply IH. intros c' Hc'. apply Hrec. by right.
Qed.

Lemma failed_report_result (changed : list (string * string)) (results : list bool) rel :
  FailedBackup rel ∈ zip_with report changed results → false ∈ results.
Proof.
  revert results. induction changed as [|c changed IH]; intros [|r results]; simpl;
    try by intros ?%elem_of_nil.
  rewrite !elem_of_cons. intros [Hr|Hr]; [|right; by apply IH].
  left. by destruct r.
Qed.

(** What one turn does, when no exception ends the loop. *)
Lemma turn_spec current_time σ (w : world W) table σ' w' :
  item_mod_times σ !! source_dir = Some table →
  turn current_time σ w = (Ok σ', w') →
  let s := walk (walk_view source_dir (fs w)) (ScanState table [] false) in
  ∃ report_error events σ2,
    (report_error = [] ∧ s.1 = Ok tt ∨
     report_error = [ErrAccessSource source_dir] ∧ s.1 = Raise OSError) ∧
    stdout w' = stdout w ++ report_error ++ events ∧
    σ' = timed source_dir current_time σ2 ∧
    item_mod_times σ2 = <[source_dir := mod_times s.2]> (item_mod_times σ) ∧
    (changed_items s.2 = [] →
       events = [] ∧ fs w' = fs w ∧ current_version σ2 = current_version σ) ∧
    (changed_items s.2 ≠ [] →
       ∃ results w1,
         commit (changed_items s.2) (scanned source_dir (mod_times s.2) σ) w1 = (Ok σ2, w') ∧
         stdout w1 = stdout w ++ report_error ∧
         length results = length (changed_items s.2) ∧
         filter (λ e, is_report e) events = zip_with report (changed_items s.2) results ∧
         (false ∈ results → current_version σ2 = current_version σ) ∧
         (∀ v, ChangesDetected v ∈ events ↔ v = next_version (current_version σ))).
Proof.
  intros Ht. rewrite (turn_eval _ _ _ _ Ht). cbv zeta.
  destruct (walk _ _) as [r sc]. simpl.
  assert (∀ w1 report_error,
    stdout w1 = stdout w ++ report_error → fs w1 = fs w →
    match changed_items sc with
    | [] => (Ok (timed source_dir current_time (scanned source_dir (mod_times sc) σ)), w1)
    | _ :: _ =>
        match commit (changed_items sc) (scanned source_dir (mod_times sc) σ) w1 with
        | (Ok σ2, w2) => (Ok (timed source_dir current_time σ2), w2)
        | (Raise e, w2) => (Raise e, w2)
        end
    end = (Ok σ', w') →
    ∃ events σ2,
      stdout w' = stdout w ++ report_error ++ events ∧
      σ' = timed source_dir current_time σ2 ∧
      item_mod_times σ2 = <[source_dir := mod_times sc]> (item_mod_times σ) ∧
      (changed_items sc = [] →
         events = [] ∧ fs w' = fs w ∧ current_version σ2 = current_version σ) ∧
      (changed_items sc ≠ [] →
         ∃ results w1,
           commit (changed_items sc) (scanned source_dir (mod_times sc) σ) w1 = (Ok σ2, w') ∧
           stdout w1 = stdout w ++ report_error ∧
           length results = length (changed_items sc) ∧
           filter (λ e, is_report e) events = zip_with report (changed_items sc) results ∧
           (false ∈ results → current_version σ2 = current_version σ) ∧
           (∀ v, ChangesDetected v ∈ events ↔ v = next_version (current_version σ)))) as Hrest.
  { intros w1 report_error Hout Hfs. destruct (changed_items sc) as [|c cs] eqn:E.
    - intros [= <- <-]. exists [], (scanned source_dir (mod_times sc) σ).
      rewrite app_nil_r. by split_and!.
    - rewrite <-E.
      destruct (commit_spec project_name config_file_path backup_dir excluded_paths
                  (changed_items sc) (scanned source_dir (mod_times sc) σ) w1)
        as (results & events & σ2 & w2 & Hc & Hout2 & Hlen & Hrep & Hfail & Hok & Hver & Hm & _ & Hv & _).
      rewrite Hc. intros [= <- <-]. exists events, σ2. split_and!; try done.
      + by rewrite Hout2, Hout, <-app_assoc.
      + by rewrite E.
      + intros _. exists results, w1. split_and!; try done.
        intros Hf. destruct Hver as [[_ Hu]|[? _]]; [|done].
        assert (Forall (λ r, r = true) results) as Hall by (apply Hok; by left).
        rewrite Forall_forall in Hall. by specialize (Hall _ Hf). }
  destruct r as [[]|e]; [|destruct (decide (e = OSError)) as [->|]; [|done]].
  - intros Hturn. destruct (Hrest w []) as (events & σ2 & ?); [by rewrite app_nil_r|done..|].
    exists [], events, σ2. split; [by left|done].
  - intros Hturn.
    destruct (Hrest (say (ErrAccessSource source_dir) w) [ErrAccessSource source_dir])
      as (events & σ2 & ?); [done..|].
    exists [ErrAccessSource source_dir], events, σ2. split; [by right|done].
Qed.

(** C1, without the retry of the items.  When a turn reports a failed copy,
    the current version keeps its value and the commit was labelled with
    the next build number; any commit of the following turn is labelled
    with that same build number.  The items of the failed commit are not
    kept for it: on the same tree (plain, distinct names) the following
    turn detects no change, prints at most the error of the walk, copies
    nothing and leaves the version as it is. *)
Theorem failed_commit_next_cycle current_time next_time σ (w : world W) table σ' w'
    events rel_path :
  item_mod_times σ !! source_dir = Some table →
  turn current_time σ w = (Ok σ', w') →
  stdout w' = stdout w ++ events →
  FailedBackup rel_path ∈ events →
  current_version σ' = current_version σ ∧
  ChangesDetected (next_version (current_version σ)) ∈ events ∧
  (∀ w2 σ2 w2' events2 v,
     turn next_time σ' w2 = (Ok σ2, w2') →
     stdout w2' = stdout w2 ++ events2 →
     ChangesDetected v ∈ events2 → v = next_version (current_version σ)) ∧
  (∀ w2,
     walk_view source_dir (fs w2) = walk_view source_dir (fs w) →
     plain_names (walk_view source_dir (fs w)) = true →
     distinct_names (walk_view source_dir (fs w)) = true →
     ∃ σ2 events2,
       turn next_time σ' w2 = (Ok σ2, World (stdout w2 ++ events2) (fs w2)) ∧
       (events2 = [] ∨ events2 = [ErrAccessSource source_dir]) ∧
       current_version σ2 = current_version σ).
Proof.
  intros Ht Hturn Hout Hfail.
  destruct (turn_spec _ _ _ _ _ _ Ht Hturn)
    as (err & evs & σ1 & Herr & Hout1 & -> & Hm & Hnone & Hsome).
  rewrite Hout in Hout1. apply app_inv_head in Hout1. subst events.
  assert (FailedBackup rel_path ∈ evs) as Hfail'.
  { apply elem_of_app in Hfail as [Hfail|]; [|done].
    destruct Herr as [[-> _]|[-> _]]; [by apply elem_of_nil in Hfail|].
    by apply list_elem_of_singleton in Hfail. }
  set (sc := (walk (walk_view source_dir (fs w)) (ScanState table [] false)).2) in *.
  destruct (decide (changed_items sc = [])) as [Hnil|Hne].
  { destruct (Hnone Hnil) as [-> _]. by apply elem_of_nil in Hfail'. }
  destruct (Hsome Hne) as (results & w1 & Hc & Hw1 & Hlen & Hrep & Hkeep & Hv).
  assert (false ∈ results) as Hfalse.
  { eapply failed_report_result. rewrite <-Hrep. apply list_elem_of_filter. by split. }
  assert (item_mod_times (timed source_dir current_time σ1) !! source_dir
          = Some (mod_times sc)) as Ht2.
  { simpl. rewrite Hm. by rewrite lookup_insert_eq. }
  split_and!.
  - simpl. by apply Hkeep.
  - apply elem_of_app. right. by apply Hv.
  - intros w2 σ2 w2' events2 v Hturn2 Hout2 Hin.
    destruct (turn_spec _ _ _ _ _ _ Ht2 Hturn2)
      as (err2 & evs2 & σ3 & Herr2 & Hout3 & _ & _ & Hnone2 & Hsome2).
    rewrite Hout2 in Hout3. apply app_inv_head in Hout3. subst events2.
    apply elem_of_app in Hin as [Hin|Hin].
    { destruct Herr2 as [[-> _]|[-> _]]; [by apply elem_of_nil in Hin|].
      by apply list_elem_of_singleton in Hin. }
    match type of Hnone2 with changed_items ?s = [] → _ =>
      destruct (decide (changed_items s = [])) as [Hnil2|Hne2] end.
    { destruct (Hnone2 Hnil2) as [-> _]. by apply elem_of_nil in Hin. }
    destruct (Hsome2 Hne2) as (_ & _ & _ & _ & _ & _ & _ & Hv2).
    apply Hv2 in Hin. simpl in Hin. by rewrite Hkeep in Hin.
  - intros w2 Hsame Hp Hd.
    rewrite (turn_eval _ _ _ _ Ht2), Hsame. cbv zeta.
    subst sc. rewrite (walk_plain _ table Hp). simpl.
    rewrite (walk_plain _ _ Hp), (rescan_unchanged _ table Hp Hd). simpl.
    destruct (visits excluded_paths source_dir (walk_view source_dir (fs w))).2; simpl.
    + eexists _, [ErrAccessSource source_dir]. split_and!; [done|by right|].
      simpl. by apply Hkeep.
    + eexists _, []. rewrite app_nil_r. split_and!; [by destruct w2|by left|].
      simpl. by apply Hkeep.
Qed.

End TurnFacts.

Section Exclusions.
Context {W : Type} `{!Host W}.

Lemma normalize_excluded_fold source_dir raws : ∀ acc (w : world W),
  for_fold (normalize_excluded_path source_dir) (VStr <$> raws) acc w
  = (Ok (acc ++ excluded_entries source_dir raws), w).
Proof.
  induction raws as [|raw raws IH]; intros acc w; simpl.
  { by rewrite app_nil_r. }
  rewrite bind_eval. unfold normalize_excluded_path at 1. simpl. st_run.
  unfold excluded_entries, excluded_entry. simpl.
  destruct (Py.is_empty (Py.strip raw)); st_run; [apply IH|].
  destruct (PosixPath.isabs (Py.strip raw)); st_run; rewrite IH; simpl;
    by rewrite <-app_assoc.
Qed.

Lemma raw_entries_list l raws :
  mapM (λ x, match x with VStr s => Some s | _ => None end) l = Some raws →
  l = VStr <$> raws.
Proof.
  intros Hm%mapM_Some_1. induction Hm as [|x s l raws Hx _ IH]; [done|].
  rewrite fmap_cons. destruct x; simplify_eq. by f_equal.
Qed.

Lemma index_raises {A} (l : list A) i e : index l i = Raise e → e = IndexError.
Proof. unfold index. repeat case_match; congruence. Qed.

Lemma normalize_excluded_item_eval source_dirs m item (w : world W) :
  is_Some (raw_entries item.2) →
  normalize_excluded_item source_dirs m item w
  = (Ok (store_entry source_dirs m item),
     if index_warned source_dirs item.1 then say (WarnExcludedIndex item.1) w else w).
Proof.
  destruct item as [index_str v]. intros [raws Hraws]. simpl in *.
  unfold normalize_excluded_item, store_entry, index_entry, index_warned, try_except. simpl.
  rewrite Hraws. st_run.
  destruct (Py.int index_str) as [i|e] eqn:Ei; st_run.
  2:{ by rewrite (int_raises _ _ Ei). }
  destruct (decide (i < Z.of_nat (length source_dirs))); st_run. 2:{ by rewrite bool_decide_false. }
  rewrite bool_decide_true by done. simpl.
  destruct (index source_dirs i) as [src|e] eqn:Es.
  2:{ st_run. by rewrite (index_raises _ _ _ Es). }
  destruct v; simplify_eq/=.
  - st_run. change [VStr s] with (VStr <$> [s]).
    by rewrite normalize_excluded_fold.
  - rewrite (raw_entries_list _ _ Hraws). st_run.
    by rewrite normalize_excluded_fold.
Qed.

Lemma normalize_excluded_paths_eval source_dirs dict : ∀ m (w : world W),
  Forall (λ item : string * value, is_Some (raw_entries item.2)) dict →
  for_fold (normalize_excluded_item source_dirs) dict m w
  = (Ok (foldl (store_entry source_dirs) m dict),
     World (stdout w ++ (WarnExcludedIndex <$> filter (λ k, index_warned source_dirs k) dict.*1))
           (fs w)).
Proof.
  induction dict as [|item dict IH]; intros m w Hty; simpl.
  { rewrite app_nil_r. by destruct w. }
  apply Forall_cons in Hty as [Hitem Hty].
  rewrite bind_eval, normalize_excluded_item_eval by done.
  rewrite IH by done. rewrite filter_cons.
  destruct (index_warned source_dirs item.1); simpl; [|done].
  by rewrite <-app_assoc.
Qed.

Lemma store_entries_lookup source_dirs dict : ∀ m i l,
  foldl (store_entry source_dirs) m dict !! i = Some l →
  m !! i = Some l ∨ ∃ item, item ∈ dict ∧ index_entry source_dirs item = Some (i, l).
Proof.
  induction dict as [|item dict IH]; intros m i l Hl; [by left|].
  simpl in Hl. apply IH in Hl as [Hl|(item' & ? & ?)].
  - unfold store_entry in Hl. destruct (index_entry source_dirs item) as [[j l']|] eqn:E.
    + rewrite lookup_insert in Hl. case_decide; [|by left].
      simplify_eq. right. exists item. split; [by left|done].
    + by left.
  - right. exists item'. split; [by right|done].
Qed.

(** C9, with the silent drop.  For a dictionary whose values are strings
    or lists of strings, [normalize_excluded_paths] returns a map in which
    every index is below the number of source directories; the list of a
    non-negative index comes from an item of the dictionary, a single
    string read as a list of one, each entry trimmed, dropped when empty,
    normalized directly when absolute and after joining to the normalized
    source directory of that index otherwise.  An index that is at least
    the number of source directories is dropped without a warning; the
    warning is printed for the keys that are no integer. *)
Theorem normalize_excluded_paths_spec dict source_dirs (w : world W) :
  Forall (λ item : string * value, is_Some (raw_entries item.2)) dict →
  ∃ m events,
    normalize_excluded_paths dict source_dirs w
      = (Ok m, World (stdout w ++ events) (fs w)) ∧
    (∀ i l, m !! i = Some l →
       i < Z.of_nat (length source_dirs) ∧
       (0 ≤ i → ∃ index_str v raws src,
          (index_str, v) ∈ dict ∧ Py.int index_str = Ok i ∧
          raw_entries v = Some raws ∧
          source_dirs !! Z.to_nat i = Some src ∧
          l = excluded_entries (normalize_path src) raws)) ∧
    (∀ index_str i,
       Py.int index_str = Ok i → Z.of_nat (length source_dirs) ≤ i →
       m !! i = None ∧ WarnExcludedIndex index_str ∉ events) ∧
    (∀ index_str v e,
       (index_str, v) ∈ dict → Py.int index_str = Raise e →
       WarnExcludedIndex index_str ∈ events).
Proof.
  intros Hty. unfold normalize_excluded_paths.
  rewrite normalize_excluded_paths_eval by done.
  eexists _, _. split; [reflexivity|].
  assert (∀ i l, foldl (store_entry source_dirs) ∅ dict !! i = Some l →
            ∃ item, item ∈ dict ∧ index_entry source_dirs item = Some (i, l)) as Hstored.
  { intros i l Hl. apply store_entries_lookup in Hl as [Hl|?]; [|done].
    by rewrite lookup_empty in Hl. }
  assert (∀ i l, foldl (store_entry source_dirs) ∅ dict !! i = Some l →
            i < Z.of_nat (length source_dirs)) as Hbound.
  { intros i l ([index_str v] & _ & He)%Hstored. unfold index_entry in He. simpl in He.
    repeat case_match; by simplify_eq. }
  split_and!.
  - intros i l Hl. split; [by eapply Hbound|]. intros Hi.
    destruct (Hstored i l Hl) as ([index_str v] & Hin & He).
    unfold index_entry in He. simpl in He.
    destruct (Py.int index_str) as [j|] eqn:Ej; [|done].
    destruct (decide _) as [Hj|]; [|done].
    destruct (index source_dirs j) as [src|] eqn:Es; [|done].
    destruct (raw_entries v) as [raws|] eqn:Er; [|done]. simplify_eq.
    exists index_str, v, raws, src. split_and!; try done.
    unfold index in Es. destruct (decide (i < 0)); [lia|].
    repeat case_match; by simplify_eq.
  - intros index_str i Hint Hi. split.
    + apply eq_None_not_Some. intros [l Hl]. apply Hbound in Hl. lia.
    + intros (k & [= <-] & [Hk _]%list_elem_of_filter)%list_elem_of_fmap.
      unfold index_warned in Hk. rewrite Hint in Hk.
      rewrite bool_decide_false in Hk by lia. done.
  - intros index_str v e Hin Hint. apply list_elem_of_fmap. exists index_str.
    split; [done|]. apply list_elem_of_filter. split.
    + unfold index_warned. by rewrite Hint.
    + apply list_elem_of_fmap. by exists (index_str, v).
Qed.

End Exclusions.

(** C3.  [is_path_excluded] takes the relative path for a descendant when
    its text does not begin with two dots: the item [..cache] of the
    excluded [/a/b] lies below it, as the wording of the specification has
    it, and is not excluded. *)
Theorem is_path_excluded_dotted_name :
  is_path_excluded (W:=toy_fs) "/a/b/..cache" ["/a/b"] = false ∧
  excluded_in_words (W:=toy_fs) "/a/b/..cache" ["/a/b"] = true.
Proof. split; reflexivity. Qed.

Example parse_version_examples :
  (parse_version (VStr "1.2") (toy_world empty_dir [])).1 = Ok [1; 2; 0; 0] ∧
  (parse_version (VStr "1.2.3.4.5") (toy_world empty_dir [])).1 = Ok [1; 2; 3; 4] ∧
  (parse_version (VStr " 1.2.3.4 ") (toy_world empty_dir [])).1 = Ok [1; 2; 3; 4] ∧
  (parse_version (VStr "1.x") (toy_world empty_dir [])).1 = Ok [1; 0; 0; 0] ∧
  (parse_version (VStr "") (toy_world empty_dir [])).1 = Ok [1; 0; 0; 0] ∧
  (parse_version (VInt 7) (toy_world empty_dir [])).1 = Ok [1; 0; 0; 0] ∧
  (parse_version VNone (toy_world empty_dir [])).1 = Ok [1; 0; 0; 0].
Proof. repeat split; reflexivity. Qed.

Example is_path_excluded_examples :
  is_path_excluded (W:=toy_fs) "/a/b" ["/a/b"] = true ∧
  is_path_excluded (W:=toy_fs) "/a/b/c/d" ["/a/b"] = true ∧
  is_path_excluded (W:=toy_fs) "/a/bc" ["/a/b"] = false ∧
  is_path_excluded (W:=toy_fs) "" ["/a/b"] = false ∧
  is_path_excluded (W:=toy_fs) "/a/b" [] = false.
Proof. repeat split; reflexivity. Qed.

(** C2.  The scan compares a modification time with [0] when the table has
    no entry for the path.  On the first scan, from the empty table, an
    existing and readable item that is not excluded and whose modification
    time is [0] is not emitted as changed and gets no entry. *)
Theorem first_scan_skips_epoch_mtime :
  walk (W:=toy_fs) "/src" [] "/src" epoch_file (ScanState ∅ [] false)
  = (Ok tt, ScanState ∅ [] false).
Proof. reflexivity. Qed.

(** C1 as it is worded: after a commit in which [b.txt] failed, the next
    turn on the same tree attempts no copy at all and prints nothing. *)
Lemma failed_items_not_retried :
  ∃ σ1 w1,
    toy_turn 10 start (toy_world two_files ["/src/b.txt"]) = (Ok σ1, w1) ∧
    FailedBackup "b.txt" ∈ stdout w1 ∧
    toy_turn 20 σ1 w1
      = (Ok (MonitorState (item_mod_times σ1) {["/src" := 20]} (current_version σ1)), w1).
Proof.
  eexists _, _. split; [vm_compute; reflexivity|]. split.
  - simpl. repeat constructor.
  - vm_compute. reflexivity.
Qed.

(** C5 as it is worded: an error of the walk below the source directory is
    reported, and the commit of the two items found before it runs and
    advances the version. *)
Lemma walk_error_keeps_changes :
  ∃ σ' w',
    toy_turn 10 start (toy_world broken_subdir []) = (Ok σ', w') ∧
    stdout w' = [ErrAccessSource "/src"; ChangesDetected "1.0.0.1";
                 BackupLocation "/backup/proj_v1.0.0.1";
                 BackedUp "sub"; BackedUp "a.txt"; UpdatedVersion "1.0.0.1"; BlankLine] ∧
    current_version σ' = "1.0.0.1".
Proof. eexists _, _. split; [vm_compute; reflexivity|]. split; reflexivity. Qed.

(** C9 as it is worded: the index 5, with one source directory, is dropped
    and no warning is printed. *)
Lemma excluded_index_dropped_silently :
  normalize_excluded_paths [("5", VStr "build")] ["/src"] (toy_world two_files [])
  = (Ok ∅, toy_world two_files []).
Proof. vm_compute. reflexivity. Qed.

(** Two cycles over a tree whose [build] directory is excluded. *)
Lemma excluded_never_tracked_witness :
  (scan_cycles (W:=toy_fs) "/src" ["/src/build"] [with_build 8; with_build 9] ∅).1
    !! PosixPath.join_all (PosixPath.join_all "/src" ["build"]) ["out.o"] = None ∧
  Forall (λ changed : list (string * string),
            PosixPath.join_all (PosixPath.join_all "/src" ["build"]) ["out.o"] ∉ changed.*1)
         (scan_cycles (W:=toy_fs) "/src" ["/src/build"] [with_build 8; with_build 9] ∅).2.
Proof.
  apply (excluded_never_tracked (W:=toy_fs) "/src" ["/src/build"]
           [with_build 8; with_build 9] ["build"] ["out.o"]).
  - repeat constructor.
  - repeat constructor.
  - repeat constructor.
  - reflexivity.
Defined.

(** A turn whose walk fails at the directory [sub]. *)
Lemma turn_after_walk_error_witness :
  ∃ σ' w' events,
    toy_turn 10 start (toy_world broken_subdir []) = (Ok σ', w') ∧
    stdout w' = ErrAccessSource "/src" :: events.
Proof.
  destruct (turn_after_walk_error (W:=toy_fs) "proj" "config.json" "/src" "/backup" []
              10 start (toy_world broken_subdir []) ∅
              (walk (W:=toy_fs) "/src" [] "/src" broken_subdir (ScanState ∅ [] false)).2)
    as (σ' & w' & events & Hturn & Hout & _).
  - reflexivity.
  - vm_compute. reflexivity.
  - by exists σ', w', events.
Defined.

(** A turn in which the copy of [b.txt] fails. *)
Lemma failed_commit_next_cycle_witness :
  ∃ σ', current_version σ' = current_version start ∧
        (toy_turn 10 start (toy_world two_files ["/src/b.txt"])).1 = Ok σ'.
Proof.
  exists (MonitorState {["/src" := {["/src/a.txt" := 5; "/src/b.txt" := 6]}]}
                       {["/src" := 10]} "1.0.0.0").
  split; [|vm_compute; reflexivity].
  refine (proj1 (failed_commit_next_cycle (W:=toy_fs) "proj" "config.json" "/src" "/backup" []
            10 20 start (toy_world two_files ["/src/b.txt"]) ∅ _
            (World [ChangesDetected "1.0.0.1"; BackupLocation "/backup/proj_v1.0.0.1";
                    BackedUp "a.txt"; ErrCopy "/src/b.txt" "/backup/proj_v1.0.0.1";
                    FailedBackup "b.txt"; VersionNotUpdated; BlankLine]
                   (ToyFS two_files ["/src/b.txt"] false
                          [("/src/a.txt", "/backup/proj_v1.0.0.1/a.txt")]))
            [ChangesDetected "1.0.0.1"; BackupLocation "/backup/proj_v1.0.0.1";
             BackedUp "a.txt"; ErrCopy "/src/b.txt" "/backup/proj_v1.0.0.1";
             FailedBackup "b.txt"; VersionNotUpdated; BlankLine]
            "b.txt" _ _ _ _)).
  - reflexivity.
  - vm_compute. reflexivity.
  - reflexivity.
  - repeat constructor.
Defined.

(** A dictionary with the indices 0 and 7 for one source directory. *)
Lemma normalize_excluded_paths_spec_witness :
  ∃ m events,
    normalize_excluded_paths
      [("0", VList [VStr " build "; VStr "  "; VStr "/abs/x"]); ("7", VStr "far")]
      ["/src"] (toy_world two_files [])
    = (Ok m, World events (ToyFS two_files [] false [])) ∧
    m !! 7 = None.
Proof.
  destruct (normalize_excluded_paths_spec (W:=toy_fs)
              [("0", VList [VStr " build "; VStr "  "; VStr "/abs/x"]); ("7", VStr "far")]
              ["/src"] (toy_world two_files []))
    as (m & events & Heq & _ & Hdrop & _).
  - repeat constructor; by eexists.
  - exists m, events. split; [exact Heq|].
    apply (Hdrop "7" 7); [reflexivity|simpl; lia].
Defined.

Lemma NoDup_fmap_filter {A B} `{EqDecision B} (f : A → B) (P : A → bool) (l : list A) :
  NoDup (f <$> l) → NoDup (f <$> filter (λ x, P x) l).
Proof.
  induction l as [|x l IH]; [done|]. csimpl. intros [Hx Hnd]%NoDup_cons.
  rewrite filter_cons. destruct (P x); csimpl; [|by apply IH].
  constructor; [|by apply IH].
  intros (y & Hy & [_ Hin]%list_elem_of_filter)%list_elem_of_fmap.
  apply Hx. apply list_elem_of_fmap. by exists y.
Qed.

Section ScanProperties.
Context {W : Type} `{!Host W}.
Variables (source_dir : string) (excluded_paths : list string).

(** X1.  One scan emits, in the order of the walk, exactly the items that
    get as far as the comparison (not excluded, existing, with a readable
    modification time) and whose modification time differs from the value
    the table holds for their path, taken as [0] when it holds none; no
    path is emitted twice. *)
Theorem scan_emits_changed_candidates tree table :
  plain_names tree = true → distinct_names tree = true →
  changed_items (scan source_dir excluded_paths tree table)
    = (filter (λ c, differs table c) (candidates source_dir excluded_paths tree)).*1 ∧
  NoDup (changed_items (scan source_dir excluded_paths tree table)).*1.
Proof.
  intros Hp Hd. pose proof (candidates_NoDup source_dir excluded_paths tree Hp Hd) as Hnd.
  rewrite scan_record by done.
  rewrite foldl_record_changed by done. simpl. split; [done|].
  rewrite <-list_fmap_compose. apply NoDup_fmap_filter.
  by rewrite list_fmap_compose.
Qed.

(** X2.  After a scan the table holds, for every item that got as far as
    the comparison, the modification time just read; the entry of every
    other path is what it was: an entry is never removed, whether its item
    is deleted, excluded or out of reach. *)
Theorem scan_records_mtimes tree table :
  plain_names tree = true → distinct_names tree = true →
  (∀ c, c ∈ candidates source_dir excluded_paths tree →
     default 0 (mod_times (scan source_dir excluded_paths tree table) !! c.1.1) = c.2) ∧
  (∀ p, p ∉ (candidates source_dir excluded_paths tree).*1.*1 →
     mod_times (scan source_dir excluded_paths tree table) !! p = table !! p).
Proof.
  intros Hp Hd. pose proof (candidates_NoDup source_dir excluded_paths tree Hp Hd) as Hnd.
  rewrite scan_record by done. split.
  - intros c Hc. by apply foldl_record_recorded.
  - intros p Hp'. by rewrite foldl_record_other.
Qed.

(** X3.  A second scan of a tree that has not changed finds nothing: from
    the table that one scan leaves, the scan of the same tree emits no
    item, leaves the table as it is and does not ask for a backup. *)
Theorem rescan_detects_nothing tree table :
  plain_names tree = true → distinct_names tree = true →
  let table' := mod_times (scan source_dir excluded_paths tree table) in
  scan source_dir excluded_paths tree table' = ScanState table' [] false.
Proof.
  intros Hp Hd. cbv zeta. rewrite !scan_record by done.
  by apply rescan_unchanged.
Qed.

End ScanProperties.

Lemma scan_emits_changed_candidates_witness :
  changed_items (scan (W:=toy_fs) "/src" [] two_files {["/src/a.txt" := 5]})
    = [("/src/b.txt", "b.txt")].
Proof.
  destruct (scan_emits_changed_candidates (W:=toy_fs) "/src" [] two_files
              {["/src/a.txt" := 5]}) as [-> _]; reflexivity.
Defined.

Lemma scan_records_mtimes_witness :
  mod_times (scan (W:=toy_fs) "/src" [] two_files ∅) !! "/other" = None.
Proof.
  destruct (scan_records_mtimes (W:=toy_fs) "/src" [] two_files ∅) as [_ Hother];
    [reflexivity..|].
  rewrite Hother; [reflexivity|]. vm_compute.
  intros H. repeat (apply elem_of_cons in H as [H|H]; [discriminate|]).
  by apply elem_of_nil in H.
Defined.

Lemma rescan_detects_nothing_witness :
  scan (W:=toy_fs) "/src" [] two_files
    (mod_times (scan (W:=toy_fs) "/src" [] two_files ∅))
  = ScanState (mod_times (scan (W:=toy_fs) "/src" [] two_files ∅)) [] false.
Proof.
  apply (rescan_detects_nothing (W:=toy_fs) "/src" [] two_files ∅); reflexivity.
Defined.

Section CopyProperties.
Context {W : Type} `{!Host W}.

(** X4.  [copy_item] raises nothing.  When it returns [True] it has printed
    nothing; when it returns [False] it has printed exactly one line: the
    error of the directory, in which case nothing but the attempt to make
    the directory has touched the file system, or the error of the copy. *)
Theorem copy_item_reports_failure item_path backup_dir (w : world W) :
  ∃ copied w',
    copy_item item_path backup_dir w = (Ok copied, w') ∧
    (copied = true → stdout w' = stdout w) ∧
    (copied = false →
       stdout w' = stdout w ++ [ErrCreateDir backup_dir] ∧
         mkdir_parents backup_dir (fs w) = (false, fs w') ∨
       stdout w' = stdout w ++ [ErrCopy item_path backup_dir] ∧
         (mkdir_parents backup_dir (fs w)).1 = true).
Proof.
  unfold copy_item, ensure_directory_exists, sys, ask, print.
  repeat (rewrite bind_eval; simpl).
  destruct (mkdir_parents backup_dir (fs w)) as [[] f1] eqn:Em; simpl.
  2:{ eexists _, _. split; [reflexivity|]. split; [done|]. intros _. by left. }
  repeat (rewrite bind_eval; simpl).
  repeat match goal with
  | |- context [isdir ?p ?f] => destruct (isdir p f); simpl
  | |- context [exists_path ?p ?f] => destruct (exists_path p f); simpl
  | |- context [rmtree ?p ?f] => destruct (rmtree p f) as [[] ?]; simpl
  | |- context [copytree ?p ?q ?f] => destruct (copytree p q f) as [[] ?]; simpl
  | |- context [copy2 ?p ?q ?f] => destruct (copy2 p q f) as [[] ?]; simpl
  | _ => rewrite bind_eval; simpl
  end;
  eexists _, _; (split; [reflexivity|]); simpl; split; try done; intros _; by right.
Qed.

End CopyProperties.

Section TurnProperties.
Context {W : Type} `{!Host W}.
Variables (project_name config_file_path : string).
Variables (backup_times : gmap string value) (excluded_by_index : gmap Z (list string)).

Lemma turn_frame source_dir backup_dir excluded_paths current_time σ
    (w : world W) table σ' w' :
  item_mod_times σ !! source_dir = Some table →
  turn project_name config_file_path source_dir backup_dir excluded_paths current_time σ w
    = (Ok σ', w') →
  last_backup_times σ' !! source_dir = Some current_time ∧
  (∀ other, other ≠ source_dir →
     item_mod_times σ' !! other = item_mod_times σ !! other ∧
     last_backup_times σ' !! other = last_backup_times σ !! other) ∧
  (current_version σ' = current_version σ ∨
   current_version σ' = next_version (current_version σ)).
Proof.
  intros Ht. rewrite (turn_eval _ _ _ _ _ _ _ _ _ Ht). cbv zeta.
  destruct (walk _ _ _ _ _) as [r sc]. simpl.
  assert (∀ w1,
    match changed_items sc with
    | [] => (Ok (timed source_dir current_time (scanned source_dir (mod_times sc) σ)), w1)
    | _ :: _ =>
        match commit project_name config_file_path backup_dir excluded_paths
                (changed_items sc) (scanned source_dir (mod_times sc) σ) w1 with
        | (Ok σ2, w2) => (Ok (timed source_dir current_time σ2), w2)
        | (Raise e, w2) => (Raise e, w2)
        end
    end = (Ok σ', w') →
    last_backup_times σ' !! source_dir = Some current_time ∧
    (∀ other, other ≠ source_dir →
       item_mod_times σ' !! other = item_mod_times σ !! other ∧
       last_backup_times σ' !! other = last_backup_times σ !! other) ∧
    (current_version σ' = current_version σ ∨
     current_version σ' = next_version (current_version σ))) as Hrest.
  { intros w1. destruct (changed_items sc) as [|c cs] eqn:E.
    - intros [= <- <-]. simpl. rewrite lookup_insert_eq. split_and!; [done| |by left].
      intros other Hne. by rewrite !lookup_insert_ne.
    - rewrite <-E.
      destruct (commit_spec project_name config_file_path backup_dir excluded_paths
                  (changed_items sc) (scanned source_dir (mod_times sc) σ) w1)
        as (results & events & σ2 & w2 & -> & _ & _ & _ & _ & _ & Hver & Hm & Hl & _).
      intros [= <- <-]. simpl. rewrite lookup_insert_eq, Hm, Hl. simpl.
      split_and!; [done| |].
      + intros other Hne. by rewrite !lookup_insert_ne.
      + destruct Hver as [[-> _]|[-> _]]; [by right|by left]. }
  destruct r as [[]|e]; [|destruct (decide (e = OSError)) as [->|]; [|done]];
    apply Hrest.
Qed.

(** X5.  A turn that returns sets the time of the last backup of its own
    source directory, leaves the table and the time of every other source
    directory as they were, and leaves the version as it was or at the
    next build number. *)
Theorem turn_touches_own_source source_dir backup_dir excluded_paths current_time σ
    (w : world W) table σ' w' :
  item_mod_times σ !! source_dir = Some table →
  turn project_name config_file_path source_dir backup_dir excluded_paths current_time σ w
    = (Ok σ', w') →
  last_backup_times σ' !! source_dir = Some current_time ∧
  (∀ other, other ≠ source_dir →
     item_mod_times σ' !! other = item_mod_times σ !! other ∧
     last_backup_times σ' !! other = last_backup_times σ !! other) ∧
  (current_version σ' = current_version σ ∨
   current_version σ' = next_version (current_version σ)).
Proof. apply turn_frame. Qed.

(** X6.  Once a turn has run for a source directory at the time [t], a
    poll of that pair at a time less than [delay] after [t] scans nothing:
    it leaves the state and the world as they are.  The delay is the
    value of [backup_times] for the number of the pair, [5] without one. *)
Theorem poll_pair_waits_for_delay source_dir backup_dir i t t' delay σ (w : world W)
    table σ' w' :
  item_mod_times σ !! source_dir = Some table →
  turn project_name config_file_path source_dir backup_dir
       (default [] (excluded_by_index !! Z.of_nat i)) t σ w = (Ok σ', w') →
  int_of_value (default (VInt 5) (backup_times !! Py.str (Z.of_nat i))) = Ok delay →
  t' - t < delay →
  poll_pair project_name config_file_path backup_times excluded_by_index t' σ'
            (source_dir, backup_dir, i) w' = (Ok σ', w').
Proof.
  intros Ht Hturn Hdelay Hlt.
  destruct (turn_frame _ _ _ _ _ _ _ _ _ Ht Hturn) as [Hlast _].
  unfold poll_pair, item. rewrite Hdelay, Hlast. st_run.
  rewrite decide_False by lia. done.
Qed.

End TurnProperties.

Lemma StronglySorted_sublist {A} (R : relation A) (l1 l2 : list A) :
  sublist l1 l2 → StronglySorted R l2 → StronglySorted R l1.
Proof.
  induction 1 as [|x l1 l2 Hs IH|x l1 l2 Hs IH]; intros Hl2; [done|..].
  - apply StronglySorted_inv in Hl2 as [Hl2 Hx]. constructor; [by apply IH|].
    rewrite Forall_forall in Hx |- *. intros y Hy. apply Hx.
    by eapply elem_of_sublist.
  - apply StronglySorted_inv in Hl2 as [Hl2 _]. by apply IH.
Qed.

Lemma StronglySorted_seq a n : StronglySorted lt (seq a n).
Proof.
  revert a. induction n as [|n IH]; intros a; simpl; constructor; [apply IH|].
  apply Forall_seq. intros; lia.
Qed.

Section ValidateProperties.
Context {W : Type} `{!Host W}.




End ValidateProperties.

Section MonitorProperties.
Context {W : Type} `{!Host W}.
Variables (project_name config_file_path : string).
Variables (backup_times : gmap string value) (excluded_by_index : gmap Z (list string)).

Lemma monitor_directories_eval source_dirs backup_dirs project_version schedule
    (w : world W) valid_pairs w1 :
  validate_directories source_dirs backup_dirs excluded_by_index w = (Ok valid_pairs, w1) →
  monitor_directories project_name config_file_path backup_times excluded_by_index
    source_dirs backup_dirs project_version schedule w
  = match valid_pairs with
    | [] => (Ok tt, say ErrNoValidPairs w1)
    | _ =>
        let w2 := say (Starting (length valid_pairs)) w1 in
        let parsed := parse_version project_version w2 in
        let σ := MonitorState (list_to_map ((λ p, (p.1.1, ∅)) <$> valid_pairs))
                              (list_to_map ((λ p, (p.1.1, 0)) <$> valid_pairs))
                              (format_version
                                 (default [1; 0; 0; 0]
                                    (numeric_interpretation project_version))) in
        match poll project_name config_file_path backup_times excluded_by_index
                valid_pairs schedule σ parsed.2 with
        | (Ok _, w') => (Ok tt, w')
        | (Raise e, w') => (Ok tt, say (UnexpectedError e) w')
        end
    end.
Proof.
  intros Hv. unfold monitor_directories. rewrite bind_eval, Hv. simpl.
  destruct valid_pairs as [|p ps]; [done|].
  unfold print at 1. rewrite bind_eval. simpl. rewrite bind_eval.
  fold (say (Starting (S (length ps))) w1).
  destruct (parse_version_eval project_version (say (Starting (S (length ps))) w1))
    as (l & w2 & Hp & _ & Hl).
  rewrite Hp. simpl.
  assert (l = default [1; 0; 0; 0] (numeric_interpretation project_version)) as ->.
  { by destruct (numeric_interpretation project_version); destruct Hl as [-> _]. }
  unfold try_except_any. rewrite bind_eval.
  by destruct (poll _ _ _ _ _ _ _ _) as [[σ'|e] w'].
Qed.


Lemma poll_pair_bad_delay current_time σ source_dir backup_dir i e (w : world W) :
  delay_of backup_times i = Raise e →
  poll_pair project_name config_file_path backup_times excluded_by_index current_time σ
            (source_dir, backup_dir, i) w = (Raise e, w).
Proof. unfold delay_of, poll_pair. intros ->. by st_run. Qed.

Lemma tick_bad_delay valid_pairs current_time : ∀ σ (w : world W),
  Exists (λ pair : string * string * nat, ∃ e, delay_of backup_times pair.2 = Raise e)
         valid_pairs →
  ∃ e w', tick project_name config_file_path backup_times excluded_by_index
               valid_pairs current_time σ w = (Raise e, w').
Proof.
  induction valid_pairs as [|[[s b] i] ps IH]; intros σ w Hex.
  { by apply Exists_nil in Hex. }
  unfold tick. cbn [for_fold]. rewrite bind_eval. fold (tick project_name config_file_path backup_times excluded_by_index ps current_time).
  destruct (poll_pair project_name config_file_path backup_times excluded_by_index
              current_time σ (s, b, i) w) as [[σ1|e1] w1] eqn:Ep; [|by eexists _, _].
  apply Exists_cons in Hex as [[e He]|Hex].
  - simpl in He. by rewrite (poll_pair_bad_delay current_time σ s b i e w He) in Ep.
  - by apply IH.
Qed.

(** X9.  A delay that [int] cannot convert ends the monitoring in the first
    poll cycle: when the value of [backup_times] for some valid pair is no
    number, [monitor_directories] ends with the line of an unexpected
    error, and what it does depends neither on the later poll cycles nor
    on what happens during the first sleep, which it never reaches. *)
Theorem bad_delay_stops_monitoring source_dirs backup_dirs project_version
    current_time outside schedule (w : world W) valid_pairs w1 :
  validate_directories source_dirs backup_dirs excluded_by_index w = (Ok valid_pairs, w1) →
  Exists (λ pair : string * string * nat, ∃ e, delay_of backup_times pair.2 = Raise e)
         valid_pairs →
  ∃ e w',
    monitor_directories project_name config_file_path backup_times excluded_by_index
      source_dirs backup_dirs project_version ((current_time, outside) :: schedule) w
    = (Ok tt, say (UnexpectedError e) w') ∧
    ∀ outside' schedule',
      monitor_directories project_name config_file_path backup_times excluded_by_index
        source_dirs backup_dirs project_version ((current_time, outside') :: schedule') w
      = (Ok tt, say (UnexpectedError e) w').
Proof.
  intros Hv Hex.
  assert (∀ outside' schedule' σ (w2 : world W),
    ∃ e w', poll project_name config_file_path backup_times excluded_by_index valid_pairs
                 ((current_time, outside') :: schedule') σ w2 = (Raise e, w') ∧
            tick project_name config_file_path backup_times excluded_by_index valid_pairs
                 current_time σ w2 = (Raise e, w')) as Hpoll.
  { intros outside' schedule' σ w2.
    destruct (tick_bad_delay valid_pairs current_time σ w2 Hex) as (e & w' & Ht).
    exists e, w'. split; [|done]. simpl. by rewrite bind_eval, Ht. }
  destruct valid_pairs as [|p ps]; [by apply Exists_nil in Hex|].
  set (pairs := p :: ps) in *.
  set (w2 := (parse_version project_version (say (Starting (length pairs)) w1)).2).
  set (σ := MonitorState (list_to_map ((λ p, (p.1.1, ∅)) <$> pairs))
                         (list_to_map ((λ p, (p.1.1, 0)) <$> pairs))
                         (format_version
                            (default [1; 0; 0; 0] (numeric_interpretation project_version)))).
  destruct (Hpoll outside schedule σ w2) as (e & w' & Hp & Ht).
  exists e, w'. split.
  - rewrite (monitor_directories_eval _ _ _ _ _ _ _ Hv). subst pairs. cbv zeta.
    fold σ. fold w2. by rewrite Hp.
  - intros outside' schedule'.
    rewrite (monitor_directories_eval _ _ _ _ _ _ _ Hv). subst pairs. cbv zeta.
    fold σ. fold w2. destruct (Hpoll outside' schedule' σ w2) as (e' & w'' & Hp' & Ht').
    rewrite Hp'. rewrite Ht in Ht'. by injection Ht' as <- <-.
Qed.

End MonitorProperties.

Lemma str_minus z : z < 0 → Py.str z = String "-" (Py.str (- z)).
Proof. destruct z; try lia. intros _. reflexivity. Qed.

Lemma str_signed z : signed (Py.str z) = true.
Proof.
  destruct (Z_lt_le_dec z 0) as [Hz|Hz].
  - rewrite str_minus by done. simpl.
    destruct (str_canonical (- z)) as [[Hn _]%andb_prop _]; [lia|]. done.
  - destruct (str_canonical z Hz) as [[Hn _]%andb_prop _].
    unfold signed. destruct (Py.str z) as [|c r] eqn:E; [done|].
    destruct (decide (c = "-"%char)) as [->|Hc]; [|by repeat case_match].
    by apply andb_prop in Hn as [_ [? _]%andb_prop].
Qed.

Lemma int_minus g : numeral g = true → Py.int (String "-" g) = Ok (- numeral_value g).
Proof.
  intros Hg. pose proof Hg as [Hne Hd]%andb_prop. unfold Py.int, numeral_value.
  assert (Py.lstrip_with Py.int_blank (String "-" g) = String "-" g) as -> by done.
  assert (Py.rstrip_with Py.int_blank (String "-" g) = String "-" g) as ->.
  { simpl. by rewrite (rstrip_with_all _ _ digit_not_blank Hd). }
  destruct (uint_of_numeral _ Hd) as [u Hu].
  rewrite literal_digits_all; [|done|right; by destruct g]. simpl. by rewrite Hu.
Qed.

Lemma int_str z : Py.int (Py.str z) = Ok z.
Proof.
  destruct (Z_lt_le_dec z 0) as [Hz|Hz].
  - rewrite str_minus by done.
    destruct (str_canonical (- z)) as [[Hn _]%andb_prop Hv]; [lia|].
    rewrite int_minus, Hv by done. f_equal. lia.
  - destruct (str_canonical z Hz) as [[Hn _]%andb_prop Hv].
    by rewrite int_numeral, Hv.
Qed.

Lemma all_digits_no_dot g : all_digits g = true → no_dot g = true.
Proof.
  induction g as [|c g IH]; [done|]. simpl. intros [Hc Hg]%andb_prop.
  rewrite IH by done. by digit_cases Hc.
Qed.

Lemma signed_no_dot g : signed g = true → no_dot g = true.
Proof.
  unfold signed. destruct g as [|c g]; [done|].
  destruct (decide (c = "-"%char)) as [->|Hc].
  - intros [_ Hd]%andb_prop. simpl. by apply all_digits_no_dot.
  - intros Hn. assert (numeral (String c g) = true) as [_ Hd]%andb_prop
      by (by repeat case_match).
    by apply all_digits_no_dot.
Qed.

Lemma split_no_dot g : no_dot g = true → Py.split "." g = [g].
Proof.
  induction g as [|c g IH]; [done|]. simpl. intros [Hc Hg]%andb_prop.
  rewrite decide_False by (by intros ->). by rewrite IH.
Qed.

Lemma split_dot g rest :
  no_dot g = true → Py.split "." (g +:+ "." +:+ rest) = g :: Py.split "." rest.
Proof.
  induction g as [|c g IH]; [done|]. rewrite app_cons. simpl. intros [Hc Hg]%andb_prop.
  rewrite decide_False by (by intros ->). by rewrite IH.
Qed.

Lemma split_dotted g1 g2 g3 g4 :
  no_dot g1 = true → no_dot g2 = true → no_dot g3 = true → no_dot g4 = true →
  Py.split "." (dotted g1 g2 g3 g4) = [g1; g2; g3; g4].
Proof.
  intros. unfold dotted.
  by rewrite !split_dot, split_no_dot.
Qed.

Lemma signed_cases g :
  signed g = true → numeral g = true ∨ ∃ r, g = String "-" r ∧ numeral r = true.
Proof.
  unfold signed. destruct g as [|c g]; [by left|].
  destruct (decide (c = "-"%char)) as [->|Hc]; [right; by eexists|].
  intros Hn. left. by repeat case_match.
Qed.

Lemma strip_signed_dotted g1 g2 g3 g4 :
  signed g1 = true → signed g4 = true →
  Py.strip (dotted g1 g2 g3 g4) = dotted g1 g2 g3 g4.
Proof.
  intros H1 H4. unfold Py.strip, dotted.
  assert (∀ r, Py.lstrip_with Py.isspace (g1 +:+ r) = g1 +:+ r) as ->.
  { intros r. apply signed_cases in H1 as [H1|(g & -> & _)]; [|done].
    by apply lstrip_with_digit; [apply digit_not_space|]. }
  apply signed_cases in H4 as [H4|(g & -> & H4)].
  - rewrite <-!app_assoc_str. apply rstrip_with_app.
    + apply andb_prop in H4 as [_ H4]. by apply rstrip_with_all; [apply digit_not_space|].
    + by destruct g4.
  - change (String "-" g) with ("-" +:+ g). rewrite <-!app_assoc_str. apply rstrip_with_app.
    + apply andb_prop in H4 as [_ H4]. by apply rstrip_with_all; [apply digit_not_space|].
    + by destruct g.
Qed.

Lemma re_match_version_minus g1 g2 g3 g4 :
  signed g1 = true → signed g2 = true → signed g3 = true → signed g4 = true →
  ¬ (numeral g1 = true ∧ numeral g2 = true ∧ numeral g3 = true ∧ numeral g4 = true) →
  re_match_version (dotted g1 g2 g3 g4) = None.
Proof.
  intros H1 H2 H3 H4 Hno. unfold re_match_version, dotted.
  change (String.append ".") with (String ".").
  apply signed_cases in H1 as [[N1 D1]%andb_prop|(r1 & -> & _)]; [|done].
  rewrite (span_digits_app g1) by done. cbv beta iota zeta.
  apply signed_cases in H2 as [[N2 D2]%andb_prop|(r2 & -> & _)]; [|done].
  rewrite (span_digits_app g2) by done. cbv beta iota zeta.
  apply signed_cases in H3 as [[N3 D3]%andb_prop|(r3 & -> & _)]; [|done].
  rewrite (span_digits_app g3) by done. cbv beta iota zeta.
  apply signed_cases in H4 as [[N4 D4]%andb_prop|(r4 & -> & _)].
  - destruct Hno. unfold numeral. by rewrite N1, N2, N3, N4, D1, D2, D3, D4.
  - simpl. by rewrite !andb_false_r.
Qed.

Lemma numeric_interpretation_format a b c d :
  numeric_interpretation (VStr (format_version [a; b; c; d])) = Some [a; b; c; d].
Proof.
  unfold format_version. rewrite format_version_dotted.
  pose proof (str_signed a) as Ha. pose proof (str_signed b) as Hb.
  pose proof (str_signed c) as Hc. pose proof (str_signed d) as Hd.
  unfold numeric_interpretation, version_parts.
  rewrite strip_signed_dotted by done.
  assert (mapM int_opt [Py.str a; Py.str b; Py.str c; Py.str d] = Some [a; b; c; d]) as Hm.
  { unfold int_opt. simpl. by rewrite !int_str. }
  destruct (re_match_version _) as [groups|] eqn:E.
  - destruct (decide (numeral (Py.str a) = true ∧ numeral (Py.str b) = true ∧
                      numeral (Py.str c) = true ∧ numeral (Py.str d) = true))
      as [(Na & Nb & Nc & Nd)|Hno].
    + rewrite re_match_version_dotted in E by done. by injection E as <-.
    + by rewrite re_match_version_minus in E.
  - by rewrite split_dotted by (by apply signed_no_dot).
Qed.

Section VersionText.
Context {W : Type} `{!Host W}.

Lemma parse_format_version_any a b c d (w : world W) :
  parse_version (VStr (format_version [a; b; c; d])) w = (Ok [a; b; c; d], w).
Proof.
  destruct (parse_version_eval (VStr (format_version [a; b; c; d])) w)
    as (l & w' & -> & _ & Hl).
  rewrite numeric_interpretation_format in Hl. by destruct Hl as [-> ->].
Qed.

(** X10.  Formatting four integers and parsing the text gives the four
    integers back, whatever their signs, and prints no warning. *)
Theorem format_then_parse_version a b c d (w : world W) :
  parse_version (VStr (format_version [a; b; c; d])) w = (Ok [a; b; c; d], w).
Proof. apply parse_format_version_any. Qed.

End VersionText.

Lemma numeric_interpretation_length version_str l :
  numeric_interpretation version_str = Some l → length l = 4%nat.
Proof.
  unfold numeric_interpretation, version_parts.
  destruct version_str as [| | | |s| |]; try done. simpl.
  intros Hm%length_mapM. rewrite <-Hm.
  destruct (re_match_version (Py.strip s)) eqn:E.
  - by eapply re_match_version_length.
  - apply pad4_length.
Qed.

(** The four components from which a commit from the version [v] counts. *)
Lemma next_version_eval v :
  ∃ a b c d,
    default [1; 0; 0; 0] (numeric_interpretation (VStr v)) = [a; b; c; d] ∧
    next_version v = format_version [a; b; c; d + 1].
Proof.
  unfold next_version.
  destruct (numeric_interpretation (VStr v)) as [l|] eqn:E; simpl.
  - apply numeric_interpretation_length in E.
    destruct l as [|a [|b [|c [|d [|]]]]]; try done. by exists a, b, c, d.
  - by exists 1, 0, 0, 0.
Qed.

Lemma next_version_format a b c d :
  next_version (format_version [a; b; c; d]) = format_version [a; b; c; d + 1].
Proof.
  destruct (next_version_eval (format_version [a; b; c; d])) as (a' & b' & c' & d' & Hl & ->).
  rewrite numeric_interpretation_format in Hl. by injection Hl as <- <- <- <-.
Qed.

Lemma iter_next_version n v a b c d :
  default [1; 0; 0; 0] (numeric_interpretation (VStr v)) = [a; b; c; d] →
  Nat.iter (S n) next_version v = format_version [a; b; c; d + Z.of_nat (S n)].
Proof.
  intros Hl. induction n as [|n IH].
  - simpl. destruct (next_version_eval v) as (a' & b' & c' & d' & Hl' & ->).
    rewrite Hl in Hl'. by injection Hl' as <- <- <- <-.
  - change (Nat.iter (S (S n)) next_version v)
      with (next_version (Nat.iter (S n) next_version v)).
    rewrite IH, next_version_format.
    by replace (d + Z.of_nat (S (S n))) with (d + Z.of_nat (S n) + 1) by lia.
Qed.

Lemma format_version_inj a b c d a' b' c' d' :
  format_version [a; b; c; d] = format_version [a'; b'; c'; d'] →
  [a; b; c; d] = [a'; b'; c'; d'].
Proof.
  intros Heq. pose proof (numeric_interpretation_format a b c d) as H1.
  rewrite Heq, numeric_interpretation_format in H1. by injection H1 as -> -> -> ->.
Qed.

Lemma iter_next_version_inj i j v :
  Nat.iter i next_version v = Nat.iter j next_version v → i = j.
Proof.
  destruct (next_version_eval v) as (a & b & c & d & Hl & _).
  destruct i as [|i], j as [|j]; [done|..].
  - rewrite (iter_next_version j v a b c d Hl). simpl. intros Hv.
    rewrite Hv, numeric_interpretation_format in Hl. simpl in Hl.
    injection Hl as Hd. lia.
  - rewrite (iter_next_version i v a b c d Hl). simpl. intros Hv.
    rewrite <-Hv, numeric_interpretation_format in Hl. simpl in Hl.
    injection Hl as Hd. lia.
  - rewrite (iter_next_version i v a b c d Hl), (iter_next_version j v a b c d Hl).
    intros Hf%format_version_inj. injection Hf as Hd. lia.
Qed.

Lemma app_inv_head_str (x y z : string) : x +:+ y = x +:+ z → y = z.
Proof.
  induction x as [|c x IH]; [done|]. rewrite !app_cons. intros [= Heq]. by apply IH.
Qed.

Lemma create_versioned_backup_path_inj base_backup_dir project_name v1 v2 :
  create_versioned_backup_path base_backup_dir project_name v1
    = create_versioned_backup_path base_backup_dir project_name v2 →
  v1 = v2.
Proof.
  unfold create_versioned_backup_path, PosixPath.join.
  assert (∀ v, Py.startswith (project_name +:+ "_v" +:+ v) "/"
               = Py.startswith (project_name +:+ "_v") "/") as Hs.
  { intros v. destruct project_name as [|c n]; [done|]. rewrite !app_cons. simpl.
    assert (∀ s, Py.startswith s "" = true) as He by (by intros []).
    by rewrite !He. }
  rewrite !Hs. destruct (Py.startswith (project_name +:+ "_v") "/").
  - intros Heq. apply app_inv_head_str in Heq. by simplify_eq/=.
  - destruct (Py.is_empty base_backup_dir || Py.endswith_char base_backup_dir PosixPath.sep).
    + intros Heq. do 2 apply app_inv_head_str in Heq. by simplify_eq/=.
    + intros Heq. apply app_inv_head_str in Heq. simpl in Heq. injection Heq as Heq.
      apply app_inv_head_str in Heq. by simplify_eq/=.
Qed.

(** X11.  Two versions never share a backup directory: for one base
    directory and one project name, [create_versioned_backup_path] gives
    different paths for different versions. *)
Theorem versioned_backup_paths_distinct base_backup_dir project_name v1 v2 :
  v1 ≠ v2 →
  create_versioned_backup_path base_backup_dir project_name v1
    ≠ create_versioned_backup_path base_backup_dir project_name v2.
Proof. by intros Hv ?%create_versioned_backup_path_inj. Qed.

(** X12.  The versions that successive commits count from a version
    string never repeat, whatever the string: the version text after [i]
    increments differs from the text after [j] increments when [i] and
    [j] differ, and so do their backup directories.  In particular the
    version a commit attempts is never the version it starts from. *)
Theorem next_versions_never_repeat base_backup_dir project_name v (i j : nat) :
  i ≠ j →
  Nat.iter i next_version v ≠ Nat.iter j next_version v ∧
  create_versioned_backup_path base_backup_dir project_name (Nat.iter i next_version v)
    ≠ create_versioned_backup_path base_backup_dir project_name (Nat.iter j next_version v).
Proof.
  intros Hij. split.
  - by intros ?%iter_next_version_inj.
  - by intros ?%create_versioned_backup_path_inj%iter_next_version_inj.
Qed.

Section ExclusionProperties.
Context {W : Type} `{!Host W}.


Lemma excluded_by_any_exists normalized_path excluded_paths :
  excluded_by_any normalized_path excluded_paths
  = existsb (λ e, excluded_by_any normalized_path [e]) excluded_paths.
Proof.
  induction excluded_paths as [|e rest IH]; [done|].
  cbn [existsb]. rewrite <-IH. cbn [excluded_by_any].
  destruct (decide (normalized_path = e)); [done|].
  destruct (PosixPath.relpath getcwd normalized_path e) as [rel|]; [|done].
  by destruct (negb (Py.startswith rel "..")).
Qed.

(** X14.  The rules of an exclusion list work one by one: a path is
    excluded by a list exactly when one path of the list, taken alone,
    excludes it, so that neither the order of the list nor a further rule
    can bring an excluded path back.  A path whose normalized form is in
    the list is excluded. *)
Theorem is_path_excluded_any_rule path excluded_paths :
  is_path_excluded path excluded_paths
    = existsb (λ e, is_path_excluded path [e]) excluded_paths ∧
  (normalize_path path ∈ excluded_paths → is_path_excluded path excluded_paths = true).
Proof.
  assert (is_path_excluded path excluded_paths
          = existsb (λ e, is_path_excluded path [e]) excluded_paths) as Hany.
  { unfold is_path_excluded. destruct excluded_paths as [|e rest]; [done|].
    apply excluded_by_any_exists. }
  split; [done|]. intros Hin. rewrite Hany. apply existsb_exists.
  exists (normalize_path path). split; [by apply list_elem_of_In|].
  unfold is_path_excluded. simpl. by rewrite decide_True.
Qed.

End ExclusionProperties.

Lemma startswith_empty s : Py.startswith s "" = true.
Proof. by destruct s. Qed.

Lemma rooted_abs comps : Py.startswith (rooted comps) "/" = true.
Proof. unfold rooted. simpl. by rewrite startswith_empty. Qed.

Lemma proper_plain n : proper n = true → plain n = true.
Proof. unfold proper. by intros [[? _]%andb_prop _]%andb_prop. Qed.

Lemma proper_no_sep n : proper n = true → no_sep n = true.
Proof. intros Hn%proper_plain. by apply andb_prop in Hn as [_ ?]. Qed.

Lemma split_sep_no_sep g : no_sep g = true → Py.split PosixPath.sep g = [g].
Proof.
  induction g as [|c g IH]; [done|]. simpl. intros [Hc Hg]%andb_prop.
  apply negb_true_iff, bool_decide_eq_false in Hc.
  rewrite decide_False by done. by rewrite IH.
Qed.

Lemma split_sep_app g rest :
  no_sep g = true →
  Py.split PosixPath.sep (g +:+ "/" +:+ rest) = g :: Py.split PosixPath.sep rest.
Proof.
  induction g as [|c g IH]; [done|]. rewrite app_cons. simpl. intros [Hc Hg]%andb_prop.
  apply negb_true_iff, bool_decide_eq_false in Hc.
  rewrite decide_False by done. by rewrite IH.
Qed.

Lemma split_join comps :
  Forall (λ n, no_sep n = true) comps → comps ≠ [] →
  Py.split PosixPath.sep (Py.join "/" comps) = comps.
Proof.
  induction 1 as [|p comps Hp Hall IH]; [done|]. intros _.
  destruct comps as [|q comps]; [by apply split_sep_no_sep|].
  change (Py.join "/" (p :: q :: comps)) with (p +:+ "/" +:+ Py.join "/" (q :: comps)).
  rewrite split_sep_app by done. by rewrite IH.
Qed.

Lemma split_rooted comps :
  Forall (λ n, proper n = true) comps →
  filter (λ x, x ≠ "") (Py.split PosixPath.sep (rooted comps)) = comps.
Proof.
  intros Hall. unfold rooted.
  change (Py.split PosixPath.sep ("/" +:+ Py.join "/" comps))
    with ("" :: Py.split PosixPath.sep (Py.join "/" comps)).
  rewrite filter_cons_False by (by intros []).
  destruct comps as [|p comps]; [done|].
  rewrite split_join; [|by eapply Forall_impl; [done|]; apply proper_no_sep|done].
  generalize (p :: comps), Hall. clear. intros l Hall.
  induction Hall as [|n l Hn%proper_plain _ IH]; [done|].
  rewrite filter_cons_True; [by rewrite IH|]. by intros ->.
Qed.

Lemma normpath_steps k comps : ∀ acc,
  Forall (λ n, proper n = true) comps →
  foldl (PosixPath.normpath_step k) acc comps = acc ++ comps.
Proof.
  induction comps as [|n comps IH]; intros acc Hall.
  { by rewrite app_nil_r. }
  apply Forall_cons in Hall as [Hn Hall]. simpl. rewrite IH by done.
  unfold PosixPath.normpath_step. unfold proper in Hn.
  apply andb_prop in Hn as [[Hp Hdot]%andb_prop Hdots].
  apply negb_true_iff, bool_decide_eq_false in Hdot, Hdots.
  rewrite bool_decide_false.
  - rewrite (bool_decide_true (n ≠ "..")) by done. simpl. by rewrite <-app_assoc.
  - intros [->| ->]; done.
Qed.

Lemma normpath_step_empty k acc : PosixPath.normpath_step k acc "" = acc.
Proof. unfold PosixPath.normpath_step. by rewrite bool_decide_true by (by left). Qed.

Lemma join_first_not_sep comps :
  Forall (λ n, proper n = true) comps → Py.startswith (Py.join "/" comps) "/" = false.
Proof.
  intros Hall. destruct comps as [|p comps]; [done|].
  apply Forall_cons in Hall as [Hp%proper_plain _].
  pose proof (plain_not_abs p Hp) as Hs.
  destruct comps as [|q comps]; [done|].
  change (Py.join "/" (p :: q :: comps)) with (p +:+ "/" +:+ Py.join "/" (q :: comps)).
  destruct p as [|c p]; [done|]. rewrite app_cons. simpl in *.
  rewrite startswith_empty in *. done.
Qed.

Lemma normpath_rooted comps :
  Forall (λ n, proper n = true) comps →
  PosixPath.normpath (rooted comps) = rooted comps.
Proof.
  intros Hall. unfold PosixPath.normpath.
  change (Py.is_empty (rooted comps)) with false. cbv iota.
  rewrite rooted_abs. cbv iota.
  assert (Py.startswith (rooted comps) "//" = false) as ->.
  { unfold rooted. change ("/" +:+ Py.join "/" comps) with (String "/" (Py.join "/" comps)).
    simpl. by rewrite join_first_not_sep. }
  cbv iota. simpl andb. cbv iota.
  assert (foldl (PosixPath.normpath_step 1) [] (Py.split PosixPath.sep (rooted comps)) = comps)
    as ->.
  { unfold rooted.
    change (Py.split PosixPath.sep ("/" +:+ Py.join "/" comps))
      with ("" :: Py.split PosixPath.sep (Py.join "/" comps)).
    destruct comps as [|p comps]; [done|].
    rewrite split_join; [|eapply Forall_impl; [exact Hall|apply proper_no_sep]|done].
    assert (∀ l, foldl (PosixPath.normpath_step 1) [] ("" :: l)
                 = foldl (PosixPath.normpath_step 1) [] l) as Hskip.
    { intros l. simpl. by rewrite normpath_step_empty. }
    by rewrite Hskip, normpath_steps. }
  done.
Qed.

Lemma components_rooted cwd comps :
  Forall (λ n, proper n = true) comps →
  PosixPath.components cwd (rooted comps) = comps.
Proof.
  intros Hall. unfold PosixPath.components, PosixPath.abspath.
  unfold PosixPath.isabs. rewrite rooted_abs. cbv iota.
  rewrite normpath_rooted by done. by apply split_rooted.
Qed.

Lemma rest_after_refl l : rest_after l l = Some [].
Proof. induction l as [|x l IH]; [done|]. simpl. by rewrite decide_True. Qed.

Lemma rest_after_Some root : ∀ path r,
  rest_after root path = Some r →
  PosixPath.common_len root path = length root ∧ path = root ++ r.
Proof.
  induction root as [|x root IH]; intros [|p path] r; simpl; try done.
  - by intros [= <-].
  - by intros [= <-].
  - destruct (decide (x = p)) as [->|]; [|done]. intros Hr.
    destruct (IH _ _ Hr) as [-> ->]. done.
Qed.

Lemma rest_after_None root : ∀ path,
  rest_after root path = None → (PosixPath.common_len root path < length root)%nat.
Proof.
  induction root as [|x root IH]; intros [|p path]; simpl; try done; try lia.
  destruct (decide (x = p)) as [->|]; [|lia]. intros Hr%IH. lia.
Qed.

Lemma join_all_head cs : ∀ c,
  Forall (λ n, Py.startswith n "/" = false) cs →
  ∃ suffix, PosixPath.join_all c cs = c +:+ suffix.
Proof.
  induction cs as [|n cs IH]; intros c Hall.
  { exists "". unfold PosixPath.join_all. simpl. clear.
    induction c as [|a c IH]; [done|]. rewrite app_cons. by rewrite <-IH. }
  apply Forall_cons in Hall as [Hn Hall].
  destruct (IH (PosixPath.join c n) Hall) as [suffix Hs].
  unfold PosixPath.join_all in *. simpl. rewrite Hs.
  unfold PosixPath.join. rewrite Hn.
  destruct (Py.is_empty c || Py.endswith_char c PosixPath.sep).
  - exists (n +:+ suffix). by rewrite app_assoc_str.
  - exists ("/" +:+ n +:+ suffix). by rewrite !app_assoc_str.
Qed.

Lemma startswith_dots_app c suffix :
  c = ".." ∨ proper c = true →
  Py.startswith (c +:+ suffix) ".." = Py.startswith c "..".
Proof.
  intros [->|Hc]; [simpl; by rewrite startswith_empty|].
  unfold proper in Hc. apply andb_prop in Hc as [[Hp Hdot]%andb_prop _].
  apply negb_true_iff, bool_decide_eq_false in Hdot.
  destruct c as [|a [|b c]]; [done| |].
  - rewrite app_cons, app_empty. simpl.
    rewrite bool_decide_false; [done|]. intros <-. done.
  - rewrite !app_cons. simpl. by rewrite !startswith_empty.
Qed.

Section ExclusionRule.
Context {W : Type} `{!Host W}.

Lemma relpath_rooted path root :
  Forall (λ n, proper n = true) path → Forall (λ n, proper n = true) root →
  ∃ rel,
    PosixPath.relpath getcwd (rooted path) (rooted root) = Ok rel ∧
    Py.startswith rel ".."
    = match rest_after root path with
      | Some (name :: _) => Py.startswith name ".."
      | Some [] => false
      | None => true
      end.
Proof.
  intros Hpath Hroot. unfold PosixPath.relpath.
  change (Py.is_empty (rooted path)) with false. cbv iota.
  rewrite !components_rooted by done. cbv zeta.
  assert (∀ c cs, (c = ".." ∨ proper c = true) →
            Forall (λ n, n = ".." ∨ proper n = true) cs →
            Py.startswith (PosixPath.join_all c cs) ".." = Py.startswith c "..") as Hjoin.
  { intros c cs Hc Hcs. destruct (join_all_head cs c) as [suffix ->].
    - eapply Forall_impl; [exact Hcs|]. simpl. intros n [->|Hn%proper_plain]; [done|].
      by apply plain_not_abs.
    - by apply startswith_dots_app. }
  destruct (rest_after root path) as [r|] eqn:Er.
  - destruct (rest_after_Some _ _ _ Er) as [-> ->].
    rewrite Nat.sub_diag, drop_app_length. simpl.
    destruct r as [|n r]; [by eexists|]. eexists. split; [done|].
    apply Forall_app in Hpath as [_ [Hn Hr]%Forall_cons].
    apply Hjoin; [by right|]. eapply Forall_impl; [exact Hr|]. by right.
  - apply rest_after_None in Er.
    destruct (length root - PosixPath.common_len root path)%nat as [|k] eqn:Ek; [lia|].
    simpl. eexists. split; [done|]. rewrite Hjoin; [done|by left|].
    apply Forall_app. split.
    + apply Forall_replicate. by left.
    + apply Forall_drop. eapply Forall_impl; [exact Hpath|]. by right.
Qed.

Lemma is_path_excluded_rooted path root :
  Forall (λ n, proper n = true) path → Forall (λ n, proper n = true) root →
  normalize_path (rooted path) = rooted path →
  is_path_excluded (rooted path) [rooted root] = excluded_by_rule root path.
Proof.
  intros Hpath Hroot Hnorm. unfold is_path_excluded, excluded_by_any, excluded_by_rule.
  rewrite Hnorm. destruct (decide (rooted path = rooted root)) as [Heq|Hne].
  - assert (path = root) as ->.
    { rewrite <-(components_rooted "" path), <-(components_rooted "" root) by done.
      by rewrite Heq. }
    by rewrite rest_after_refl.
  - destruct (relpath_rooted path root Hpath Hroot) as (rel & -> & Hrel).
    rewrite Hrel. destruct (rest_after root path) as [[|n r]|] eqn:Er; try done.
    by destruct (Py.startswith n "..").
Qed.

(** X15.  On normalized absolute paths that the host resolves to
    themselves, [is_path_excluded] with one rule answers by the
    components: a path is excluded when it is the excluded path, or when
    it begins with all the components of the excluded path and the next
    of its names does not begin with two dots.  A path that only shares
    leading text with the excluded path, a sibling or an ancestor of it,
    is not excluded. *)
Theorem is_path_excluded_by_components path root :
  Forall (λ n, proper n = true) path → Forall (λ n, proper n = true) root →
  normalize_path (rooted path) = rooted path →
  is_path_excluded (rooted path) [rooted root] = excluded_by_rule root path.
Proof. apply is_path_excluded_rooted. Qed.

End ExclusionRule.

(** A turn on the tree [two_files], from the state [start]. *)
Lemma turn_touches_own_source_witness :
  last_backup_times (state_after (toy_turn 10 start (toy_world two_files [])))
    !! "/src" = Some 10.
Proof.
  refine (proj1 (turn_touches_own_source (W:=toy_fs) "proj" "config.json"
                   "/src" "/backup" [] 10 start (toy_world two_files []) ∅
                   (state_after (toy_turn 10 start (toy_world two_files [])))
                   (toy_turn 10 start (toy_world two_files [])).2 _ _)).
  - reflexivity.
  - vm_compute. reflexivity.
Defined.

(** A poll two seconds after that turn, with the delay of five seconds. *)
Lemma poll_pair_waits_for_delay_witness :
  poll_pair (W:=toy_fs) "proj" "config.json" ∅ ∅ 12
    (state_after (toy_turn 10 start (toy_world two_files [])))
    ("/src", "/backup", 0%nat)
    (toy_turn 10 start (toy_world two_files [])).2
  = (Ok (state_after (toy_turn 10 start (toy_world two_files []))),
     (toy_turn 10 start (toy_world two_files [])).2).
Proof.
  apply (poll_pair_waits_for_delay (W:=toy_fs) "proj" "config.json" ∅ ∅
           "/src" "/backup" 0 10 12 5 start (toy_world two_files []) ∅).
  - reflexivity.
  - vm_compute. reflexivity.
  - reflexivity.
  - lia.
Defined.

(** The delay ["soon"] for the only pair. *)
Lemma bad_delay_stops_monitoring_witness :
  ∃ e w',
    monitor_directories (W:=dir_fs) "proj" "config.json" {["0" := VStr "soon"]} ∅
      ["/src"] ["/backup"] (VStr "1.0.0.0") [(10, id); (11, id)]
      (World [] DirFS)
    = (Ok tt, say (UnexpectedError e) w').
Proof.
  destruct (bad_delay_stops_monitoring (W:=dir_fs) "proj" "config.json"
              {["0" := VStr "soon"]} ∅ ["/src"] ["/backup"] (VStr "1.0.0.0")
              10 id [(11, id)] (World [] DirFS)
              [("/src", "/backup", 0%nat)]
              (World [Monitoring "/src" "/backup" []] DirFS))
    as (e & w' & Hm & _).
  - reflexivity.
  - apply Exists_cons_hd. by exists ValueError.
  - by exists e, w'.
Defined.

Lemma versioned_backup_paths_distinct_witness :
  create_versioned_backup_path "/backup" "proj" "1.0.0.1"
    ≠ create_versioned_backup_path "/backup" "proj" "1.0.0.2".
Proof. by apply (versioned_backup_paths_distinct "/backup" "proj" "1.0.0.1" "1.0.0.2"). Defined.

Lemma next_versions_never_repeat_witness :
  Nat.iter 1 next_version "1.0.0.9" ≠ Nat.iter 2 next_version "1.0.0.9".
Proof.
  apply (next_versions_never_repeat "/backup" "proj" "1.0.0.9" 1 2). lia.
Defined.


Lemma is_path_excluded_by_components_witness :
  is_path_excluded (W:=toy_fs) (rooted ["a"; "b"; "c"]) [rooted ["a"; "b"]] = true.
Proof.
  rewrite (is_path_excluded_by_components (W:=toy_fs) ["a"; "b"; "c"] ["a"; "b"]).
  - reflexivity.
  - repeat constructor.
  - repeat constructor.
  - reflexivity.
Defined.

Example negative_index_stored :
  (normalize_excluded_paths [("-1", VStr "build")] ["/a"; "/b"] (toy_world two_files [])).1
  = Ok {[ -1 := ["/b/build"] ]}.
Proof. vm_compute. reflexivity. Qed.

Example is_path_excluded_by_components_examples :
  excluded_by_rule ["a"; "b"] ["a"; "b"] = true ∧
  excluded_by_rule ["a"; "b"] ["a"; "b"; "c"; "d"] = true ∧
  excluded_by_rule ["a"; "b"] ["a"; "bc"] = false ∧
  excluded_by_rule ["a"; "b"] ["a"] = false ∧
  excluded_by_rule ["a"; "b"] ["a"; "b"; "..cache"] = false ∧
  excluded_by_rule [] ["a"] = true.
Proof. repeat split; reflexivity. Qed.

Section VersionInvariant.
Context {W : Type} `{!Host W}.
Variables (project_name config_file_path : string).
Variables (backup_times : gmap string value) (excluded_by_index : gmap Z (list string)).

Lemma commit_formatted backup_dir excluded_paths changed σ (w : world W) a b c d :
  current_version σ = format_version [a; b; c; d] →
  ∃ events σ' w',
    commit project_name config_file_path backup_dir excluded_paths changed σ w = (Ok σ', w') ∧
    stdout w' = stdout w ++ ChangesDetected (format_version [a; b; c; d + 1]) :: events ∧
    version_quiet events ∧
    (current_version σ' = format_version [a; b; c; d] ∨
     current_version σ' = format_version [a; b; c; d + 1] ∧
       UpdatedVersion (format_version [a; b; c; d + 1]) ∈ events).
Proof.
  intros Hv. unfold commit. rewrite bind_eval, Hv, parse_format_version_any.
  cbv beta iota. rewrite bind_eval. unfold lift at 1.
  change (increment_build_number [a; b; c; d])
    with (Ok ([a; b; c; d + 1], format_version [a; b; c; d + 1])).
  cbv beta iota zeta. set (nv := format_version [a; b; c; d + 1]).
  unfold print. st_run.
  set (vdir := create_versioned_backup_path backup_dir project_name nv).
  assert (∀ header (w1 : world W),
    stdout w1 = stdout w ++ ChangesDetected nv :: header → version_quiet header →
    ∃ events σ' w',
      (backup_success ← for_fold (backup_item vdir) changed true;
       σ' ← (if backup_success : bool then
               updated ← update_config_version config_file_path nv;
               if updated : bool then
                 print (UpdatedVersion nv);;
                 mret (MonitorState (item_mod_times σ) (last_backup_times σ) nv)
               else print ConfigNotUpdated;; mret σ
             else print VersionNotUpdated;; mret σ);
       print BlankLine;; mret σ') w1 = (Ok σ', w') ∧
      stdout w' = stdout w ++ ChangesDetected nv :: events ∧
      version_quiet events ∧
      (current_version σ' = format_version [a; b; c; d] ∨
       current_version σ' = nv ∧ UpdatedVersion nv ∈ events)) as Hrest.
  { intros header w1 Hout Hq. rewrite bind_eval.
    destruct (backup_results_spec vdir changed true w1)
      as (copy_events & -> & _ & Hout2 & _ & Hall).
    assert (version_quiet copy_events) as Hq2.
    { eapply Forall_impl; [exact Hall|]. simpl. intros e [He|He]; by destruct e. }
    set (r := backup_results vdir changed w1) in *. simpl andb.
    assert (∀ tail, version_quiet tail →
              (stdout w1 ++ copy_events) ++ tail
              = stdout w ++ ChangesDetected nv :: (header ++ copy_events ++ tail) ∧
              version_quiet (header ++ copy_events ++ tail)) as Hout3.
    { intros tail Ht. split.
      - rewrite Hout. by rewrite <-!app_assoc.
      - by repeat (apply Forall_app; split). }
    destruct (forallb id r.1).
    - unfold update_config_version, sys, print. st_run.
      destruct (rewrite_version config_file_path nv (fs r.2)) as [[] f']; st_run.
      + destruct (Hout3 [UpdatedVersion nv; BlankLine]) as [Ho Hqq]; [by repeat constructor|].
        eexists _, _, _. split; [reflexivity|]. simpl. rewrite Hout2.
        split_and!.
        * rewrite <-Ho. by rewrite <-!app_assoc.
        * exact Hqq.
        * right. split; [done|]. rewrite !elem_of_app. right. right. by left.
      + destruct (Hout3 [ErrUpdateConfig; ConfigNotUpdated; BlankLine]) as [Ho Hqq];
          [by repeat constructor|].
        eexists _, _, _. split; [reflexivity|]. simpl. rewrite Hout2.
        split_and!.
        * rewrite <-Ho. by rewrite <-!app_assoc.
        * exact Hqq.
        * by left.
    - unfold print. st_run.
      destruct (Hout3 [VersionNotUpdated; BlankLine]) as [Ho Hqq]; [by repeat constructor|].
      eexists _, _, _. split; [reflexivity|]. simpl.
      rewrite Hout2. split_and!.
      + rewrite <-Ho. by rewrite <-!app_assoc.
      + exact Hqq.
      + by left. }
  destruct excluded_paths as [|x xs]; st_run.
  - apply (Hrest [BackupLocation vdir]); [|by repeat constructor].
    simpl. by rewrite <-!app_assoc.
  - apply (Hrest [BackupLocation vdir; NoteExclusions (length (x :: xs))]);
      [|by repeat constructor].
    simpl. by rewrite <-!app_assoc.
Qed.

Lemma keeps_version_raise e (w : world W) : keeps_version w (Raise e, w).
Proof. exists []. rewrite app_nil_r. split_and!; [done|constructor|by intros ? [=]]. Qed.

Lemma turn_formatted source_dir backup_dir excluded_paths current_time σ (w : world W) :
  formatted (current_version σ) →
  keeps_version w
    (turn project_name config_file_path source_dir backup_dir excluded_paths current_time σ w).
Proof.
  intros (a & b & c & d & Hv).
  destruct (item_mod_times σ !! source_dir) as [table|] eqn:Ht.
  2:{ unfold turn, item. rewrite Ht. st_run. apply keeps_version_raise. }
  rewrite (turn_eval _ _ _ _ _ _ _ _ _ Ht). cbv zeta.
  destruct (walk _ _ _ _ _) as [r sc]. simpl.
  assert (∀ report_error (w1 : world W),
    stdout w1 = stdout w ++ report_error → version_quiet report_error →
    keeps_version w
      match changed_items sc with
      | [] => (Ok (timed source_dir current_time (scanned source_dir (mod_times sc) σ)), w1)
      | _ :: _ =>
          match commit project_name config_file_path backup_dir excluded_paths
                  (changed_items sc) (scanned source_dir (mod_times sc) σ) w1 with
          | (Ok σ2, w2) => (Ok (timed source_dir current_time σ2), w2)
          | (Raise e, w2) => (Raise e, w2)
          end
      end) as Hrest.
  { intros report_error w1 Hout Hq. destruct (changed_items sc) as [|x xs] eqn:E.
    - exists report_error. split_and!; [done..|]. intros σ' [= <-]. simpl.
      by exists a, b, c, d.
    - rewrite <-E.
      destruct (commit_formatted backup_dir excluded_paths (changed_items sc)
                  (scanned source_dir (mod_times sc) σ) w1 a b c d Hv)
        as (events & σ2 & w2 & -> & Hout2 & Hq2 & Hver).
      exists (report_error ++ ChangesDetected (format_version [a; b; c; d + 1]) :: events).
      simpl. split_and!.
      + by rewrite Hout2, Hout, <-app_assoc.
      + apply Forall_app. split; [done|]. by constructor.
      + intros σ' [= <-]. simpl. destruct Hver as [->|[-> _]]; by eexists _, _, _, _. }
  destruct r as [[]|e]; [|destruct (decide (e = OSError)) as [->|]].
  - apply (Hrest []); [by rewrite app_nil_r|constructor].
  - apply (Hrest [ErrAccessSource source_dir]); [done|by repeat constructor].
  - apply keeps_version_raise.
Qed.

Lemma poll_pair_formatted current_time σ pair (w : world W) :
  formatted (current_version σ) →
  keeps_version w
    (poll_pair project_name config_file_path backup_times excluded_by_index
       current_time σ pair w).
Proof.
  intros Hv. destruct pair as [[source_dir backup_dir] i]. unfold poll_pair.
  destruct (int_of_value _) as [delay|e]; st_run; [|apply keeps_version_raise].
  unfold item. destruct (last_backup_times σ !! source_dir) as [last|]; st_run;
    [|apply keeps_version_raise].
  destruct (decide _); [by apply turn_formatted|].
  exists []. rewrite app_nil_r. split_and!; [done|constructor|by intros σ' [= <-]].
Qed.

Lemma keeps_version_bind (w : world W) (m : M W monitor_state)
    (k : monitor_state → M W monitor_state) :
  keeps_version w (m w) →
  (∀ σ' w', formatted (current_version σ') → keeps_version w' (k σ' w')) →
  keeps_version w ((m ≫= k) w).
Proof.
  intros (events & Hout & Hq & Hv) Hk. rewrite bind_eval.
  destruct (m w) as [[σ'|e] w1]; simpl in *.
  - destruct (Hk σ' w1 (Hv _ eq_refl)) as (events2 & Hout2 & Hq2 & Hv2).
    exists (events ++ events2). split_and!; [|by apply Forall_app|done].
    by rewrite Hout2, Hout, <-app_assoc.
  - exists events. by split_and!.
Qed.

Lemma tick_formatted valid_pairs current_time : ∀ σ (w : world W),
  formatted (current_version σ) →
  keeps_version w
    (tick project_name config_file_path backup_times excluded_by_index
       valid_pairs current_time σ w).
Proof.
  unfold tick. induction valid_pairs as [|pair pairs IH]; intros σ w Hv.
  { exists []. rewrite app_nil_r. split_and!; [done|constructor|by intros σ' [= <-]]. }
  cbn [for_fold]. apply keeps_version_bind; [by apply poll_pair_formatted|].
  intros σ' w' Hv'. by apply IH.
Qed.

Lemma poll_formatted valid_pairs schedule : ∀ σ (w : world W),
  formatted (current_version σ) →
  keeps_version w
    (poll project_name config_file_path backup_times excluded_by_index
       valid_pairs schedule σ w).
Proof.
  induction schedule as [|[current_time outside] schedule IH]; intros σ w Hv.
  { exists []. rewrite app_nil_r. split_and!; [done|constructor|by intros σ' [= <-]]. }
  cbn [poll]. apply keeps_version_bind; [by apply tick_formatted|].
  intros σ' w' Hv'. unfold sys. rewrite bind_eval.
  simpl.
  destruct (IH σ' (World (stdout w') (outside (fs w'))) Hv') as (events & Hout & Hq & Hv2).
  exists events. by split_and!.
Qed.

(** X16.  In a run of [monitor_directories] the warning of an invalid
    version can be printed once only, for the configured version and
    right after the starting line.  No commit prints it later: the version
    that a commit reads is always a text that the program has formatted
    itself. *)
Theorem version_warning_only_at_start source_dirs backup_dirs project_version schedule
    (w : world W) valid_pairs w1 :
  validate_directories source_dirs backup_dirs excluded_by_index w = (Ok valid_pairs, w1) →
  valid_pairs ≠ [] →
  ∃ w' warning events,
    monitor_directories project_name config_file_path backup_times excluded_by_index
      source_dirs backup_dirs project_version schedule w = (Ok tt, w') ∧
    stdout w' = stdout w1 ++ Starting (length valid_pairs) :: warning ++ events ∧
    (warning = [] ∨ warning = [WarnVersion project_version]) ∧
    version_quiet events.
Proof.
  intros Hvalid Hne. rewrite (monitor_directories_eval _ _ _ _ _ _ _ _ _ _ _ Hvalid).
  destruct valid_pairs as [|p ps]; [done|]. set (pairs := p :: ps) in *. cbv zeta.
  destruct (parse_version_eval project_version (say (Starting (length pairs)) w1))
    as (l & w2 & Hp & Hlen & Hl).
  rewrite Hp. simpl.
  assert (∃ warning, (warning = [] ∨ warning = [WarnVersion project_version]) ∧
            stdout w2 = stdout w1 ++ Starting (length pairs) :: warning) as (warning & Hw & Hout).
  { destruct (numeric_interpretation project_version); destruct Hl as [_ ->].
    - exists []. split; [by left|done].
    - exists [WarnVersion project_version]. split; [by right|]. simpl.
      by rewrite <-app_assoc. }
  set (σ := MonitorState _ _ _).
  assert (formatted (current_version σ)) as Hv.
  { subst σ. simpl. destruct (numeric_interpretation project_version) as [l'|] eqn:E; simpl.
    - apply numeric_interpretation_length in E.
      destruct l' as [|a [|b [|c [|d [|]]]]]; try done. by exists a, b, c, d.
    - by exists 1, 0, 0, 0. }
  destruct (poll_formatted pairs schedule σ w2 Hv) as (events & Hout2 & Hq & _).
  destruct (poll _ _ _ _ _ _ _ _) as [[σ'|e] w3]; simpl in *.
  - exists w3, warning, events. split_and!; try done.
    rewrite Hout2, Hout. by rewrite <-app_assoc.
  - exists (say (UnexpectedError e) w3), warning, (events ++ [UnexpectedError e]).
    split_and!; try done.
    + simpl. rewrite Hout2, Hout. by rewrite <-!app_assoc.
    + apply Forall_app. split; [done|]. by repeat constructor.
Qed.

End VersionInvariant.

Lemma ints_Ok keys : ∀ l,
  ints keys = Ok l → Forall2 (λ k i, Py.int k = Ok i) keys l.
Proof.
  induction keys as [|k keys IH]; intros l; simpl.
  { intros [= <-]. constructor. }
  destruct (Py.int k) as [i|] eqn:Ei; [|done]. simpl.
  destruct (ints keys) as [l'|]; [|done]. simpl. intros [= <-].
  constructor; [done|by apply IH].
Qed.

Lemma ints_Raise keys e :
  ints keys = Raise e ↔ e = ValueError ∧ Exists (λ k, Py.int k = Raise ValueError) keys.
Proof.
  induction keys as [|k keys IH]; simpl.
  { split; [done|]. by intros [_ ?%Exists_nil]. }
  destruct (Py.int k) as [i|e'] eqn:Ei; simpl.
  - destruct (ints keys) as [l'|e'']; simpl.
    + split; [done|]. intros [-> [?|Hex]%Exists_cons]; [congruence|].
      discriminate (proj2 IH (conj eq_refl Hex)).
    + split.
      * intros [= ->]. destruct (proj1 IH eq_refl) as [-> Hex]. split; [done|].
        by apply Exists_cons_tl.
      * intros [-> [?|Hex]%Exists_cons]; [congruence|].
        exact (proj2 IH (conj eq_refl Hex)).
  - pose proof (int_raises _ _ Ei) as ->. split.
    + intros [= <-]. split; [done|]. by apply Exists_cons_hd.
    + by intros [-> _].
Qed.

Lemma foldl_max_ge l : ∀ a,
  a ≤ foldl Z.max a l ∧ ∀ x, x ∈ l → x ≤ foldl Z.max a l.
Proof.
  induction l as [|y l IH]; intros a; simpl.
  { split; [lia|]. by intros x ?%elem_of_nil. }
  destruct (IH (Z.max a y)) as [Ha Hl]. split; [lia|].
  intros x [->|Hx]%elem_of_cons; [lia|by apply Hl].
Qed.

Lemma max_default_ge l d x : x ∈ l → x ≤ max_default l d.
Proof.
  destruct l as [|y l]; [by intros ?%elem_of_nil|]. simpl.
  destruct (foldl_max_ge l y) as [Hy Hl].
  intros [->|Hx]%elem_of_cons; [done|by apply Hl].
Qed.

Lemma read_dir_truthy dict i :
  truthy (read_dir dict i) = true → is_Some (dict !! Py.str i).
Proof. unfold read_dir. by destruct (dict !! Py.str i). Qed.

Lemma ints_key (dict : gmap string value) l i :
  ints (map_to_list dict).*1 = Ok l → is_Some (dict !! Py.str i) → i ∈ l.
Proof.
  intros Hl%ints_Ok [v Hv]. apply elem_of_map_to_list in Hv.
  assert (Py.str i ∈ (map_to_list dict).*1) as Hk.
  { apply list_elem_of_fmap. by exists (Py.str i, v). }
  apply list_elem_of_lookup in Hk as [n Hn].
  destruct (Forall2_lookup_l _ _ _ _ _ Hl Hn) as (j & Hj & Hint).
  rewrite int_str in Hint. injection Hint as <-. by eapply list_elem_of_lookup_2.
Qed.

Lemma add_pairs source_dirs_dict backup_dirs_dict l : ∀ lists,
  foldl (add_pair source_dirs_dict backup_dirs_dict) lists l
  = (lists.1 ++ (read_dir source_dirs_dict
                   <$> filter (λ i, complete source_dirs_dict backup_dirs_dict i) l),
     lists.2 ++ (read_dir backup_dirs_dict
                   <$> filter (λ i, complete source_dirs_dict backup_dirs_dict i) l)).
Proof.
  induction l as [|i l IH]; intros [ss bs]; simpl.
  { by rewrite !app_nil_r. }
  rewrite IH, filter_cons.
  assert (add_pair source_dirs_dict backup_dirs_dict (ss, bs) i
          = if complete source_dirs_dict backup_dirs_dict i
            then (ss ++ [read_dir source_dirs_dict i], bs ++ [read_dir backup_dirs_dict i])
            else (ss, bs)) as -> by done.
  destruct (complete source_dirs_dict backup_dirs_dict i); simpl; [|done].
  by rewrite <-!app_assoc.
Qed.

Lemma StronglySorted_seqZ m n : StronglySorted Z.lt (seqZ m n).
Proof.
  unfold seqZ. apply (StronglySorted_fmap _ lt); [intros; lia|].
  apply StronglySorted_seq.
Qed.

(** X17.  The lists of directories read off the configuration have the
    same length.  Their entries are the source and the backup directory
    of the numbers that have both, under the key that is the decimal text
    of the number, in increasing order of the numbers: a number with a
    missing or empty directory is left out and the later pairs move up,
    so that the place of a pair in the lists need not be its number. *)
Theorem directory_lists_pairs source_dirs_dict backup_dirs_dict source_dirs backup_dirs :
  directory_lists source_dirs_dict backup_dirs_dict = Ok (source_dirs, backup_dirs) →
  length source_dirs = length backup_dirs ∧
  ∃ numbers,
    StronglySorted Z.lt numbers ∧
    (∀ i, i ∈ numbers ↔ 0 ≤ i ∧ complete source_dirs_dict backup_dirs_dict i = true) ∧
    source_dirs = read_dir source_dirs_dict <$> numbers ∧
    backup_dirs = read_dir backup_dirs_dict <$> numbers.
Proof.
  unfold directory_lists, max_index.
  destruct (ints (map_to_list source_dirs_dict).*1) as [sk|] eqn:Es; [|done].
  destruct (ints (map_to_list backup_dirs_dict).*1) as [bk|] eqn:Eb; [|done]. simpl.
  rewrite add_pairs. simpl. intros [= <- <-].
  set (m := Z.max (max_default sk (-1)) (max_default bk (-1))).
  split; [by rewrite !length_fmap|].
  exists (filter (λ i, complete source_dirs_dict backup_dirs_dict i) (seqZ 0 (m + 1))).
  split_and!; try done.
  - eapply StronglySorted_sublist; [apply sublist_filter|apply StronglySorted_seqZ].
  - intros i. rewrite list_elem_of_filter, elem_of_seqZ. split.
    + intros [Hc [? ?]]. split; [lia|]. by destruct (complete _ _ i).
    + intros [Hi Hc]. split; [by rewrite Hc|]. split; [done|].
      apply andb_prop in Hc as [Hs%read_dir_truthy _].
      pose proof (max_default_ge sk (-1) i (ints_key _ _ _ Es Hs)). lia.
Qed.

(** X18.  A key of [source_dirs] or [backup_dirs] that [int] cannot
    convert ends the start of the program in a [ValueError], which
    nothing catches; with keys that all convert, the two lists are made. *)
Theorem directory_lists_bad_key source_dirs_dict backup_dirs_dict e :
  directory_lists source_dirs_dict backup_dirs_dict = Raise e
  ↔ e = ValueError ∧
    ∃ k, (is_Some (source_dirs_dict !! k) ∨ is_Some (backup_dirs_dict !! k)) ∧
         Py.int k = Raise ValueError.
Proof.
  assert (∀ dict : gmap string value,
    Exists (λ k, Py.int k = Raise ValueError) (map_to_list dict).*1
    ↔ ∃ k, is_Some (dict !! k) ∧ Py.int k = Raise ValueError) as Hkeys.
  { intros dict. rewrite Exists_exists. split.
    - intros (k & ([k' v] & -> & Hin%elem_of_map_to_list)%list_elem_of_fmap & Hk).
      exists k'. by split; [eexists|].
    - intros (k & [v Hv] & Hk). exists k. split; [|done].
      apply list_elem_of_fmap. exists (k, v). split; [done|].
      by apply elem_of_map_to_list. }
  unfold directory_lists, max_index.
  destruct (ints (map_to_list source_dirs_dict).*1) as [sk|es] eqn:Es; simpl.
  - destruct (ints (map_to_list backup_dirs_dict).*1) as [bk|eb] eqn:Eb; simpl.
    + split; [done|]. intros [-> (k & [Hk|Hk] & Hint)].
      * assert (ints (map_to_list source_dirs_dict).*1 = Raise ValueError) as Hr.
        { apply ints_Raise. split; [done|]. apply Hkeys. by exists k. }
        congruence.
      * assert (ints (map_to_list backup_dirs_dict).*1 = Raise ValueError) as Hr.
        { apply ints_Raise. split; [done|]. apply Hkeys. by exists k. }
        congruence.
    + apply ints_Raise in Eb as [-> Hex]. apply Hkeys in Hex as (k & Hk & Hint).
      split; [|by intros [-> _]]. intros [= <-]. split; [done|]. exists k. by split; [right|].
  - apply ints_Raise in Es as [-> Hex]. apply Hkeys in Hex as (k & Hk & Hint).
    split; [|by intros [-> _]]. intros [= <-]. split; [done|]. exists k. by split; [left|].
Qed.

(** The pairs of the numbers 0 and 2, with nothing for the number 1. *)
Lemma directory_lists_pairs_witness :
  length [VStr "/a"; VStr "/c"] = length [VStr "/x"; VStr "/z"] ∧
  ∃ numbers,
    StronglySorted Z.lt numbers ∧
    (∀ i, i ∈ numbers ↔
          0 ≤ i ∧ complete {["0" := VStr "/a"; "2" := VStr "/c"]}
                           {["0" := VStr "/x"; "1" := VStr ""; "2" := VStr "/z"]} i = true) ∧
    [VStr "/a"; VStr "/c"] = read_dir {["0" := VStr "/a"; "2" := VStr "/c"]} <$> numbers ∧
    [VStr "/x"; VStr "/z"]
      = read_dir {["0" := VStr "/x"; "1" := VStr ""; "2" := VStr "/z"]} <$> numbers.
Proof.
  apply (directory_lists_pairs {["0" := VStr "/a"; "2" := VStr "/c"]}
           {["0" := VStr "/x"; "1" := VStr ""; "2" := VStr "/z"]}).
  vm_compute. reflexivity.
Defined.

Lemma join_snoc (l : list string) x :
  l ≠ [] → Py.join "/" (l ++ [x]) = Py.join "/" l +:+ "/" +:+ x.
Proof.
  induction l as [|a l IH]; [done|]. intros _.
  destruct l as [|b l]; [done|].
  change (Py.join "/" ((a :: b :: l) ++ [x]))
    with (a +:+ "/" +:+ Py.join "/" ((b :: l) ++ [x])).
  rewrite IH by done.
  change (Py.join "/" (a :: b :: l)) with (a +:+ "/" +:+ Py.join "/" (b :: l)).
  by rewrite !app_assoc_str.
Qed.

Lemma join_proper_shape (l : list string) :
  Forall (λ n, proper n = true) l → l ≠ [] →
  Py.is_empty (Py.join "/" l) = false ∧
  Py.endswith_char (Py.join "/" l) PosixPath.sep = false.
Proof.
  induction l as [|x l IH] using rev_ind; [done|]. intros Hall _.
  apply Forall_app in Hall as [Hl Hx]. rewrite Forall_singleton in Hx.
  pose proof (proper_plain x Hx) as [Hne Hs]%andb_prop.
  assert (x ≠ "") by (by destruct x).
  destruct l as [|a l].
  - simpl. split; [by destruct x|]. by apply no_sep_endswith.
  - rewrite join_snoc by done. split.
    + by destruct (Py.join "/" (a :: l)).
    + rewrite <-app_assoc_str, endswith_char_app by done. by apply no_sep_endswith.
Qed.

Lemma join_rooted comps n :
  Forall (λ n, proper n = true) comps → proper n = true →
  PosixPath.join (rooted comps) n = rooted (comps ++ [n]).
Proof.
  intros Hall Hn. rewrite join_with_sep by (by apply proper_plain).
  unfold with_sep, rooted. destruct comps as [|c comps]; [done|].
  destruct (join_proper_shape (c :: comps) Hall) as [_ He]; [done|].
  assert (Py.endswith_char ("/" +:+ Py.join "/" (c :: comps)) PosixPath.sep = false) as ->.
  { rewrite endswith_char_app; [done|]. intros E.
    destruct (join_proper_shape (c :: comps) Hall) as [Hne _]; [done|]. by rewrite E in Hne. }
  simpl orb. cbv iota. rewrite join_snoc by done. by rewrite !app_assoc_str.
Qed.

Lemma join_all_rooted names : ∀ comps,
  Forall (λ n, proper n = true) comps → Forall (λ n, proper n = true) names →
  PosixPath.join_all (rooted comps) names = rooted (comps ++ names).
Proof.
  induction names as [|n names IH]; intros comps Hc Hn.
  { by rewrite app_nil_r. }
  apply Forall_cons in Hn as [Hn Hns]. unfold PosixPath.join_all in *. simpl.
  rewrite join_rooted by done. rewrite IH; [|by apply Forall_app; split; [|constructor]|done].
  by rewrite <-app_assoc.
Qed.

Lemma join_all_names names : ∀ n,
  proper n = true → Forall (λ n, proper n = true) names →
  PosixPath.join_all n names = Py.join "/" (n :: names).
Proof.
  induction names as [|x names IH] using rev_ind; intros n Hn Hall; [done|].
  apply Forall_app in Hall as [Hns Hx]. rewrite Forall_singleton in Hx.
  rewrite join_all_snoc, IH by done.
  rewrite join_with_sep by (by apply proper_plain).
  destruct (join_proper_shape (n :: names)) as [Hne He]; [by constructor|done|].
  unfold with_sep. rewrite Hne, He. simpl orb. cbv iota.
  change (n :: names ++ [x]) with ((n :: names) ++ [x]).
  rewrite join_snoc by done. by rewrite !app_assoc_str.
Qed.

Lemma proper_names_plain e : proper_names e = true → plain_names e = true.
Proof.
  induction e as [name st|name st walk_ok entries IH] using entry_ind_nested; [done|].
  simpl. rewrite !forallb_forall. intros Hall d Hd.
  specialize (Hall d Hd). apply andb_prop in Hall as [Hp Hn].
  rewrite Forall_forall in IH. rewrite (proper_plain _ Hp). simpl.
  apply IH; [by apply list_elem_of_In|done].
Qed.

Section RelativePaths.
Context {W : Type} `{!Host W}.

Lemma relpath_below comps names :
  Forall (λ n, proper n = true) comps → Forall (λ n, proper n = true) names →
  names ≠ [] →
  PosixPath.relpath getcwd (rooted (comps ++ names)) (rooted comps)
  = Ok (Py.join "/" names).
Proof.
  intros Hc Hn Hne. unfold PosixPath.relpath.
  change (Py.is_empty (rooted (comps ++ names))) with false. cbv iota.
  rewrite !components_rooted by (by try apply Forall_app). cbv zeta.
  assert (rest_after comps (comps ++ names) = Some names) as Hr.
  { clear. induction comps as [|c comps IH]; [done|]. simpl. by rewrite decide_True. }
  destruct (rest_after_Some _ _ _ Hr) as [-> _].
  rewrite Nat.sub_diag, drop_app_length. simpl.
  destruct names as [|n names]; [done|].
  apply Forall_cons in Hn as [Hn Hns]. by rewrite join_all_names.
Qed.

Lemma visits_proper excluded_paths comps e : ∀ names,
  proper_names e = true →
  Forall (λ n, proper n = true) comps → Forall (λ n, proper n = true) names →
  Forall (λ v : string * entry,
            ∃ ns, Forall (λ n, proper n = true) ns ∧ ns ≠ [] ∧
                  visit_path v = rooted (comps ++ ns))
         (visits excluded_paths (rooted (comps ++ names)) e).1.
Proof.
  induction e as [name st|name st walk_ok entries IH] using entry_ind_nested;
    intros names Hnames Hc Hns; [by constructor|].
  simpl. destruct walk_ok; simpl; [|by constructor].
  destruct (is_path_excluded _ excluded_paths); [by constructor|].
  simpl in Hnames. rewrite forallb_forall in Hnames.
  apply Forall_forall. intros x [Hx|Hx]%then_visits_elem.
  - simpl in Hx. apply list_elem_of_fmap in Hx as (y & -> & Hy).
    apply items_here_elem, list_elem_of_In, Hnames in Hy. apply andb_prop in Hy as [Py _].
    exists (names ++ [entry_name y]). split_and!.
    + apply Forall_app. split; [done|by constructor].
    + by destruct names.
    + unfold visit_path. simpl. rewrite join_rooted by (by try apply Forall_app).
      by rewrite <-app_assoc.
  - revert x Hx. apply Forall_forall.
    induction IH as [|d l Hd _ IHl]; [by constructor|]. simpl.
    assert (proper (entry_name d) = true ∧ proper_names d = true) as [Pd Nd].
    { apply andb_prop, Hnames. by left. }
    match goal with |- Forall _ (if ?c then _ else ?rest).1 =>
      assert (Forall (λ v : string * entry,
                 ∃ ns, Forall (λ n, proper n = true) ns ∧ ns ≠ [] ∧
                       visit_path v = rooted (comps ++ ns)) rest.1) as Hrest
        by (apply IHl; intros y Hy; apply Hnames; by right);
      destruct c; [|done] end.
    apply Forall_forall. intros x [Hx|Hx]%then_visits_elem.
    + rewrite join_rooted in Hx by (by try apply Forall_app).
      rewrite <-app_assoc in Hx. revert x Hx. apply Forall_forall, Hd; [done..|].
      apply Forall_app. split; [done|by constructor].
    + revert x Hx. by apply Forall_forall.
Qed.

Lemma changed_items_candidates cs : ∀ σ x,
  x ∈ changed_items (foldl (record) σ cs) →
  x ∈ changed_items σ ∨ ∃ c, c ∈ cs ∧ x = c.1.
Proof.
  induction cs as [|c cs IH]; intros σ x; simpl; [by left|].
  intros [Hx|(c' & ? & ->)]%IH.
  - unfold record in Hx. case_decide; [|by left]. simpl in Hx.
    apply elem_of_app in Hx as [?|Hx]; [by left|].
    apply list_elem_of_singleton in Hx as ->.
    right. exists c. split; [by left|done].
  - right. exists c'. split; [by right|done].
Qed.

(** X19.  Under a normalized source directory, the relative path that a
    scan gives to a changed item is the names from the source directory
    down to the item joined by [/], and the path of the item is the
    source directory followed by those names: joining the relative path
    to a directory rebuilds the layout of the source below it. *)
Theorem changed_items_relative excluded_paths comps tree table :
  Forall (λ n, proper n = true) comps → proper_names tree = true →
  Forall (λ changed : string * string,
            ∃ names, names ≠ [] ∧ Forall (λ n, proper n = true) names ∧
                     changed.1 = rooted (comps ++ names) ∧
                     changed.2 = Py.join "/" names)
         (changed_items (scan (rooted comps) excluded_paths tree table)).
Proof.
  intros Hc Hproper. rewrite scan_record by (by apply proper_names_plain).
  apply Forall_forall. intros x Hx.
  apply changed_items_candidates in Hx
    as [Hx|(c & Hc' & ->)]; [by apply elem_of_nil in Hx|].
  unfold candidates in Hc'. apply list_elem_of_omap in Hc' as (v & Hv & Hcand).
  pose proof (visits_proper excluded_paths comps tree [] Hproper Hc) as Hvis.
  rewrite app_nil_r in Hvis. specialize (Hvis ltac:(constructor)).
  rewrite Forall_forall in Hvis. destruct (Hvis v Hv) as (ns & Hns & Hne & Hpath).
  unfold candidate in Hcand. rewrite Hpath in Hcand.
  rewrite relpath_below in Hcand by done.
  exists ns. repeat case_match; try done. by simplify_eq.
Qed.

End RelativePaths.

Section LoopProperties.
Context {W : Type} `{!Host W}.
Variables (project_name config_file_path : string).
Variables (backup_times : gmap string value) (excluded_by_index : gmap Z (list string)).







End LoopProperties.

(** A run of two poll cycles with the version text [v1]. *)
Lemma version_warning_only_at_start_witness :
  ∃ w' warning events,
    monitor_directories (W:=dir_fs) "proj" "config.json" ∅ ∅
      ["/src"] ["/backup"] (VStr "v1") [(10, id); (20, id)] (World [] DirFS) = (Ok tt, w') ∧
    stdout w' = [Monitoring "/src" "/backup" []] ++ Starting 1 :: warning ++ events ∧
    (warning = [] ∨ warning = [WarnVersion (VStr "v1")]) ∧
    version_quiet events.
Proof.
  apply (version_warning_only_at_start (W:=dir_fs) "proj" "config.json" ∅ ∅
           ["/src"] ["/backup"] (VStr "v1") [(10, id); (20, id)] (World [] DirFS)
           [("/src", "/backup", 0%nat)] (World [Monitoring "/src" "/backup" []] DirFS)).
  - reflexivity.
  - done.
Defined.

(** The changed items of the first scan of [/src]. *)
Lemma changed_items_relative_witness :
  Forall (λ changed : string * string,
            ∃ names, names ≠ [] ∧ Forall (λ n, proper n = true) names ∧
                     changed.1 = rooted (["src"] ++ names) ∧
                     changed.2 = Py.join "/" names)
         (changed_items (scan (W:=toy_fs) (rooted ["src"]) [] (with_build 8) ∅)).
Proof.
  apply (changed_items_relative (W:=toy_fs) [] ["src"] (with_build 8) ∅).
  - repeat constructor.
  - reflexivity.
Defined.



Example changed_items_relative_example :
  changed_items (scan (W:=toy_fs) (rooted ["src"]) [] (with_build 8) ∅)
  = [("/src/build", "build"); ("/src/main.c", "main.c"); ("/src/build/out.o", "build/out.o")].
Proof. vm_compute. reflexivity. Qed.

Example directory_lists_examples :
  directory_lists {["0" := VStr "/a"; "2" := VStr "/c"]}
                  {["0" := VStr "/x"; "1" := VStr ""; "2" := VStr "/z"]}
    = Ok ([VStr "/a"; VStr "/c"], [VStr "/x"; VStr "/z"]) ∧
  directory_lists {["01" := VStr "/a"]} {["01" := VStr "/x"]} = Ok ([], []) ∧
  directory_lists ∅ ∅ = Ok ([], []) ∧
  directory_lists {["first" := VStr "/a"]} ∅ = Raise ValueError.
Proof. repeat split; vm_compute; reflexivity. Qed.

Lemma for_fold_app {S A B} (f : B → A → ST S B) (l1 l2 : list A) : ∀ acc s,
  for_fold f (l1 ++ l2) acc s
  = match for_fold f l1 acc s with
    | (Ok acc', s') => for_fold f l2 acc' s'
    | (Raise e, s') => (Raise e, s')
    end.
Proof.
  induction l1 as [|x l1 IH]; intros acc s; [done|].
  simpl. rewrite !bind_eval. destruct (f acc x s) as [[acc'|e] s']; [apply IH|done].
Qed.

Section ExclusionTypes.
Context {W : Type} `{!Host W}.

Lemma normalize_excluded_fold_error source_dir l : ∀ acc (w : world W),
  forallb is_str l = false →
  for_fold (normalize_excluded_path source_dir) l acc w = (Raise AttributeError, w).
Proof.
  induction l as [|x l IH]; intros acc w; [done|]. simpl.
  rewrite bind_eval. unfold normalize_excluded_path at 1.
  destruct x; simpl; try by st_run.
  intros Hl. st_run.
  destruct (Py.is_empty (Py.strip s)); st_run; [by apply IH|].
  destruct (PosixPath.isabs (Py.strip s)); st_run; by apply IH.
Qed.

(** X22.  An exclusion value that is neither a string nor a collection of
    strings is not skipped with a warning: under a number that selects a
    source directory, [normalize_excluded_paths] ends in the [TypeError]
    or the [AttributeError] of that value, after the warnings of the
    items before it. *)
Theorem normalize_excluded_paths_type_error before index_str excluded_paths after
    source_dirs (w : world W) i source_dir e :
  Forall (λ item : string * value, is_Some (raw_entries item.2)) before →
  Py.int index_str = Ok i →
  i < Z.of_nat (length source_dirs) →
  index source_dirs i = Ok source_dir →
  exclusion_error excluded_paths = Some e →
  normalize_excluded_paths (before ++ (index_str, excluded_paths) :: after) source_dirs w
  = (Raise e,
     World (stdout w
            ++ (WarnExcludedIndex <$> filter (λ k, index_warned source_dirs k) before.*1))
           (fs w)).
Proof.
  intros Hbefore Hint Hlt Hsrc Herr. unfold normalize_excluded_paths.
  rewrite for_fold_app, normalize_excluded_paths_eval by done.
  cbn [for_fold]. rewrite bind_eval.
  unfold normalize_excluded_item, try_except. st_run.
  rewrite Hint. cbv beta iota. rewrite decide_True by done. st_run.
  rewrite Hsrc. cbv beta iota.
  destruct excluded_paths as [| | | |s|l|d]; simpl in Herr; try done;
    try (injection Herr as <-; by st_run).
  destruct (forallb is_str l) eqn:El; [done|]. injection Herr as <-.
  simpl. st_run. by rewrite normalize_excluded_fold_error.
Qed.

End ExclusionTypes.

(** The exclusion [[5]] for the only source directory. *)
Lemma normalize_excluded_paths_type_error_witness :
  normalize_excluded_paths [("0", VList [VInt 5])] ["/src"] (toy_world two_files [])
  = (Raise AttributeError, toy_world two_files []).
Proof.
  apply (normalize_excluded_paths_type_error (W:=toy_fs) [] "0" (VList [VInt 5]) []
           ["/src"] (toy_world two_files []) 0 "/src" AttributeError).
  - constructor.
  - reflexivity.
  - simpl. lia.
  - reflexivity.
  - reflexivity.
Defined.
